(** * EsolAITest: the change-detection pipeline of the FCE correction server

    A shallow embedding of the pure part of
    [backend/FCEServer/fastapi_server.py] (tokenizer, aligner, edit
    extraction, error attribution, scoring) and of the training-example
    builder of [train-fce-model/train_fce_error_tagger.py], with the
    properties stated about them.

    Python values are modelled as follows.
    - [str] is a list of Unicode code points ([pystr]).
    - [int] is [Z].
    - [None]-able values are [option].
    - A call that can raise returns [option]; [None] stands for "did not
      return normally".
    - The library functions the code calls ([re.findall], [str.strip],
      [str.lower], [str.replace], [str.join], [difflib.SequenceMatcher])
      are modelled after their CPython implementations. *)

From Stdlib Require Import ZArith NArith Lia Strings.String Strings.Ascii.
From stdpp Require Import base tactics option list gmap sorting.

Local Open Scope Z_scope.

(** ** Strings and character classes *)

(** A Python [str]: a sequence of code points. *)
Abbreviation pystr := (list N).

(** Rocq string literals denote ASCII-only Python strings. *)
Definition str (s : string) : pystr := N_of_ascii <$> list_ascii_of_string s.

(** The part of the Unicode character database that CPython consults for
    code points outside ASCII.  It is not part of the repository, so every
    definition below takes it as a parameter; the ASCII rows are fixed. *)
Record UnicodeDB := {
  u_alpha : N → bool;
  u_decimal : N → bool;
  u_digit : N → bool;
  u_numeric : N → bool;
  u_space : N → bool;
  u_lower : pystr → pystr
}.

Definition in_range (lo hi c : N) : bool := ((lo <=? c) && (c <=? hi))%N.

Definition is_ascii (c : N) : bool := (c <? 128)%N.

(** [[A-Za-z]] *)
Definition is_ascii_letter (c : N) : bool :=
  in_range 65 90 c || in_range 97 122 c.

Definition is_ascii_digit (c : N) : bool := in_range 48 57 c.

(** [_Py_ascii_whitespace]: TAB LF VT FF CR, FS GS RS US, SPACE. *)
Definition is_ascii_space (c : N) : bool :=
  in_range 9 13 c || in_range 28 31 c || (c =? 32)%N.

Definition apostrophe : N := 39.
Definition underscore : N := 95.
Definition space : N := 32.
Definition comma : N := 44.
Definition period : N := 46.

Section CharClasses.
Variable ucd : UnicodeDB.

(** [Py_UNICODE_ISDECIMAL], the class [\d] of a [str] pattern. *)
Definition is_decimal (c : N) : bool :=
  if is_ascii c then is_ascii_digit c else u_decimal ucd c.

(** [Py_UNICODE_ISALNUM]: alpha, decimal, digit or numeric. *)
Definition is_alnum (c : N) : bool :=
  if is_ascii c then is_ascii_letter c || is_ascii_digit c
  else u_alpha ucd c || u_decimal ucd c || u_digit ucd c || u_numeric ucd c.

(** [\w]: alphanumeric or underscore. *)
Definition is_word (c : N) : bool := is_alnum c || (c =? underscore)%N.

(** [Py_UNICODE_ISSPACE], the class [\s] and the set [str.strip] removes. *)
Definition is_space (c : N) : bool :=
  if is_ascii c then is_ascii_space c else u_space ucd c.

(** [[^\w\s]] *)
Definition is_punct (c : N) : bool := negb (is_word c) && negb (is_space c).
End CharClasses.

(** ** Regular expressions and [re.findall] *)

(** The fragment of Python's pattern language that the two tokenizer
    patterns use. *)
Inductive regex : Type :=
| Class (p : N → bool)        (* a set or a class escape: one character *)
| Cat (r1 r2 : regex)         (* r1 r2 *)
| Alt (r1 r2 : regex)         (* r1|r2, the left branch is tried first *)
| Opt (r : regex)             (* (?:r)?, greedy *)
| Plus (r : regex).           (* r+, greedy *)

(** Greedy repetition: after one iteration try another one first, then
    stop.  An iteration that consumes nothing ends the repetition. *)
Fixpoint iter_greedy (step : pystr → list pystr) (fuel : nat) (s : pystr)
  : list pystr :=
  s1 ← step s;
  match fuel with
  | S f => if (length s1 <? length s)%nat then iter_greedy step f s1 else []
  | O => []
  end ++ [s1].

(** The backtracking matcher: every way [r] matches a prefix of [s], as the
    list of the remaining suffixes, in the order the engine tries them. *)
Fixpoint ends (r : regex) (s : pystr) : list pystr :=
  match r with
  | Class p => match s with
               | c :: s' => if p c then [s'] else []
               | [] => []
               end
  | Cat r1 r2 => s1 ← ends r1 s; ends r2 s1
  | Alt r1 r2 => ends r1 s ++ ends r2 s
  | Opt r => ends r s ++ [s]
  | Plus r => iter_greedy (ends r) (length s) s
  end.

(** The match the engine reports at the start of [s]: the first one. *)
Definition match_at (r : regex) (s : pystr) : option pystr := head (ends r s).

(** [re.findall(r, s)] for a pattern without groups: scan left to right,
    report each match and resume where it ended; where nothing matches, move
    one character on.  An empty match is reported and the scan moves one
    character on. *)
Fixpoint findall_from (fuel : nat) (r : regex) (s : pystr) : list pystr :=
  match fuel with
  | O => []
  | S f =>
    match s with
    | [] => match match_at r [] with Some _ => [[]] | None => [] end
    | _ :: s' =>
      match match_at r s with
      | Some rest =>
        let n := (length s - length rest)%nat in
        if (n =? 0)%nat then [] :: findall_from f r s'
        else take n s :: findall_from f r rest
      | None => findall_from f r s'
      end
    end
  end.

Definition findall (r : regex) (s : pystr) : list pystr :=
  findall_from (S (length s)) r s.

(** ** The tokenizers *)

Module Server.
Section Tokenizer.
Variable ucd : UnicodeDB.

(** [[A-Za-z]+(?:'[A-Za-z]+)?|\d+|[^\w\s]] *)
Definition token_re : regex :=
  Alt (Cat (Plus (Class is_ascii_letter))
           (Opt (Cat (Class (N.eqb apostrophe)) (Plus (Class is_ascii_letter)))))
      (Alt (Plus (Class (is_decimal ucd)))
           (Class (is_punct ucd))).

Definition _wp_tokenize (text : pystr) : list pystr := findall token_re text.
End Tokenizer.
End Server.

(** [train_fce_error_tagger.py] *)
Module Tagger.
Section Tokenizer.
Variable ucd : UnicodeDB.

(** [\w+|[^\w\s]] *)
Definition token_re : regex :=
  Alt (Plus (Class (is_word ucd))) (Class (is_punct ucd)).

Definition _wp_tokenize (s : pystr) : list pystr := findall token_re s.
End Tokenizer.
End Tagger.

(** [train_fce_grammar_corrector.py] *)
Module Corrector.
Definition token_re (ucd : UnicodeDB) : regex :=
  Alt (Plus (Class (is_word ucd))) (Class (is_punct ucd)).
Definition _wp_tokenize (ucd : UnicodeDB) (s : pystr) : list pystr :=
  findall (token_re ucd) s.
End Corrector.

(** [test_fce_grammar_corrector.py], [FCEErrorCorrector._wp_tokenize] *)
Module Tester.
Definition token_re (ucd : UnicodeDB) : regex :=
  Alt (Plus (Class (is_word ucd))) (Class (is_punct ucd)).
Definition _wp_tokenize (ucd : UnicodeDB) (s : pystr) : list pystr :=
  findall (token_re ucd) s.
End Tester.

(** ** Python operations on [str] and [list] *)

(** [bool(s)] for a string, and for an optional string: [None] and the
    empty string are falsy. *)
Definition truthy (s : pystr) : bool :=
  match s with [] => false | _ => true end.

Definition opt_truthy (o : option pystr) : bool :=
  match o with Some s => truthy s | None => false end.

(** [o or d] *)
Definition or_else (o : option pystr) (d : pystr) : pystr :=
  match o with
  | Some s => if truthy s then s else d
  | None => d
  end.

(** Python's normalisation of a slice bound for a sequence of length [n]. *)
Definition slice_bound (n i : Z) : Z :=
  if i <? 0 then Z.max 0 (n + i) else Z.min i n.

(** [l[lo:hi]] *)
Definition slice {A} (l : list A) (lo hi : Z) : list A :=
  let n := Z.of_nat (length l) in
  let lo' := slice_bound n lo in
  let hi' := slice_bound n hi in
  take (Z.to_nat (hi' - lo')) (drop (Z.to_nat lo') l).

(** [l[i]]; [None] is IndexError. *)
Definition getitem {A} (l : list A) (i : Z) : option A :=
  let n := Z.of_nat (length l) in
  if 0 <=? i then l !! Z.to_nat i
  else if - n <=? i then l !! Z.to_nat (n + i)
  else None.

(** [sep.join(l)] *)
Fixpoint join (sep : pystr) (l : list pystr) : pystr :=
  match l with
  | [] => []
  | [x] => x
  | x :: l' => x ++ sep ++ join sep l'
  end.

(** [s.replace(old, new)] for a non-empty [old]: the occurrences are found
    left to right and do not overlap. *)
Fixpoint replace_from (fuel : nat) (old new s : pystr) : pystr :=
  match fuel with
  | O => s
  | S f =>
    match s with
    | [] => []
    | c :: s' =>
      if bool_decide (old `prefix_of` s)
      then new ++ replace_from f old new (drop (length old) s)
      else c :: replace_from f old new s'
    end
  end.

Definition replace (old new s : pystr) : pystr :=
  replace_from (length s) old new s.

Section StrMethods.
Variable ucd : UnicodeDB.

Fixpoint lstrip (s : pystr) : pystr :=
  match s with
  | c :: s' => if is_space ucd c then lstrip s' else s
  | [] => []
  end.

Definition rstrip (s : pystr) : pystr := reverse (lstrip (reverse s)).

(** [s.strip()] *)
Definition strip (s : pystr) : pystr := rstrip (lstrip s).

Definition ascii_lower (c : N) : N :=
  if in_range 65 90 c then (c + 32)%N else c.

(** [s.lower()]; the lower-casing of a string with characters outside
    ASCII depends on their context and is left to the database. *)
Definition lower (s : pystr) : pystr :=
  if forallb is_ascii s then ascii_lower <$> s else u_lower ucd s.
End StrMethods.

(** ** Edits, categories and feedback *)

Inductive change_type := replaced | deleted | added.

Global Instance change_type_eq_dec : EqDecision change_type.
Proof. solve_decision. Defined.

(** The dict built by [identify_changes] before the category is known. *)
Record change := Change {
  ch_type : change_type;
  ch_from : option pystr;
  ch_to : option pystr
}.

(** The same dict once ["error_type"] and ["micro_feedback"] are set. *)
Record edit := Edit {
  e_change : change;
  e_error_type : pystr;
  e_micro_feedback : pystr
}.

Definition ARTICLES : gset pystr := {[ str "a"; str "an"; str "the" ]}.

Definition agreement_plural := str "agreement/plural".
Definition articles_determiners := str "articles/determiners".
Definition verb_tense_form := str "verb tense/form".
Definition prepositions := str "prepositions".
Definition spelling := str "spelling".
Definition word_choice_form := str "word choice/form".
Definition missing_word := str "missing word".
Definition unnecessary_word := str "unnecessary word".
Definition punctuation := str "punctuation".
Definition word_order := str "word order".
Definition other := str "other".

(** A dict literal with string keys. *)
Definition dict_of (l : list (pystr * pystr)) : gmap pystr pystr :=
  list_to_map l.

(** [d.get(k, default)] *)
Definition dict_get (d : gmap pystr pystr) (k : pystr) (dflt : pystr) : pystr :=
  default dflt (d !! k).

Definition en_dash : N := 8211.
Definition em_dash : N := 8212.
Definition right_quote : N := 8217.

Module ServerFeedback.
Definition MICRO_FEEDBACK : gmap pystr pystr := dict_of [
  (agreement_plural,
     str "Check agreement (subject" ++ [en_dash] ++
     str "verb and singular/plural nouns). " ++
     str "For 3rd person singular, use 'does/has/is' and add -s where needed.");
  (articles_determiners,
     str "Check articles and determiners (a/an/the/your). Use them when needed and remove extra ones.");
  (verb_tense_form,
     str "Check verb tense and verb form (e.g., past vs present, infinitive vs -ing).");
  (prepositions,
     str "Check the preposition choice (e.g., 'in July' not 'on July').");
  (spelling, str "Fix spelling mistakes.");
  (word_choice_form, str "Use the correct word or word form for the meaning.");
  (missing_word,
     str "A word is missing" ++ [em_dash] ++
     str "add the word needed for a complete/grammatical phrase.");
  (unnecessary_word,
     str "Remove extra words that aren" ++ [right_quote] ++ str "t needed.");
  (punctuation, str "Fix punctuation (commas, full stops, capitalization).");
  (word_order, str "Adjust word order to match natural English structure.");
  (other, str "Review this part for grammar/usage.")
].

Definition _micro_feedback_for (error_type : pystr) : pystr :=
  dict_get MICRO_FEEDBACK error_type
           (dict_get MICRO_FEEDBACK other []).
End ServerFeedback.

(** ** The error attributor *)

(** The external classifier: [predict] takes a list of texts and returns a
    list of labels, or raises. *)
Record Classifier := { predict : list pystr → option (list pystr) }.

(** The fields of [ModelManager] that the pipeline reads.  [seq2seq] stands
    for tokenizer, generation and decoding of the correction model: from the
    input text and [max_new_tokens] to the decoded output, or an exception. *)
Record ModelManager := {
  loaded : bool;
  seq2seq : pystr → Z → option pystr;
  error_clf : option Classifier;
  error_clf_loaded : bool
}.

Section Attributor.
Variable ucd : UnicodeDB.

Definition _normalize_pair_for_clf (frm to : option pystr) : pystr :=
  let frm := strip ucd (or_else frm []) in
  let to := strip ucd (or_else to []) in
  str "INC: " ++ frm ++ str " || COR: " ++ to.

(** The two normalised sides the heuristic compares. *)
Definition heuristic_side (raw : option pystr) : pystr :=
  if opt_truthy raw then lower ucd (strip ucd (or_else raw [])) else [].

(** The test of the plural rule on the normalised sides. *)
Definition plural_test (frm to : pystr) : bool :=
  bool_decide (frm ++ str "s" = to)
  || bool_decide (frm ++ str "es" = to)
  || (bool_decide (str "y" `suffix_of` frm)
      && bool_decide (slice frm 0 (-1) ++ str "ies" = to)).

(** The rules in their order.  The plural rule is an [if] without [else]
    nested in the test on the type and the two sides: when any of the three
    tests fails, control falls through to the rules below. *)
Definition _predict_error_type_heuristic (c : change) : pystr :=
  let frm := heuristic_side (ch_from c) in
  let to := heuristic_side (ch_to c) in
  if bool_decide (ch_type c = added) && bool_decide (to ∈ ARTICLES)
  then articles_determiners
  else if bool_decide (ch_type c = replaced) && truthy frm && truthy to
          && plural_test frm to
  then agreement_plural
  else if bool_decide (ch_type c = added) then missing_word
  else if bool_decide (ch_type c = deleted) then unnecessary_word
  else other.

(** What the [try] block evaluates to; [None] when it raises (an
    exception of the classifier or an IndexError on an empty answer),
    which the handler turns into falling through to the heuristic. *)
Definition try_classifier (clf : Classifier) (c : change) : option pystr :=
  let x := _normalize_pair_for_clf (ch_from c) (ch_to c) in
  labels ← predict clf [x];
  getitem labels 0.

Definition _predict_error_type (mm : ModelManager) (c : change) : pystr :=
  match (if error_clf_loaded mm then error_clf mm else None) with
  | Some clf =>
    match try_classifier clf c with
    | Some label => label
    | None => _predict_error_type_heuristic c
    end
  | None => _predict_error_type_heuristic c
  end.
End Attributor.

(** ** [difflib.SequenceMatcher]

    The matcher is created as [SequenceMatcher(None, a, b)]: there is no
    junk predicate and [autojunk] has its default, [True]. *)

(** [Match(a, b, size)] *)
Abbreviation Match := (Z * Z * Z)%type.

Inductive tag := tag_replace | tag_delete | tag_insert | tag_equal.

Global Instance tag_eq_dec : EqDecision tag.
Proof. solve_decision. Defined.

(** An opcode [(tag, i1, i2, j1, j2)]. *)
Record Opcode := Op {
  op_tag : tag;
  op_i1 : Z; op_i2 : Z;
  op_j1 : Z; op_j2 : Z
}.

(** The order of tuples that [list.sort] uses. *)
Definition match_le (x y : Match) : Prop :=
  let '(i1, j1, k1) := x in
  let '(i2, j2, k2) := y in
  i1 < i2 ∨ (i1 = i2 ∧ (j1 < j2 ∨ (j1 = j2 ∧ k1 ≤ k2))).

Global Instance match_le_dec : RelDecision match_le.
Proof. intros [[??]?] [[??]?]; unfold match_le; apply _. Defined.

Section SequenceMatcher.
Context `{Countable A}.

(** [enumerate(b)] *)
Definition enumerate (b : list A) : list (Z * A) :=
  imap (λ i elt, (Z.of_nat i, elt)) b.

(** The first loop of [__chain_b]: [b2j.setdefault(elt, []).append(i)]. *)
Definition index_b (b : list A) : gmap A (list Z) :=
  foldl (λ b2j '(i, elt), <[elt := default [] (b2j !! elt) ++ [i]]> b2j)
        ∅ (enumerate b).

(** The elements [__chain_b] finds popular: only looked for when [b] has
    at least 200 elements. *)
Definition popular_of (b2j : gmap A (list Z)) (n : Z) : gset A :=
  if 200 <=? n then
    let ntest := n `div` 100 + 1 in
    dom (filter (λ kv, ntest < Z.of_nat (length kv.2)) b2j)
  else ∅.

(** [for elt in s: del b2j[elt]] *)
Definition purge (b2j : gmap A (list Z)) (s : gset A) : gmap A (list Z) :=
  filter (λ kv, kv.1 ∉ s) b2j.

Record SequenceMatcher := {
  sm_a : list A;
  sm_b : list A;
  sm_b2j : gmap A (list Z);
  sm_bjunk : gset A;
  sm_bpopular : gset A
}.

(** [SequenceMatcher(None, a, b)] *)
Definition new_matcher (a b : list A) : SequenceMatcher :=
  let b2j := index_b b in
  let junk : gset A := ∅ in
  let popular := popular_of b2j (Z.of_nat (length b)) in
  {| sm_a := a; sm_b := b; sm_b2j := purge (purge b2j junk) popular;
     sm_bjunk := junk; sm_bpopular := popular |}.

Section FindLongestMatch.
Variable sm : SequenceMatcher.

Definition isbjunk (x : A) : bool := bool_decide (x ∈ sm_bjunk sm).

(** The body of [for j in b2j.get(a[i], nothing)], with its [continue]
    and [break]. *)
Fixpoint scan_row (js : list Z) (i blo bhi : Z)
    (j2len newj2len : gmap Z Z) (best : Match) : gmap Z Z * Match :=
  match js with
  | [] => (newj2len, best)
  | j :: js' =>
    if j <? blo then scan_row js' i blo bhi j2len newj2len best
    else if bhi <=? j then (newj2len, best)
    else
      let k := default 0 (j2len !! (j - 1)) + 1 in
      let newj2len := <[j := k]> newj2len in
      let best := if best.2 <? k then (i - k + 1, j - k + 1, k) else best in
      scan_row js' i blo bhi j2len newj2len best
  end.

(** [for i in range(alo, ahi)] *)
Fixpoint scan_rows (rows : list Z) (blo bhi : Z)
    (j2len : gmap Z Z) (best : Match) : option Match :=
  match rows with
  | [] => Some best
  | i :: rows' =>
    x ← getitem (sm_a sm) i;
    let '(newj2len, best) :=
      scan_row (default [] (sm_b2j sm !! x)) i blo bhi j2len ∅ best in
    scan_rows rows' blo bhi newj2len best
  end.

(** [while besti > alo and bestj > blo and P(b[bestj-1]) and
    a[besti-1] == b[bestj-1]], where [P] is [not isbjunk] in the first
    pair of loops and [isbjunk] in the second. *)
Fixpoint extend_back (fuel : nat) (junk : bool) (alo blo : Z)
    (best : Match) : option Match :=
  match fuel with
  | O => None
  | S f =>
    let '(besti, bestj, bestsize) := best in
    if (alo <? besti) && (blo <? bestj) then
      y ← getitem (sm_b sm) (bestj - 1);
      if eqb (isbjunk y) junk then
        x ← getitem (sm_a sm) (besti - 1);
        if bool_decide (x = y)
        then extend_back f junk alo blo (besti - 1, bestj - 1, bestsize + 1)
        else Some best
      else Some best
    else Some best
  end.

(** [while besti+bestsize < ahi and bestj+bestsize < bhi and
    P(b[bestj+bestsize]) and a[besti+bestsize] == b[bestj+bestsize]] *)
Fixpoint extend_forth (fuel : nat) (junk : bool) (ahi bhi : Z)
    (best : Match) : option Match :=
  match fuel with
  | O => None
  | S f =>
    let '(besti, bestj, bestsize) := best in
    if (besti + bestsize <? ahi) && (bestj + bestsize <? bhi) then
      y ← getitem (sm_b sm) (bestj + bestsize);
      if eqb (isbjunk y) junk then
        x ← getitem (sm_a sm) (besti + bestsize);
        if bool_decide (x = y)
        then extend_forth f junk ahi bhi (besti, bestj, bestsize + 1)
        else Some best
      else Some best
    else Some best
  end.

(** Enough iterations for the two kinds of loops. *)
Definition back_fuel (alo : Z) (best : Match) : nat :=
  S (Z.to_nat (best.1.1 - alo)).
Definition forth_fuel (ahi : Z) (best : Match) : nat :=
  S (Z.to_nat (ahi - (best.1.1 + best.2))).

Definition find_longest_match (alo ahi blo bhi : Z) : option Match :=
  best ← scan_rows (seqZ alo (ahi - alo)) blo bhi ∅ (alo, blo, 0);
  best ← extend_back (back_fuel alo best) false alo blo best;
  best ← extend_forth (forth_fuel ahi best) false ahi bhi best;
  best ← extend_back (back_fuel alo best) true alo blo best;
  extend_forth (forth_fuel ahi best) true ahi bhi best.
End FindLongestMatch.

(** The [while queue] loop of [get_matching_blocks].  The Python list
    [queue] is used as a stack; its last element is the head here. *)
Fixpoint blocks_loop (sm : SequenceMatcher) (fuel : nat)
    (queue : list (Z * Z * Z * Z)) (matching_blocks : list Match)
    : option (list Match) :=
  match fuel with
  | O => None
  | S f =>
    match queue with
    | [] => Some matching_blocks
    | (alo, ahi, blo, bhi) :: queue =>
      x ← find_longest_match sm alo ahi blo bhi;
      let '(i, j, k) := x in
      if k =? 0 then blocks_loop sm f queue matching_blocks
      else
        let matching_blocks := matching_blocks ++ [x] in
        let queue :=
          if (alo <? i) && (blo <? j) then (alo, i, blo, j) :: queue
          else queue in
        let queue :=
          if (i + k <? ahi) && (j + k <? bhi) then (i + k, ahi, j + k, bhi) :: queue
          else queue in
        blocks_loop sm f queue matching_blocks
    end
  end.

(** The loop that collapses adjacent blocks; the state is
    [(i1, j1, k1)] and [non_adjacent]. *)
Fixpoint collapse (blocks : list Match) (cur : Match)
    (non_adjacent : list Match) : Match * list Match :=
  match blocks with
  | [] => (cur, non_adjacent)
  | (i2, j2, k2) :: blocks' =>
    let '(i1, j1, k1) := cur in
    if (i1 + k1 =? i2) && (j1 + k1 =? j2)
    then collapse blocks' (i1, j1, k1 + k2) non_adjacent
    else
      let non_adjacent :=
        if k1 =? 0 then non_adjacent else non_adjacent ++ [cur] in
      collapse blocks' (i2, j2, k2) non_adjacent
  end.

Definition get_matching_blocks (sm : SequenceMatcher) : option (list Match) :=
  let la := Z.of_nat (length (sm_a sm)) in
  let lb := Z.of_nat (length (sm_b sm)) in
  matching_blocks ←
    blocks_loop sm (S (S (2 * length (sm_a sm)))) [(0, la, 0, lb)] [];
  let matching_blocks := merge_sort match_le matching_blocks in
  let '(cur, non_adjacent) := collapse matching_blocks (0, 0, 0) [] in
  let non_adjacent :=
    if cur.2 =? 0 then non_adjacent else non_adjacent ++ [cur] in
  Some (non_adjacent ++ [(la, lb, 0)]).

(** The loop of [get_opcodes]; the state is [(i, j)] and [answer]. *)
Fixpoint opcodes_loop (blocks : list Match) (i j : Z)
    (answer : list Opcode) : list Opcode :=
  match blocks with
  | [] => answer
  | (ai, bj, size) :: blocks' =>
    let tag :=
      if (i <? ai) && (j <? bj) then Some tag_replace
      else if i <? ai then Some tag_delete
      else if j <? bj then Some tag_insert
      else None in
    let answer :=
      match tag with
      | Some t => answer ++ [Op t i ai j bj]
      | None => answer
      end in
    let i' := ai + size in
    let j' := bj + size in
    let answer :=
      if size =? 0 then answer else answer ++ [Op tag_equal ai i' bj j'] in
    opcodes_loop blocks' i' j' answer
  end.

Definition get_opcodes (sm : SequenceMatcher) : option (list Opcode) :=
  blocks ← get_matching_blocks sm;
  Some (opcodes_loop blocks 0 0 []).
End SequenceMatcher.

(** ** The edit extractor and the scorer *)

Definition INSTRUCTION_PREFIX : pystr :=
  str "fix_grammar Keep meaning. Improve grammar, spelling, and punctuation. "
  ++ str "Output only the corrected text.".

(** The dict [correct_text] returns. *)
Record CorrectionResult := {
  r_original : pystr;
  r_corrected : pystr;
  r_prompt : pystr;
  r_num_errors : Z;
  r_score : Z;
  r_changes : list edit;
  r_has_errors : bool
}.

Module Pipeline.
Section Pipeline.
Variable ucd : UnicodeDB.
Variable model_manager : ModelManager.

(** [" ".join(tokens).replace(" ,", ",").replace(" .", ".")] *)
Definition segment (tokens : list pystr) : pystr :=
  replace (str " .") (str ".")
    (replace (str " ,") (str ",") (join (str " ") tokens)).

(** The dict built for one opcode that is not [equal]; the loop skips the
    [equal] opcodes before it gets here. *)
Definition change_of (o_tokens c_tokens : list pystr) (op : Opcode) : change :=
  let original_segment := segment (slice o_tokens (op_i1 op) (op_i2 op)) in
  let corrected_segment := segment (slice c_tokens (op_j1 op) (op_j2 op)) in
  match op_tag op with
  | tag_replace => Change replaced (Some original_segment) (Some corrected_segment)
  | tag_delete => Change deleted (Some original_segment) None
  | tag_insert | tag_equal => Change added None (Some corrected_segment)
  end.

Definition edit_of (c : change) : edit :=
  let error_type := _predict_error_type ucd model_manager c in
  Edit c error_type (ServerFeedback._micro_feedback_for error_type).

(** The [for] loop of [identify_changes], with its [continue] on [equal]
    and its [break] at 50 changes. *)
Fixpoint changes_loop (o_tokens c_tokens : list pystr) (ops : list Opcode)
    (changes : list edit) : list edit :=
  match ops with
  | [] => changes
  | op :: ops' =>
    if bool_decide (op_tag op = tag_equal)
    then changes_loop o_tokens c_tokens ops' changes
    else
      let changes := changes ++ [edit_of (change_of o_tokens c_tokens op)] in
      if 50 <=? Z.of_nat (length changes) then changes
      else changes_loop o_tokens c_tokens ops' changes
  end.

Definition identify_changes (original corrected : pystr) : option (list edit) :=
  let o_tokens := Server._wp_tokenize ucd original in
  let c_tokens := Server._wp_tokenize ucd corrected in
  let sm := new_matcher o_tokens c_tokens in
  ops ← get_opcodes sm;
  Some (changes_loop o_tokens c_tokens ops []).

(** [correct_text]; [None] stands for an exception: the RuntimeError of
    an unloaded model, or whatever the correction model raises. *)
Definition correct_text (student_input prompt : pystr) (max_length : Z)
    : option CorrectionResult :=
  if negb (loaded model_manager) then None
  else
    let input_text := INSTRUCTION_PREFIX ++ str " " ++ student_input in
    decoded ← seq2seq model_manager input_text max_length;
    let corrected := strip ucd decoded in
    changes ← identify_changes student_input corrected;
    let num_errors := Z.of_nat (length changes) in
    let score := Z.max 0 (10 - num_errors) in
    Some {| r_original := student_input;
            r_corrected := corrected;
            r_prompt := prompt;
            r_num_errors := num_errors;
            r_score := score;
            r_changes := changes;
            r_has_errors := 0 <? num_errors |}.
End Pipeline.
End Pipeline.

(** ** The training-example builder *)

(** One annotation of the corpus: the dict that [parse_coded_answer]
    builds, read with [dict.get]. *)
Record correction := {
  error_type : option pystr;
  incorrect : option pystr;
  correct : option pystr
}.

(** One corpus record; [corrections] is [None] when the key is missing. *)
Record sample := {
  corrections : option (list correction)
}.

Module TaggerExamples.
Definition FCE_TO_FRIENDLY : gmap pystr pystr := dict_of [
  (str "AGN", agreement_plural);
  (str "AGV", agreement_plural);
  (str "AGA", agreement_plural);
  (str "MD", articles_determiners);
  (str "MA", articles_determiners);
  (str "DD", articles_determiners);
  (str "UA", articles_determiners);
  (str "TV", verb_tense_form);
  (str "FV", verb_tense_form);
  (str "RV", verb_tense_form);
  (str "UV", verb_tense_form);
  (str "RT", prepositions);
  (str "S", spelling);
  (str "RJ", word_choice_form);
  (str "RN", word_choice_form);
  (str "FN", word_choice_form);
  (str "R", word_choice_form);
  (str "ID", word_choice_form);
  (str "MT", missing_word);
  (str "UT", unnecessary_word);
  (str "RP", punctuation);
  (str "MP", punctuation);
  (str "UP", punctuation);
  (str "W", word_order)
].

Section Builder.
Variable ucd : UnicodeDB.
Variables min_len max_len : Z.

Definition fce_code_of (corr : correction) : pystr :=
  strip ucd (or_else (error_type corr) (str "UNKNOWN")).
Definition inc_of (corr : correction) : pystr :=
  strip ucd (or_else (incorrect corr) []).
Definition cor_of (corr : correction) : pystr :=
  strip ucd (or_else (correct corr) []).

(** The inner [for corr in item.get("corrections", [])] loop, with its
    three [continue]s. *)
Fixpoint corrections_loop (corrs : list correction) (X y : list pystr)
    : list pystr * list pystr :=
  match corrs with
  | [] => (X, y)
  | corr :: corrs' =>
    let fce_code := fce_code_of corr in
    let inc := inc_of corr in
    let cor := cor_of corr in
    if negb (truthy inc) && negb (truthy cor)
    then corrections_loop corrs' X y
    else
      let inc_tokens := Tagger._wp_tokenize ucd inc in
      let cor_tokens := Tagger._wp_tokenize ucd cor in
      if (Z.of_nat (length inc_tokens) <? min_len)
         && (Z.of_nat (length cor_tokens) <? min_len)
      then corrections_loop corrs' X y
      else if (max_len <? Z.of_nat (length inc_tokens))
              || (max_len <? Z.of_nat (length cor_tokens))
      then corrections_loop corrs' X y
      else
        let friendly := dict_get FCE_TO_FRIENDLY fce_code other in
        corrections_loop corrs'
          (X ++ [str "INC: " ++ inc ++ str " || COR: " ++ cor])
          (y ++ [friendly])
  end.

(** The outer [for item in data] loop. *)
Fixpoint items_loop (data : list sample) (X y : list pystr)
    : list pystr * list pystr :=
  match data with
  | [] => (X, y)
  | item :: data' =>
    let '(X, y) := corrections_loop (default [] (corrections item)) X y in
    items_loop data' X y
  end.
End Builder.

(** [build_error_type_examples(data)], with [min_len=1], [max_len=40]. *)
Definition build_error_type_examples (ucd : UnicodeDB) (data : list sample)
    : list pystr * list pystr :=
  items_loop ucd 1 40 data [] [].
End TaggerExamples.

(** ** Notions used in the statements *)

(** The closed set of category labels. *)
Definition taxonomy : list pystr :=
  [agreement_plural; articles_determiners; verb_tense_form; prepositions;
   spelling; word_choice_form; missing_word; unnecessary_word; punctuation;
   word_order; other].

(** [ops] covers [[i, la)] on the original side and [[j, lb)] on the
    corrected side: every opcode starts where the previous one ended, on
    both sides, no opcode is empty on both sides, and the last one ends at
    [(la, lb)]. *)
Fixpoint tiles (i j la lb : Z) (ops : list Opcode) : Prop :=
  match ops with
  | [] => i = la ∧ j = lb
  | op :: ops' =>
    op_i1 op = i ∧ op_j1 op = j ∧
    i ≤ op_i2 op ∧ j ≤ op_j2 op ∧ (i < op_i2 op ∨ j < op_j2 op) ∧
    tiles (op_i2 op) (op_j2 op) la lb ops'
  end.

(** [x] is immediately followed by [y] somewhere in [s]. *)
Fixpoint adjacent (x y : N) (s : pystr) : Prop :=
  match s with
  | c :: (d :: _) as s' => (c = x ∧ d = y) ∨ adjacent x y s'
  | _ => False
  end.

(** A segment is clean when no space stands immediately before a comma or
    a period. *)
Definition clean (s : pystr) : Prop :=
  ¬ adjacent space comma s ∧ ¬ adjacent space period s.

Definition opt_clean (o : option pystr) : Prop :=
  match o with Some s => clean s | None => True end.

(** The plural rule as the specification words it: an exact comparison of
    the two texts of the edit. *)
Definition plural_exact_spec (frm to : pystr) : Prop :=
  to = frm ++ str "s" ∨ to = frm ++ str "es" ∨
  ∃ stem, frm = stem ++ str "y" ∧ to = stem ++ str "ies".

(** The same rule on the sides as the code normalises them. *)
Definition plural_normalised (ucd : UnicodeDB) (c : change) : Prop :=
  let frm := lower ucd (strip ucd (or_else (ch_from c) [])) in
  let to := lower ucd (strip ucd (or_else (ch_to c) [])) in
  frm ≠ [] ∧ to ≠ [] ∧
  (to = frm ++ str "s" ∨ to = frm ++ str "es" ∨
   ∃ stem, frm = stem ++ str "y" ∧ to = stem ++ str "ies").

(** The article rule on the corrected side as the code normalises it. *)
Definition article_normalised (ucd : UnicodeDB) (c : change) : Prop :=
  lower ucd (strip ucd (or_else (ch_to c) [])) ∈ ARTICLES.

(** The strings on which the two tokenization rules cannot differ: no
    apostrophe, and no word character other than an ASCII letter. *)
Definition plain_char (ucd : UnicodeDB) (c : N) : bool :=
  is_ascii_letter c || (negb (is_word ucd c) && negb (c =? apostrophe)%N).

(** All the annotations of a corpus, in the order the builder visits them. *)
Definition triples (data : list sample) : list correction :=
  item ← data; default [] (corrections item).

(** *** The tokenization rule as a scanner *)

(** The longest prefix of characters of a class, and what follows it. *)
Fixpoint span (p : N → bool) (s : pystr) : pystr * pystr :=
  match s with
  | c :: s' =>
    if p c then let '(run, rest) := span p s' in (c :: run, rest)
    else ([], s)
  | [] => ([], [])
  end.

Definition starts_with (p : N → bool) (s : pystr) : bool :=
  match s with c :: _ => p c | [] => false end.

(** The token that starts at the head of [s], with the text after it: a
    maximal run of ASCII letters, extended by an apostrophe and a second
    maximal run of letters when they follow immediately; a maximal run of
    decimal digits; or one character that is neither a word character nor
    whitespace.  [None] when no token starts there. *)
Definition read_token (ucd : UnicodeDB) (s : pystr) : option (pystr * pystr) :=
  match s with
  | [] => None
  | c :: s' =>
    if is_ascii_letter c then
      let '(word, rest) := span is_ascii_letter s in
      match rest with
      | a :: rest' =>
        if (apostrophe =? a)%N && starts_with is_ascii_letter rest'
        then let '(word2, rest2) := span is_ascii_letter rest' in
             Some (word ++ a :: word2, rest2)
        else Some (word, rest)
      | [] => Some (word, rest)
      end
    else if is_decimal ucd c then Some (span (is_decimal ucd) s)
    else if is_punct ucd c then Some ([c], s')
    else None
  end.

(** Read the tokens left to right; a character at which no token starts is
    passed over. *)
Fixpoint scan_tokens (ucd : UnicodeDB) (fuel : nat) (s : pystr) : list pystr :=
  match fuel with
  | O => []
  | S f =>
    match s with
    | [] => []
    | _ :: s' =>
      match read_token ucd s with
      | Some (token, rest) => token :: scan_tokens ucd f rest
      | None => scan_tokens ucd f s'
      end
    end
  end.

(** *** Properties of patterns *)

(** Every character class of [r] only accepts characters with [P]. *)
Fixpoint classes_in (P : N → Prop) (r : regex) : Prop :=
  match r with
  | Class p => ∀ c, p c = true → P c
  | Cat r1 r2 | Alt r1 r2 => classes_in P r1 ∧ classes_in P r2
  | Opt r | Plus r => classes_in P r
  end.

(** [r] cannot match the empty string. *)
Fixpoint consuming (r : regex) : Prop :=
  match r with
  | Class _ => True
  | Cat r1 r2 => consuming r1 ∨ consuming r2
  | Alt r1 r2 => consuming r1 ∧ consuming r2
  | Opt _ => False
  | Plus r => consuming r
  end.

(** *** Invariants of the aligner *)

(** A match lies inside the window [[alo, ahi)] by [[blo, bhi)]. *)
Definition match_in (alo ahi blo bhi : Z) (m : Match) : Prop :=
  let '(i, j, k) := m in
  alo ≤ i ∧ blo ≤ j ∧ 0 ≤ k ∧ i + k ≤ ahi ∧ j + k ≤ bhi.

(** The lengths that [find_longest_match] has recorded after row [i]. *)
Definition row_ok (alo blo bhi i : Z) (j2len : gmap Z Z) : Prop :=
  ∀ j k, j2len !! j = Some k →
    blo ≤ j < bhi ∧ 1 ≤ k ∧ k ≤ j - blo + 1 ∧ k ≤ i - alo + 1.

(** A window [(alo, ahi, blo, bhi)] of the two sequences. *)
Abbreviation region := (Z * Z * Z * Z)%type.

Definition region_of (m : Match) : region :=
  let '(i, j, k) := m in (i, i + k, j, j + k).

Definition region_ok (la lb : Z) (r : region) : Prop :=
  let '(alo, ahi, blo, bhi) := r in
  0 ≤ alo ∧ alo ≤ ahi ∧ ahi ≤ la ∧ 0 ≤ blo ∧ blo ≤ bhi ∧ bhi ≤ lb.

(** Two windows of which one lies wholly before the other, on both sides. *)
Definition apart (r1 r2 : region) : Prop :=
  let '(alo1, ahi1, blo1, bhi1) := r1 in
  let '(alo2, ahi2, blo2, bhi2) := r2 in
  (ahi1 ≤ alo2 ∧ bhi1 ≤ blo2) ∨ (ahi2 ≤ alo1 ∧ bhi2 ≤ blo1).

Definition inside (r1 r2 : region) : Prop :=
  let '(alo1, ahi1, blo1, bhi1) := r1 in
  let '(alo2, ahi2, blo2, bhi2) := r2 in
  alo2 ≤ alo1 ∧ ahi1 ≤ ahi2 ∧ blo2 ≤ blo1 ∧ bhi1 ≤ bhi2.

Fixpoint pairwise {A} (R : relation A) (l : list A) : Prop :=
  match l with
  | [] => True
  | x :: l' => Forall (R x) l' ∧ pairwise R l'
  end.

(** The work left in the queue of [get_matching_blocks]. *)
Definition weight (queue : list region) : nat :=
  sum_list ((λ r : region, S (2 * Z.to_nat (r.1.1.2 - r.1.1.1))) <$> queue).

(** Block [x] ends before block [y] starts, on both sides. *)
Definition before (x y : Match) : Prop :=
  let '(i1, j1, k1) := x in
  let '(i2, j2, k2) := y in
  i1 + k1 ≤ i2 ∧ j1 + k1 ≤ j2.

(** The blocks are in order, do not overlap, and lie inside the two
    sequences. *)
Definition blocks_ok (la lb : Z) (l : list Match) : Prop :=
  StronglySorted before l ∧ Forall (match_in 0 la 0 lb) l.

(** The opcodes that become edits, and the edits they become. *)
Definition non_equal (op : Opcode) : Prop := op_tag op ≠ tag_equal.

Global Instance non_equal_dec op : Decision (non_equal op).
Proof. unfold non_equal. apply _. Defined.

Definition edits_of (ucd : UnicodeDB) (mm : ModelManager)
    (o_tokens c_tokens : list pystr) (ops : list Opcode) : list edit :=
  (λ op, Pipeline.edit_of ucd mm (Pipeline.change_of o_tokens c_tokens op)) <$> ops.

(** Both texts of an edit are clean. *)
Definition edit_clean (e : edit) : Prop :=
  opt_clean (ch_from (e_change e)) ∧ opt_clean (ch_to (e_change e)).

(** The opcodes [identify_changes] computes for two texts. *)
Definition opcodes_of (ucd : UnicodeDB) (original corrected : pystr)
    : option (list Opcode) :=
  get_opcodes (new_matcher (Server._wp_tokenize ucd original)
                           (Server._wp_tokenize ucd corrected)).

(** The scorer's contract on a result. *)
Definition score_contract (r : CorrectionResult) : Prop :=
  let edit_count := Z.of_nat (length (r_changes r)) in
  r_num_errors r = edit_count ∧
  r_score r = Z.max 0 (10 - edit_count) ∧
  r_has_errors r = bool_decide (0 < edit_count) ∧
  0 ≤ r_score r ≤ 10 ∧
  r_score r = 10 - Z.min edit_count 10.

(** The primary attribution path is not available for this change: no
    classifier is loaded, or its [predict] raises on the encoded change. *)
Definition classifier_unavailable (ucd : UnicodeDB) (mm : ModelManager)
    (c : change) : Prop :=
  error_clf_loaded mm = false ∨ error_clf mm = None ∨
  ∃ clf, error_clf mm = Some clf ∧
         predict clf [_normalize_pair_for_clf ucd (ch_from c) (ch_to c)] = None.

(** What the builder requires of an annotation it keeps, and the example
    it makes of it. *)
Definition example_text (ucd : UnicodeDB) (t : correction) : pystr :=
  str "INC: " ++ TaggerExamples.inc_of ucd t ++ str " || COR: "
  ++ TaggerExamples.cor_of ucd t.

Definition example_label (ucd : UnicodeDB) (t : correction) : pystr :=
  dict_get TaggerExamples.FCE_TO_FRIENDLY (TaggerExamples.fce_code_of ucd t) other.

Definition kept (ucd : UnicodeDB) (min_len max_len : Z) (t : correction) : Prop :=
  let inc := TaggerExamples.inc_of ucd t in
  let cor := TaggerExamples.cor_of ucd t in
  let n_inc := Z.of_nat (length (Tagger._wp_tokenize ucd inc)) in
  let n_cor := Z.of_nat (length (Tagger._wp_tokenize ucd cor)) in
  ¬ (inc = [] ∧ cor = []) ∧
  ¬ (n_inc < min_len ∧ n_cor < min_len) ∧
  n_inc ≤ max_len ∧ n_cor ≤ max_len.

Global Instance kept_dec ucd min_len max_len t : Decision (kept ucd min_len max_len t).
Proof. unfold kept. apply _. Defined.

(** A label of the taxonomy that the lookup table can produce. *)
Definition table_label (l : pystr) : Prop :=
  l = other ∨ ∃ code, TaggerExamples.FCE_TO_FRIENDLY !! code = Some l.

(** *** Aligning a sequence with itself *)

(** Position [j] of [b] holds an element that [b2j] still indexes. *)
Definition indexed `{Countable A} (sm : SequenceMatcher (A := A)) (j : Z) : bool :=
  match sm_b sm !! Z.to_nat j with
  | Some x => bool_decide (is_Some (sm_b2j sm !! x))
  | None => false
  end.

(** The number of consecutive positions accepted by [np] that end the
    interval [[lo, lo + m)]. *)
Fixpoint runlen (np : Z → bool) (lo : Z) (m : nat) : Z :=
  match m with
  | O => 0
  | S m' => if np (lo + Z.of_nat m') then runlen np lo m' + 1 else 0
  end.

(** The length of the run of indexed positions that ends at [i], inside
    the window that starts at [lo]. *)
Definition run `{Countable A} (sm : SequenceMatcher (A := A)) (lo i : Z) : Z :=
  runlen (indexed sm) lo (Z.to_nat (i + 1 - lo)).

(** What [find_longest_match] knows after a row, when the two sequences
    are the same: no recorded length exceeds the run of its column or of
    the row, and the diagonal entry is the run of the row. *)
Definition diag_row `{Countable A} (sm : SequenceMatcher (A := A))
    (lo hi i : Z) (j2len : gmap Z Z) : Prop :=
  (∀ j k, j2len !! j = Some k →
     lo ≤ j < hi ∧ 1 ≤ k ∧ k ≤ run sm lo j ∧ k ≤ run sm lo i) ∧
  default 0 (j2len !! i) = run sm lo i.

(** The best match so far is on the diagonal and at least as long as
    every run that ends before row [i]. *)
Definition diag_best `{Countable A} (sm : SequenceMatcher (A := A))
    (lo hi i : Z) (best : Match) : Prop :=
  best.1.1 = best.1.2 ∧ match_in lo hi lo hi best ∧
  ∀ c, lo ≤ c < i → run sm lo c ≤ best.2.

(** ** Concrete instances for the examples *)

(** A database in which no character outside ASCII is a letter, a digit or
    a space. *)
Definition ascii_db : UnicodeDB :=
  {| u_alpha := λ _, false; u_decimal := λ _, false; u_digit := λ _, false;
     u_numeric := λ _, false; u_space := λ _, false; u_lower := λ s, s |}.

(** A loaded correction model that answers [gen], without a classifier. *)
Definition manager_without_classifier (gen : pystr → pystr) : ModelManager :=
  {| loaded := true; seq2seq := λ s _, Some (gen s);
     error_clf := None; error_clf_loaded := false |}.

(** A loaded classifier whose [predict] always raises. *)
Definition failing_classifier : Classifier := {| predict := λ _, None |}.

Definition manager_with_failing_classifier : ModelManager :=
  {| loaded := true; seq2seq := λ s _, Some s;
     error_clf := Some failing_classifier; error_clf_loaded := true |}.

(** A text of [count] pairs "<marker> aa", "<marker> ab", ...: two such
    texts with different one-letter markers differ in every second token. *)
Definition numbered_text (marker : N) (count : nat) : pystr :=
  i ← seq 0 count;
  [marker; space; (97 + N.of_nat (i `div` 26))%N;
   (97 + N.of_nat (i `mod` 26))%N; space].

(** A database with one letter outside ASCII, U+00E9. *)
Definition e_acute : N := 233.

Definition latin_db : UnicodeDB :=
  {| u_alpha := λ c, (c =? e_acute)%N; u_decimal := λ _, false;
     u_digit := λ _, false; u_numeric := λ _, false; u_space := λ _, false;
     u_lower := λ s, s |}.

(** The type, the two texts and the category of an edit. *)
Definition summary (e : edit) : change_type * option pystr * option pystr * pystr :=
  (ch_type (e_change e), ch_from (e_change e), ch_to (e_change e), e_error_type e).

Definition summaries (o : option (list edit))
    : option (list (change_type * option pystr * option pystr * pystr)) :=
  (λ l : list edit, summary <$> l) <$> o.

(** ** Further notions *)

(** The characters that end up in a token of the server, and of the
    offline scripts. *)
Definition server_kept (ucd : UnicodeDB) (c : N) : bool :=
  is_ascii_letter c || is_decimal ucd c || is_punct ucd c.

Definition offline_kept (ucd : UnicodeDB) (c : N) : bool :=
  is_word ucd c || is_punct ucd c.

(** The shapes of a token of the server. *)
Definition word_shape (t : pystr) : Prop :=
  t ≠ [] ∧ Forall (λ c, is_ascii_letter c = true) t.

Definition token_shape (ucd : UnicodeDB) (t : pystr) : Prop :=
  word_shape t ∨
  (∃ w1 w2, t = w1 ++ apostrophe :: w2 ∧ word_shape w1 ∧ word_shape w2) ∨
  (t ≠ [] ∧ Forall (λ c, is_decimal ucd c = true) t) ∨
  (∃ c, t = [c] ∧ is_punct ucd c = true).

(** The test of the builder without its minimum-length clause. *)
Definition kept_without_minimum (ucd : UnicodeDB) (t : correction) : Prop :=
  let inc := TaggerExamples.inc_of ucd t in
  let cor := TaggerExamples.cor_of ucd t in
  ¬ (inc = [] ∧ cor = []) ∧
  (length (Tagger._wp_tokenize ucd inc) ≤ 40)%nat ∧
  (length (Tagger._wp_tokenize ucd cor) ≤ 40)%nat.

Global Instance kept_without_minimum_dec ucd t : Decision (kept_without_minimum ucd t).
Proof. unfold kept_without_minimum. apply _. Defined.

(** The block [(i, j, k)] pairs equal elements: [a[i+d] == b[j+d]] for
    every [d] below [k]. *)
Definition real_match {A} (a b : list A) (m : Match) : Prop :=
  let '(i, j, k) := m in
  ∀ d, 0 ≤ d < k → a !! Z.to_nat (i + d) = b !! Z.to_nat (j + d).

(** The ranges of an opcode fit its tag. *)
Definition op_shape (op : Opcode) : Prop :=
  match op_tag op with
  | tag_replace => op_i1 op < op_i2 op ∧ op_j1 op < op_j2 op
  | tag_delete => op_i1 op < op_i2 op ∧ op_j1 op = op_j2 op
  | tag_insert => op_i1 op = op_i2 op ∧ op_j1 op < op_j2 op
  | tag_equal => op_i1 op < op_i2 op ∧ op_i2 op - op_i1 op = op_j2 op - op_j1 op
  end.

(** An [equal] opcode stands on a block of equal elements. *)
Definition op_real {A} (a b : list A) (op : Opcode) : Prop :=
  op_tag op = tag_equal →
  real_match a b (op_i1 op, op_j1 op, op_i2 op - op_i1 op).

(** The ranges of an opcode lie inside the two sequences. *)
Definition op_in (la lb : Z) (op : Opcode) : Prop :=
  0 ≤ op_i1 op ∧ op_i1 op ≤ op_i2 op ∧ op_i2 op ≤ la ∧
  0 ≤ op_j1 op ∧ op_j1 op ≤ op_j2 op ∧ op_j2 op ≤ lb.

(** What an opcode contributes when the opcodes are replayed on the
    original tokens: the original tokens of an [equal] opcode, the corrected
    tokens of any other. *)
Definition replay {A} (a b : list A) (op : Opcode) : list A :=
  if bool_decide (op_tag op = tag_equal)
  then slice a (op_i1 op) (op_i2 op)
  else slice b (op_j1 op) (op_j2 op).

(** An opcode of a sound alignment of [a] and [b]: its ranges lie inside
    the sequences and fit its tag, and an [equal] opcode spans the same
    elements on both sides. *)
Definition op_sound {A} (a b : list A) (op : Opcode) : Prop :=
  op_in (Z.of_nat (length a)) (Z.of_nat (length b)) op ∧ op_shape op ∧
  (op_tag op = tag_equal →
   slice a (op_i1 op) (op_i2 op) = slice b (op_j1 op) (op_j2 op)).

(** The texts an edit carries fit its type, and a text that is present is
    not empty. *)
Definition change_shape (c : change) : Prop :=
  match ch_type c with
  | replaced => ∃ f t, ch_from c = Some f ∧ ch_to c = Some t ∧ f ≠ [] ∧ t ≠ []
  | deleted => ∃ f, ch_from c = Some f ∧ ch_to c = None ∧ f ≠ []
  | added => ∃ t, ch_from c = None ∧ ch_to c = Some t ∧ t ≠ []
  end.

(** ** The route handlers of the server *)

(** What a route handler does: it returns a body, or raises
    [HTTPException] with a status code.  The detail text is left out (for
    status 500 it is the text of the exception caught). *)
Inductive response (A : Type) :=
  | Ok (body : A)
  | HTTPException (status_code : Z).
Global Arguments Ok {A} body.
Global Arguments HTTPException {A} status_code.

(** The request model of [/correct]. *)
Record CorrectionRequest := {
  req_student_input : pystr;
  req_prompt : pystr;
  req_max_length : Z
}.

Module Routes.
Section Routes.
Variable ucd : UnicodeDB.
Variable model_manager : ModelManager.

Definition health : response unit :=
  if negb (loaded model_manager) then HTTPException 503 else Ok ().

(** The [try] block catches whatever [correct_text] raises. *)
Definition correct (request : CorrectionRequest) : response CorrectionResult :=
  if negb (truthy (strip ucd (req_student_input request)))
  then HTTPException 400
  else
    match Pipeline.correct_text ucd model_manager (req_student_input request)
            (req_prompt request) (req_max_length request) with
    | Some r => Ok r
    | None => HTTPException 500
    end.
End Routes.
End Routes.

(** ** The change detectors of the offline scripts *)

(** The feedback table of the tagger script; two of its tips differ from
    the server's. *)
Module TaggerFeedback.
Definition MICRO_FEEDBACK : gmap pystr pystr := dict_of [
  (agreement_plural,
     str "Match singular/plural forms (e.g., plural nouns usually need 'are', not 'is').");
  (articles_determiners,
     str "Check articles and determiners (a/an/the/your). Use them when needed and remove extra ones.");
  (verb_tense_form,
     str "Check verb tense and verb form (e.g., past vs present, infinitive vs -ing).");
  (prepositions,
     str "Check the preposition choice (e.g., 'in July' not 'on July').");
  (spelling, str "Fix spelling mistakes.");
  (word_choice_form,
     str "Use the correct word or word form for the meaning (e.g., excited vs exciting).");
  (missing_word,
     str "A word is missing" ++ [em_dash] ++
     str "add the word needed for a complete/grammatical phrase.");
  (unnecessary_word,
     str "Remove extra words that aren" ++ [right_quote] ++ str "t needed.");
  (punctuation, str "Fix punctuation (commas, full stops, capitalization).");
  (word_order, str "Adjust word order to match natural English structure.");
  (other, str "Review this part for grammar/usage.")
].

Definition micro_feedback_for (error_type : pystr) : pystr :=
  dict_get MICRO_FEEDBACK error_type
           (dict_get MICRO_FEEDBACK other []).
End TaggerFeedback.

(** [train_fce_error_tagger.py]: the detector takes [max_items] and an
    optional classifier.  Its [_normalize_pair_for_clf] has the text of the
    server's. *)
Module TaggerChanges.
Section TaggerChanges.
Variable ucd : UnicodeDB.

Definition predict_error_type_for_change (clf : option Classifier)
    (c : change) : pystr :=
  match clf with
  | None =>
    if bool_decide (ch_type c = added) then missing_word
    else if bool_decide (ch_type c = deleted) then unnecessary_word
    else other
  | Some clf =>
    let frm := ch_from c in
    let to := ch_to c in
    let x :=
      if bool_decide (ch_type c = added)
      then _normalize_pair_for_clf ucd (Some []) to
      else if bool_decide (ch_type c = deleted)
      then _normalize_pair_for_clf ucd frm (Some [])
      else _normalize_pair_for_clf ucd frm to in
    match labels ← predict clf [x]; getitem labels 0 with
    | Some label => label
    | None => other
    end
  end.

Definition edit_of (clf : option Classifier) (c : change) : edit :=
  let et := predict_error_type_for_change clf c in
  Edit c et (TaggerFeedback.micro_feedback_for et).

Fixpoint changes_loop (max_items : Z) (clf : option Classifier)
    (o_tokens c_tokens : list pystr) (ops : list Opcode)
    (changes : list edit) : list edit :=
  match ops with
  | [] => changes
  | op :: ops' =>
    if bool_decide (op_tag op = tag_equal)
    then changes_loop max_items clf o_tokens c_tokens ops' changes
    else
      let changes :=
        changes ++ [edit_of clf (Pipeline.change_of o_tokens c_tokens op)] in
      if max_items <=? Z.of_nat (length changes) then changes
      else changes_loop max_items clf o_tokens c_tokens ops' changes
  end.

Definition identify_changes (original corrected : pystr) (max_items : Z)
    (clf : option Classifier) : option (list edit) :=
  let o_tokens := Tagger._wp_tokenize ucd original in
  let c_tokens := Tagger._wp_tokenize ucd corrected in
  let sm := new_matcher o_tokens c_tokens in
  ops ← get_opcodes sm;
  Some (changes_loop max_items clf o_tokens c_tokens ops []).
End TaggerChanges.
End TaggerChanges.

(** [train_fce_grammar_corrector.py]: the changes carry no category. *)
Module CorrectorChanges.
Section CorrectorChanges.
Variable ucd : UnicodeDB.

Fixpoint changes_loop (max_items : Z) (o_tokens c_tokens : list pystr)
    (ops : list Opcode) (changes : list change) : list change :=
  match ops with
  | [] => changes
  | op :: ops' =>
    if bool_decide (op_tag op = tag_equal)
    then changes_loop max_items o_tokens c_tokens ops' changes
    else
      let changes := changes ++ [Pipeline.change_of o_tokens c_tokens op] in
      if max_items <=? Z.of_nat (length changes) then changes
      else changes_loop max_items o_tokens c_tokens ops' changes
  end.

Definition identify_changes (original corrected : pystr) (max_items : Z)
    : option (list change) :=
  let o_tokens := Corrector._wp_tokenize ucd original in
  let c_tokens := Corrector._wp_tokenize ucd corrected in
  let sm := new_matcher o_tokens c_tokens in
  ops ← get_opcodes sm;
  Some (changes_loop max_items o_tokens c_tokens ops []).
End CorrectorChanges.
End CorrectorChanges.

(** [test_fce_grammar_corrector.py], class [FCEErrorCorrector]. *)
Record TesterResult := {
  t_original : pystr;
  t_corrected : pystr;
  t_prompt : pystr;
  t_changes : list change;
  t_has_errors : bool;
  t_num_errors : Z;
  t_score : Z
}.



Module TesterCorrector.
Section TesterCorrector.
Variable ucd : UnicodeDB.
(** Encoding, generation and decoding by the trained model: from the input
    text, [num_beams] and [max_length] to the decoded text, or an
    exception. *)
Variable generate : pystr → Z → Z → option pystr.

Fixpoint changes_loop (o_tokens c_tokens : list pystr)
    (ops : list Opcode) (changes : list change) : list change :=
  match ops with
  | [] => changes
  | op :: ops' =>
    if bool_decide (op_tag op = tag_equal)
    then changes_loop o_tokens c_tokens ops' changes
    else
      let changes := changes ++ [Pipeline.change_of o_tokens c_tokens op] in
      if 50 <=? Z.of_nat (length changes) then changes
      else changes_loop o_tokens c_tokens ops' changes
  end.

Definition _identify_changes (original corrected : pystr)
    : option (list change) :=
  let o_tokens := Tester._wp_tokenize ucd original in
  let c_tokens := Tester._wp_tokenize ucd corrected in
  let sm := new_matcher o_tokens c_tokens in
  ops ← get_opcodes sm;
  Some (changes_loop o_tokens c_tokens ops []).

Definition correct_text (student_input prompt : pystr)
    (num_beams max_length : Z) : option TesterResult :=
  let input_text :=
    if truthy prompt
    then str "correct grammar with context. Question: " ++ prompt
         ++ str " Answer: " ++ student_input
    else str "correct grammar: " ++ student_input in
  corrected_text ← generate input_text num_beams max_length;
  changes ← _identify_changes student_input corrected_text;
  let num_errors := Z.of_nat (length changes) in
  let score := Z.max 0 (10 - num_errors) in
  Some {| t_original := student_input;
          t_corrected := corrected_text;
          t_prompt := prompt;
          t_changes := changes;
          t_has_errors := 0 <? Z.of_nat (length changes);
          t_num_errors := num_errors;
          t_score := score |}.


(** [prompts] is [None] by default; [zip] stops at the shorter list. *)
Definition batch_correct (texts : list pystr) (prompts : option (list pystr))
    : option (list TesterResult) :=
  let prompts :=
    match prompts with
    | None => replicate (length texts) []
    | Some prompts => prompts
    end in
  mapM (λ tp : pystr * pystr, correct_text tp.1 tp.2 4 256) (zip texts prompts).
End TesterCorrector.
End TesterCorrector.

(** The changes of [ops] that are not [equal], as the detectors build
    them. *)
Definition changes_of (o_tokens c_tokens : list pystr) (ops : list Opcode)
    : list change :=
  Pipeline.change_of o_tokens c_tokens <$> filter non_equal ops.

(** The number of changes a detector called with [max_items] can return:
    the test on the bound comes after the first change is appended. *)
Definition cap (max_items : Z) : nat := Z.to_nat (Z.max 1 max_items).

(** The labels the server's fallback can give to a change of each type. *)
Definition fallback_labels (t : change_type) : list pystr :=
  match t with
  | replaced => [agreement_plural; other]
  | deleted => [unnecessary_word]
  | added => [articles_determiners; missing_word]
  end.

(** A text of whitespace only, the empty text included. *)
Definition blank (ucd : UnicodeDB) (s : pystr) : Prop :=
  Forall (λ c, is_space ucd c = true) s.

(** The text [correct_text] gives to the correction model. *)
Definition model_input (student_input : pystr) : pystr :=
  INSTRUCTION_PREFIX ++ str " " ++ student_input.

(** ** The input composers of the training scripts *)

(** The tokenizer of the correction model, as the scripts call it:
    [encode(text, add_special_tokens=False)] and
    [decode(ids, skip_special_tokens=True)]. *)
Record Tokenizer := {
  encode : pystr → list Z;
  decode : list Z → pystr
}.

(** [l[lo:]] *)
Definition slice_from {A} (l : list A) (lo : Z) : list A :=
  slice l lo (Z.of_nat (length l)).

(** [l[:hi]] *)
Definition slice_to {A} (l : list A) (hi : Z) : list A := slice l 0 hi.

Definition PROMPT_MAX_TOKENS : Z := 96.
Definition MAX_ENCODER_LEN : Z := 512.

(** The two training scripts have the same composers, and the instruction
    prefix of the server. *)
Module Composer.
Section Composer.
Variable tokenizer : Tokenizer.

Definition tokenize (text : pystr) : list Z := encode tokenizer text.

Definition decode_ids (ids : list Z) : pystr := decode tokenizer ids.

Definition trim_to_tokens (text : pystr) (max_tokens : Z) : pystr :=
  let ids := tokenize text in
  if Z.of_nat (length ids) <=? max_tokens then text
  else
    let trimmed := slice_from ids (- max_tokens) in
    decode_ids trimmed.

Definition build_input_text (prompt student_text : pystr) : pystr :=
  if truthy prompt
  then INSTRUCTION_PREFIX ++ str " " ++ str " Question: " ++ prompt ++ str " "
       ++ str " Answer: " ++ student_text
  else INSTRUCTION_PREFIX ++ str " " ++ student_text.

(** [FCEDataset._compose_and_trim], with the two fields of the dataset it
    reads. *)
Definition _compose_and_trim (max_encoder_len prompt_max_tokens : Z)
    (prompt original_text : pystr) : pystr :=
  let prefix := INSTRUCTION_PREFIX in
  let base :=
    if truthy prompt
    then
      let prompt_capped := trim_to_tokens prompt prompt_max_tokens in
      prefix ++ str " Question: " ++ prompt_capped ++ str " Answer: "
    else prefix ++ str " " in
  let base_ids := tokenize base in
  let ans_ids := tokenize original_text in
  if Z.of_nat (length base_ids) + Z.of_nat (length ans_ids) <=? max_encoder_len
  then base ++ original_text
  else
    let base_no_prompt := prefix ++ str " " in
    let base_no_prompt_ids := tokenize base_no_prompt in
    if Z.of_nat (length base_no_prompt_ids) + Z.of_nat (length ans_ids)
       <=? max_encoder_len
    then base_no_prompt ++ original_text
    else
      let remaining :=
        Z.max (max_encoder_len - Z.of_nat (length base_no_prompt_ids)) 0 in
      let kept_ans := decode_ids (slice_from ans_ids (- remaining)) in
      base_no_prompt ++ kept_ans.

(** [compose_for_test], local to [test_model]. *)
Definition compose_for_test (prompt student_text : pystr) : pystr :=
  let prefix := INSTRUCTION_PREFIX in
  let base :=
    if truthy prompt
    then
      let prompt_ids := encode tokenizer prompt in
      let prompt :=
        if PROMPT_MAX_TOKENS <? Z.of_nat (length prompt_ids)
        then decode tokenizer (slice_to prompt_ids PROMPT_MAX_TOKENS)
        else prompt in
      prefix ++ str " Question: " ++ prompt ++ str " Answer: "
    else prefix ++ str " " in
  let base_ids := encode tokenizer base in
  let ans_ids := encode tokenizer student_text in
  if Z.of_nat (length base_ids) + Z.of_nat (length ans_ids) <=? MAX_ENCODER_LEN
  then base ++ student_text
  else
    let base_no_prompt := prefix ++ str " " in
    let base_no_prompt_ids := encode tokenizer base_no_prompt in
    if Z.of_nat (length base_no_prompt_ids) + Z.of_nat (length ans_ids)
       <=? MAX_ENCODER_LEN
    then base_no_prompt ++ student_text
    else
      let remaining :=
        Z.max (MAX_ENCODER_LEN - Z.of_nat (length base_no_prompt_ids)) 0 in
      let kept_ans := decode tokenizer (slice_from ans_ids (- remaining)) in
      base_no_prompt ++ kept_ans.
End Composer.
End Composer.

(** A tokenizer with one token per character. *)
Definition char_tokenizer : Tokenizer :=
  {| encode := λ s, Z.of_N <$> s; decode := λ ids, Z.to_N <$> ids |}.

(** The number of tokens of a text. *)
Definition token_count (tokenizer : Tokenizer) (text : pystr) : Z :=
  Z.of_nat (length (encode tokenizer text)).

(** The number of tokens left for the answer beside the bare prefix. *)
Definition answer_budget (tokenizer : Tokenizer) (max_encoder_len : Z) : Z :=
  max_encoder_len - token_count tokenizer (INSTRUCTION_PREFIX ++ str " ").

(** The tokens of an answer that does not fit which the composer keeps: the
    last ones that the budget allows, and all of them when no budget is
    left. *)
Definition kept_answer_ids (tokenizer : Tokenizer) (max_encoder_len : Z)
    (answer : pystr) : list Z :=
  let ids := encode tokenizer answer in
  let budget := answer_budget tokenizer max_encoder_len in
  if 0 <? budget then drop (length ids - Z.to_nat budget) ids else ids.

(** The result with another prompt. *)
Definition with_prompt (prompt : pystr) (r : CorrectionResult) : CorrectionResult :=
  {| r_original := r_original r; r_corrected := r_corrected r;
     r_prompt := prompt; r_num_errors := r_num_errors r;
     r_score := r_score r; r_changes := r_changes r;
     r_has_errors := r_has_errors r |}.

(** No two neighbours in [ops] are both different from [equal]. *)
Fixpoint separated (ops : list Opcode) : Prop :=
  match ops with
  | op1 :: ops' =>
    match ops' with
    | op2 :: _ => op_tag op1 = tag_equal ∨ op_tag op2 = tag_equal
    | [] => True
    end ∧ separated ops'
  | [] => True
  end.

Definition is_equal (op : Opcode) : Prop := op_tag op = tag_equal.

Global Instance is_equal_dec op : Decision (is_equal op).
Proof. unfold is_equal. apply _. Defined.

(** ** The corpus parser of the training scripts *)

(** An [xml.etree.ElementTree.Element]: tag, attributes, the text before
    the first child, the text after the closing tag, and the children. *)
#[warnings="-register-all"]
Inductive Element :=
  Elem (el_tag : pystr) (el_attrib : gmap pystr pystr)
       (el_text el_tail : option pystr) (el_children : list Element).

Definition el_tag (e : Element) : pystr :=
  match e with Elem tag _ _ _ _ => tag end.
Definition el_attrib (e : Element) : gmap pystr pystr :=
  match e with Elem _ attrib _ _ _ => attrib end.
Definition el_text (e : Element) : option pystr :=
  match e with Elem _ _ text _ _ => text end.
Definition el_tail (e : Element) : option pystr :=
  match e with Elem _ _ _ tail _ => tail end.
Definition el_children (e : Element) : list Element :=
  match e with Elem _ _ _ _ children => children end.

(** Induction on an element with the property known of its children. *)
Fixpoint Element_children_ind (P : Element → Prop)
    (step : ∀ tag attrib text tail children,
        Forall P children → P (Elem tag attrib text tail children))
    (e : Element) : P e :=
  match e with
  | Elem tag attrib text tail children =>
    step tag attrib text tail children
      ((fix go (cs : list Element) : Forall P cs :=
          match cs with
          | [] => @List.Forall_nil _ P
          | c :: cs' =>
            @List.Forall_cons _ P c cs' (Element_children_ind P step c) (go cs')
          end) children)
  end.

(** [elem.find(tag)]: the first child with that tag. *)
Definition find (elem : Element) (t : pystr) : option Element :=
  head (filter (λ child, el_tag child = t) (el_children elem)).

(** What [if x: parts.append(x)] appends. *)
Definition appended (x : option pystr) : list pystr :=
  match x with
  | Some s => if truthy s then [s] else []
  | None => []
  end.

(** The dict that [parse_coded_answer] appends to [corrections]. *)
Record annotation := {
  a_error_type : pystr;
  a_incorrect : pystr;
  a_correct : pystr;
  a_error_name : pystr
}.

(** The two training scripts have the same parser. *)
Module FCEDataParser.
Definition ERROR_TYPES : gmap pystr pystr := dict_of [
  (str "RP", str "Punctuation");
  (str "DD", str "Determiner/Possessive");
  (str "RJ", str "Adjective form");
  (str "MD", str "Missing Determiner");
  (str "TV", str "Verb tense");
  (str "RT", str "Wrong preposition");
  (str "S", str "Spelling");
  (str "MT", str "Missing word");
  (str "RV", str "Wrong verb");
  (str "MP", str "Missing punctuation");
  (str "AGN", str "Agreement (noun)");
  (str "RN", str "Wrong noun");
  (str "FN", str "Noun form");
  (str "FV", str "Verb form");
  (str "UQ", str "Unnecessary quantifier");
  (str "UA", str "Unnecessary article");
  (str "UT", str "Unnecessary word");
  (str "MC", str "Missing conjunction");
  (str "MA", str "Missing article");
  (str "DN", str "Derivation (noun)");
  (str "UV", str "Unnecessary verb");
  (str "AGA", str "Agreement (article)");
  (str "AGV", str "Agreement (verb)");
  (str "UP", str "Unnecessary punctuation");
  (str "R", str "Replacement/word choice");
  (str "RD", str "Reference/Determiner");
  (str "W", str "Word order");
  (str "ID", str "Idiomatic usage");
  (str "UY", str "Unclear/Style");
  (str "RA", str "Reference/Pronoun")
].

Fixpoint get_all_text (elem : Element) : pystr :=
  match elem with
  | Elem _ _ text _ children =>
    concat (appended text ++
            (children ≫= λ child,
               [get_all_text child] ++ appended (el_tail child)))
  end.

(** The text of the first child with tag [t], or the empty string the
    variable was initialised with. *)
Definition text_of_child (elem : Element) (t : pystr) : pystr :=
  match find elem t with
  | Some e => get_all_text e
  | None => []
  end.

(** The [if child.tag == 'NS'] branch of [parse_coded_answer]: the parts
    appended to [text_parts] and the dicts appended to [corrections]. *)
Definition annotated (child : Element) : list pystr * list annotation :=
  let error_type := dict_get (el_attrib child) (str "type") (str "UNKNOWN") in
  let incorrect := text_of_child child (str "i") in
  let correct := text_of_child child (str "c") in
  let corrections :=
    if truthy incorrect || truthy correct
    then [{| a_error_type := error_type;
             a_incorrect := incorrect;
             a_correct := correct;
             a_error_name := dict_get ERROR_TYPES error_type (str "Unknown") |}]
    else [] in
  let parts :=
    if truthy correct then [correct]
    else if truthy incorrect then [incorrect]
    else [] in
  (parts ++ appended (el_tail child), corrections).

(** [process_element] of [parse_coded_answer]: the text it returns, and
    what it appends to [corrections] on the way. *)
Fixpoint process_element (elem : Element) : pystr * list annotation :=
  match elem with
  | Elem _ _ text _ children =>
    let results :=
      (λ child,
         if bool_decide (el_tag child = str "NS") then annotated child
         else
           let child_text := process_element child in
           ([child_text.1] ++ appended (el_tail child), child_text.2))
        <$> children in
    (concat (appended text ++ (results ≫= fst)), results ≫= snd)
  end.

(** [process_element] of [build_original_text]: what it appends to
    [text_parts]. *)
Fixpoint original_parts (elem : Element) : list pystr :=
  match elem with
  | Elem _ _ text _ children =>
    appended text ++
    (children ≫= λ child,
       if bool_decide (el_tag child = str "NS")
       then
         match find child (str "i") with
         | Some i_elem => [get_all_text i_elem]
         | None => []
         end ++ appended (el_tail child)
       else original_parts child ++ appended (el_tail child))
  end.

Definition build_original_text (coded_answer_elem : Element) : pystr :=
  concat (original_parts coded_answer_elem).

Definition parse_coded_answer (coded_answer_elem : Element)
    : pystr * pystr * list annotation :=
  let original_text := build_original_text coded_answer_elem in
  let '(corrected_text, corrections) := process_element coded_answer_elem in
  (original_text, corrected_text, corrections).
End FCEDataParser.

(** The coded answer [<p>I <NS type="UT"><i>very</i></NS> like it</p>]:
    an annotation that marks a word as unnecessary and has no correction. *)
Definition coded_answer_example : Element :=
  Elem (str "p") ∅ (Some (str "I ")) None
    [Elem (str "NS") {[ str "type" := str "UT" ]} None (Some (str " like it"))
       [Elem (str "i") ∅ (Some (str "very")) None []]].

(** The one opcode between two sequences without a common element. *)
Definition whole_op {A} (a b : list A) : Opcode :=
  let la := Z.of_nat (length a) in
  let lb := Z.of_nat (length b) in
  Op (if la =? 0 then tag_insert else if lb =? 0 then tag_delete else tag_replace)
     0 la 0 lb.

(** [s in t] for two strings. *)
Definition occurs_in (s t : pystr) : Prop := ∃ before after, t = before ++ s ++ after.

(** The text that stands for an annotation in the corrected text. *)
Definition shown (a : annotation) : pystr :=
  if truthy (a_correct a) then a_correct a else a_incorrect a.

(** * Properties *)

(** ** The matcher and [findall] *)

Lemma iter_greedy_prefix (P : N → Prop) step :
  (∀ s s', s' ∈ step s → ∃ t, s = t ++ s' ∧ Forall P t) →
  ∀ fuel s s', s' ∈ iter_greedy step fuel s → ∃ t, s = t ++ s' ∧ Forall P t.
Proof.
  intros Hstep fuel. induction fuel as [|f IH]; intros s s' Hin; simpl in Hin;
    apply list_elem_of_bind in Hin as (s1 & Hin & Hs1);
    apply Hstep in Hs1 as (t1 & -> & Ht1).
  - apply list_elem_of_singleton in Hin as ->. eauto.
  - apply elem_of_app in Hin as [Hin | Hin].
    + destruct (_ <? _)%nat; [|by apply elem_of_nil in Hin].
      apply IH in Hin as (t2 & -> & Ht2).
      exists (t1 ++ t2). split; [by rewrite app_assoc|by apply Forall_app].
    + apply list_elem_of_singleton in Hin as ->. eauto.
Qed.

Lemma ends_prefix (P : N → Prop) r :
  classes_in P r →
  ∀ s s', s' ∈ ends r s → ∃ t, s = t ++ s' ∧ Forall P t.
Proof.
  induction r as [p | r1 IH1 r2 IH2 | r1 IH1 r2 IH2 | r IH | r IH];
    simpl; intros Hc s s' Hin.
  - destruct s as [|c s]; [by apply elem_of_nil in Hin|].
    destruct (p c) eqn:Hp; [|by apply elem_of_nil in Hin].
    apply list_elem_of_singleton in Hin as ->.
    exists [c]. split; [done|]. repeat constructor. by apply Hc.
  - destruct Hc as [Hc1 Hc2].
    apply list_elem_of_bind in Hin as (s1 & Hin & Hs1).
    apply (IH1 Hc1) in Hs1 as (t1 & -> & Ht1).
    apply (IH2 Hc2) in Hin as (t2 & -> & Ht2).
    exists (t1 ++ t2). split; [by rewrite app_assoc|by apply Forall_app].
  - destruct Hc as [Hc1 Hc2].
    apply elem_of_app in Hin as [Hin | Hin]; eauto.
  - apply elem_of_app in Hin as [Hin | Hin]; [eauto|].
    apply list_elem_of_singleton in Hin as ->. by exists [].
  - eapply iter_greedy_prefix; [|done]. by apply IH.
Qed.

Lemma iter_greedy_shorter step :
  (∀ s s', s' ∈ step s → (length s' < length s)%nat) →
  ∀ fuel s s', s' ∈ iter_greedy step fuel s → (length s' < length s)%nat.
Proof.
  intros Hstep fuel. induction fuel as [|f IH]; intros s s' Hin; simpl in Hin;
    apply list_elem_of_bind in Hin as (s1 & Hin & Hs1);
    apply Hstep in Hs1.
  - by apply list_elem_of_singleton in Hin as ->.
  - apply elem_of_app in Hin as [Hin | Hin].
    + destruct (_ <? _)%nat; [|by apply elem_of_nil in Hin].
      apply IH in Hin. lia.
    + by apply list_elem_of_singleton in Hin as ->.
Qed.

Lemma ends_length r s s' : s' ∈ ends r s → (length s' ≤ length s)%nat.
Proof.
  intros Hin. apply (ends_prefix (λ _, True)) in Hin as (t & -> & _).
  - rewrite length_app. lia.
  - clear. induction r; simpl; auto.
Qed.

Lemma ends_shorter r :
  consuming r → ∀ s s', s' ∈ ends r s → (length s' < length s)%nat.
Proof.
  induction r as [p | r1 IH1 r2 IH2 | r1 IH1 r2 IH2 | r IH | r IH];
    simpl; intros Hc s s' Hin.
  - destruct s as [|c s]; [by apply elem_of_nil in Hin|].
    destruct (p c); [|by apply elem_of_nil in Hin].
    apply list_elem_of_singleton in Hin as ->. simpl. lia.
  - apply list_elem_of_bind in Hin as (s1 & Hin & Hs1).
    pose proof (ends_length _ _ _ Hs1). pose proof (ends_length _ _ _ Hin).
    destruct Hc as [Hc | Hc].
    + specialize (IH1 Hc _ _ Hs1). lia.
    + specialize (IH2 Hc _ _ Hin). lia.
  - destruct Hc as [Hc1 Hc2].
    apply elem_of_app in Hin as [Hin | Hin]; eauto.
  - done.
  - eapply iter_greedy_shorter; [|done]. by apply IH.
Qed.

Lemma match_at_elem r s rest : match_at r s = Some rest → rest ∈ ends r s.
Proof.
  unfold match_at. destruct (ends r s); [done|]. intros [= ->]. by left.
Qed.

(** The scan needs no more steps than the string has characters: any
    larger fuel gives the same tokens. *)
Lemma findall_from_fuel r fuel1 fuel2 s :
  (length s < fuel1)%nat → (length s < fuel2)%nat →
  findall_from fuel1 r s = findall_from fuel2 r s.
Proof.
  revert fuel2 s. induction fuel1 as [|f1 IH]; intros [|f2] s H1 H2; [lia..|].
  simpl. destruct s as [|c s]; [done|]. simpl in H1, H2.
  destruct (match_at r (c :: s)) as [rest|] eqn:Hm.
  - apply match_at_elem, ends_length in Hm. simpl in Hm.
    destruct (_ =? _)%nat eqn:Hn.
    + f_equal. apply IH; lia.
    + apply Nat.eqb_neq in Hn. f_equal. apply IH; simpl in Hn; lia.
  - apply IH; lia.
Qed.

(** Tokens of a pattern that cannot match the empty string are not empty
    and are made of characters the pattern's classes accept. *)
Lemma findall_from_tokens (P : N → Prop) r :
  classes_in P r → consuming r →
  ∀ fuel s, Forall (λ t, t ≠ [] ∧ Forall P t) (findall_from fuel r s).
Proof.
  intros Hcl Hco fuel. induction fuel as [|f IH]; intros s; simpl; [done|].
  destruct s as [|c s].
  - destruct (match_at r []) as [rest|] eqn:Hm; [|done].
    apply match_at_elem, (ends_shorter _ Hco) in Hm. simpl in Hm. lia.
  - destruct (match_at r (c :: s)) as [rest|] eqn:Hm; [|done].
    apply match_at_elem in Hm.
    pose proof (ends_shorter _ Hco _ _ Hm) as Hlt.
    apply (ends_prefix P _ Hcl) in Hm as (t & Ht & HP).
    rewrite Ht. rewrite Ht in Hlt. rewrite length_app in *.
    replace (length t + length rest - length rest)%nat with (length t) by lia.
    destruct (_ =? _)%nat eqn:Hn; [apply Nat.eqb_eq in Hn; lia|].
    rewrite take_app_length. constructor; [|done].
    split; [|done]. intros ->. simpl in Hlt. lia.
Qed.

(** ** [str.replace] and [str.join] *)

Lemma replace_from_fuel old new :
  old ≠ [] →
  ∀ fuel1 fuel2 s, (length s ≤ fuel1)%nat → (length s ≤ fuel2)%nat →
  replace_from fuel1 old new s = replace_from fuel2 old new s.
Proof.
  intros Hold fuel1.
  induction fuel1 as [|f1 IH]; intros [|f2] [|c s] H1 H2;
    simpl in *; try done; try lia.
  case_bool_decide; f_equal.
  - destruct old as [|o old]; [done|].
    apply IH; simpl; rewrite length_drop; lia.
  - apply IH; lia.
Qed.

Lemma replace_nil old new : replace old new [] = [].
Proof. done. Qed.

Lemma replace_cons old new c s :
  old ≠ [] →
  replace old new (c :: s) =
    if bool_decide (old `prefix_of` c :: s)
    then new ++ replace old new (drop (length old) (c :: s))
    else c :: replace old new s.
Proof.
  intros Hold. unfold replace. simpl. case_bool_decide; [|done]. f_equal.
  destruct old as [|o old]; [done|].
  apply replace_from_fuel; [done|simpl; rewrite ?length_drop; lia..].
Qed.

Lemma prefix_pair (a b : N) s :
  [a; b] `prefix_of` s ↔ ∃ rest, s = a :: b :: rest.
Proof.
  split.
  - intros [rest ->]. by exists rest.
  - intros [rest ->]. by exists rest.
Qed.

(** Replacing the pair [a b] by [b]: what happens at the front. *)
Lemma replace_pair_hit (a b : N) rest :
  replace [a; b] [b] (a :: b :: rest) = b :: replace [a; b] [b] rest.
Proof.
  rewrite replace_cons by done.
  rewrite bool_decide_eq_true_2; [done|]. apply prefix_pair. eauto.
Qed.

Lemma replace_pair_miss (a b c : N) s :
  (¬ ∃ rest, c :: s = a :: b :: rest) →
  replace [a; b] [b] (c :: s) = c :: replace [a; b] [b] s.
Proof.
  intros Hno. rewrite replace_cons by done.
  rewrite bool_decide_eq_false_2; [done|]. by rewrite prefix_pair.
Qed.

Lemma replace_pair_cases (a b : N) s :
  (∃ rest, s = a :: b :: rest) ∨ (¬ ∃ rest, s = a :: b :: rest).
Proof.
  destruct s as [|c [|d rest]]; [right; by intros [? ?]..|].
  destruct (decide (c = a)) as [->|]; [|right; intros [? ?]; congruence].
  destruct (decide (d = b)) as [->|]; [|right; intros [? ?]; congruence].
  left. eauto.
Qed.

Lemma replace_pair_head (a b : N) s :
  head (replace [a; b] [b] s) = head s ∨
  (head (replace [a; b] [b] s) = Some b ∧ ∃ rest, s = a :: b :: rest).
Proof.
  destruct s as [|c s]; [by left|].
  destruct (replace_pair_cases a b (c :: s)) as [[rest Heq] | Hno].
  - right. rewrite Heq, replace_pair_hit. eauto.
  - left. by rewrite replace_pair_miss.
Qed.

Lemma adjacent_cons x y c s :
  adjacent x y (c :: s) ↔ (c = x ∧ head s = Some y) ∨ adjacent x y s.
Proof.
  destruct s as [|d s]; simpl; [intuition congruence|].
  split; intros [[-> Hd] | Hadj]; auto; left; split; congruence.
Qed.

Lemma adjacent_skip x y t rest :
  Forall (λ c, c ≠ x) t → adjacent x y (t ++ rest) ↔ adjacent x y rest.
Proof.
  induction 1 as [|c t Hc _ IH]; [done|].
  rewrite <- app_comm_cons, adjacent_cons, IH. intuition congruence.
Qed.

(** An induction principle that follows the two cases of the scan. *)
Lemma replace_pair_ind (a b : N) (P : pystr → Prop) :
  P [] →
  (∀ rest, P rest → P (a :: b :: rest)) →
  (∀ c s, (¬ ∃ rest, c :: s = a :: b :: rest) → P s → P (c :: s)) →
  ∀ s, P s.
Proof.
  intros Hnil Hhit Hmiss s.
  assert (∀ n s, (length s ≤ n)%nat → P s) as Hall; [|by eapply Hall].
  clear s. intros n. induction n as [|n IH]; intros [|c s] Hlen;
    simpl in Hlen; try done; try lia.
  destruct (replace_pair_cases a b (c :: s)) as [[rest Heq] | Hno].
  - rewrite Heq. apply Hhit, IH. injection Heq as -> ->. simpl in Hlen. lia.
  - apply Hmiss; [done|]. apply IH. lia.
Qed.

(** The pair that is replaced is gone, provided [a] is never doubled. *)
Lemma replace_pair_kills (a b : N) s :
  a ≠ b → ¬ adjacent a a s → ¬ adjacent a b (replace [a; b] [b] s).
Proof.
  intros Hab. induction s as [|rest IH|c s Hno IH] using (replace_pair_ind a b).
  - done.
  - intros Haa. rewrite replace_pair_hit, adjacent_cons.
    intros [[? _] | Hadj]; [done|]. revert Hadj. apply IH.
    intros Hadj. apply Haa. rewrite !adjacent_cons. auto.
  - intros Haa. rewrite replace_pair_miss by done. rewrite adjacent_cons.
    intros [[-> Hhd] | Hadj].
    + destruct (replace_pair_head a b s) as [Heq | [_ [rest ->]]].
      * rewrite Hhd in Heq. destruct s as [|d s]; [done|]. simpl in Heq.
        injection Heq as <-. apply Hno. eauto.
      * apply Haa. rewrite adjacent_cons. auto.
    + revert Hadj. apply IH. intros Hadj. apply Haa.
      rewrite adjacent_cons. auto.
Qed.

(** A pair that does not involve [b] is not created. *)
Lemma replace_pair_keeps (a b x y : N) s :
  x ≠ b → y ≠ b → ¬ adjacent x y s → ¬ adjacent x y (replace [a; b] [b] s).
Proof.
  intros Hx Hy. induction s as [|rest IH|c s Hno IH] using (replace_pair_ind a b).
  - done.
  - intros Hxy. rewrite replace_pair_hit, adjacent_cons.
    intros [[? _] | Hadj]; [done|]. revert Hadj. apply IH.
    intros Hadj. apply Hxy. rewrite !adjacent_cons. auto.
  - intros Hxy. rewrite replace_pair_miss by done. rewrite adjacent_cons.
    intros [[-> Hhd] | Hadj].
    + destruct (replace_pair_head a b s) as [Heq | [Heq _]].
      * apply Hxy. rewrite adjacent_cons. left. by rewrite <- Heq.
      * congruence.
    + revert Hadj. apply IH. intros Hadj. apply Hxy.
      rewrite adjacent_cons. auto.
Qed.

(** Tokens without spaces, joined by single spaces: no space is doubled. *)
Lemma join_no_double_space (tokens : list pystr) :
  Forall (λ t, t ≠ [] ∧ Forall (λ c, c ≠ space) t) tokens →
  ¬ adjacent space space (join (str " ") tokens) ∧
  head (join (str " ") tokens) ≠ Some space.
Proof.
  induction 1 as [|t tokens [Hne Ht] Htoks [IH1 IH2]].
  { simpl. split; [tauto|done]. }
  destruct tokens as [|t' tokens].
  - simpl. split.
    + rewrite <- (app_nil_r t), adjacent_skip; done.
    + destruct Ht; [done|]. simpl. congruence.
  - change (join (str " ") (t :: t' :: tokens))
      with (t ++ space :: join (str " ") (t' :: tokens)).
    split.
    + rewrite adjacent_skip, adjacent_cons by done. intuition congruence.
    + destruct Ht; [done|]. simpl. congruence.
Qed.

Lemma segment_clean (tokens : list pystr) :
  Forall (λ t, t ≠ [] ∧ Forall (λ c, c ≠ space) t) tokens →
  clean (Pipeline.segment tokens).
Proof.
  intros Htoks. apply join_no_double_space in Htoks as [Hss _].
  unfold Pipeline.segment.
  change (str " .") with [space; period]. change (str ".") with [period].
  change (str " ,") with [space; comma]. change (str ",") with [comma].
  split.
  - apply replace_pair_keeps; [done..|]. by apply replace_pair_kills.
  - apply replace_pair_kills; [done|]. by apply replace_pair_keeps.
Qed.

Lemma slice_Forall {A} (P : A → Prop) (l : list A) lo hi :
  Forall P l → Forall P (slice l lo hi).
Proof. intros Hl. unfold slice. by apply Forall_take, Forall_drop. Qed.

(** Server tokens are not empty and contain no space. *)
Lemma server_tokens_no_space ucd text :
  Forall (λ t, t ≠ [] ∧ Forall (λ c, c ≠ space) t) (Server._wp_tokenize ucd text).
Proof.
  apply findall_from_tokens.
  - simpl. repeat split; intros c Hc Heq; subst c; try done.
  - simpl. auto.
Qed.

(** ** [find_longest_match] stays inside its window *)

Lemma getitem_Some {A} (l : list A) (i : Z) :
  0 ≤ i < Z.of_nat (length l) → ∃ x, getitem l i = Some x.
Proof.
  intros Hi. unfold getitem.
  rewrite (proj2 (Z.leb_le 0 i)) by lia.
  apply lookup_lt_is_Some_2. lia.
Qed.

Lemma bind_Some_eq {A B} (x : A) (f : A → option B) : Some x ≫= f = f x.
Proof. done. Qed.

Section FindLongestMatchBounds.
Context `{Countable A}.
Variable sm : SequenceMatcher (A := A).
Variables alo ahi blo bhi : Z.
Hypothesis Halo : 0 ≤ alo.
Hypothesis Hblo : 0 ≤ blo.
Hypothesis Hahi : ahi ≤ Z.of_nat (length (sm_a sm)).
Hypothesis Hbhi : bhi ≤ Z.of_nat (length (sm_b sm)).

Lemma scan_row_ok js i j2len :
  alo ≤ i < ahi → row_ok alo blo bhi (i - 1) j2len →
  ∀ newj2len best,
    row_ok alo blo bhi i newj2len → match_in alo ahi blo bhi best →
    row_ok alo blo bhi i (scan_row js i blo bhi j2len newj2len best).1 ∧
    match_in alo ahi blo bhi (scan_row js i blo bhi j2len newj2len best).2.
Proof.
  intros Hi Hprev. induction js as [|j js IH]; intros new best Hnew Hbest;
    simpl; [done|].
  destruct (Z.ltb_spec j blo); [by apply IH|].
  destruct (Z.leb_spec bhi j); [done|].
  set (k := default 0 (j2len !! (j - 1)) + 1).
  assert (1 ≤ k ∧ k ≤ j - blo + 1 ∧ k ≤ i - alo + 1) as Hk.
  { unfold k. destruct (j2len !! (j - 1)) as [k'|] eqn:Hj; simpl; [|lia].
    apply Hprev in Hj. lia. }
  apply IH.
  - intros j' k' Hj'. destruct (decide (j = j')) as [<-|Hne].
    + rewrite lookup_insert_eq in Hj'. injection Hj' as <-. lia.
    + rewrite lookup_insert_ne in Hj' by done. by apply Hnew.
  - destruct best as [[bi bj] bk]. simpl.
    destruct (Z.ltb_spec bk k); [|done]. unfold match_in. lia.
Qed.

Lemma scan_rows_ok n : ∀ i j2len best,
  alo ≤ i → i + Z.of_nat n ≤ ahi →
  row_ok alo blo bhi (i - 1) j2len → match_in alo ahi blo bhi best →
  ∃ best', scan_rows sm (seqZ i (Z.of_nat n)) blo bhi j2len best = Some best'
           ∧ match_in alo ahi blo bhi best'.
Proof.
  induction n as [|n IH]; intros i j2len best Hi Hn Hrow Hbest.
  { rewrite seqZ_nil by lia. simpl. eauto. }
  rewrite seqZ_cons by lia. simpl.
  destruct (getitem_Some (sm_a sm) i) as [x ->]; [lia|]. simpl.
  pose proof (scan_row_ok (default [] (sm_b2j sm !! x)) i j2len
                ltac:(lia) Hrow ∅ best) as Hstep.
  destruct scan_row as [new best1]. simpl in Hstep.
  destruct Hstep as [Hnew Hbest1]; [by intros ???; simplify_map_eq|done|].
  replace (Z.pred (Z.of_nat (S n))) with (Z.of_nat n) by lia.
  apply IH; [lia|lia| |done].
  by replace (Z.succ i - 1) with i by lia.
Qed.

Lemma extend_back_ok junk fuel : ∀ best,
  match_in alo ahi blo bhi best →
  (Z.to_nat (best.1.1 - alo) < fuel)%nat →
  ∃ best', extend_back sm fuel junk alo blo best = Some best'
           ∧ match_in alo ahi blo bhi best'.
Proof.
  induction fuel as [|f IH]; intros [[bi bj] bk] Hbest Hfuel; [lia|].
  simpl in *.
  destruct (Z.ltb_spec alo bi); simpl; [|eauto].
  destruct (Z.ltb_spec blo bj); simpl; [|eauto].
  destruct (getitem_Some (sm_b sm) (bj - 1)) as [y ->]; [lia|]. simpl.
  destruct (eqb _ _); [|eauto].
  destruct (getitem_Some (sm_a sm) (bi - 1)) as [x ->]; [lia|]. simpl.
  case_bool_decide; [|eauto].
  apply IH; simpl; [lia|lia].
Qed.

Lemma extend_forth_ok junk fuel : ∀ best,
  match_in alo ahi blo bhi best →
  (Z.to_nat (ahi - (best.1.1 + best.2)) < fuel)%nat →
  ∃ best', extend_forth sm fuel junk ahi bhi best = Some best'
           ∧ match_in alo ahi blo bhi best'.
Proof.
  induction fuel as [|f IH]; intros [[bi bj] bk] Hbest Hfuel; [lia|].
  simpl in *.
  destruct (Z.ltb_spec (bi + bk) ahi); simpl; [|eauto].
  destruct (Z.ltb_spec (bj + bk) bhi); simpl; [|eauto].
  destruct (getitem_Some (sm_b sm) (bj + bk)) as [y ->]; [lia|]. simpl.
  destruct (eqb _ _); [|eauto].
  destruct (getitem_Some (sm_a sm) (bi + bk)) as [x ->]; [lia|]. simpl.
  case_bool_decide; [|eauto].
  apply IH; simpl; [lia|lia].
Qed.

(** The call returns, and the match it returns lies in the window. *)
Lemma find_longest_match_ok :
  alo ≤ ahi → blo ≤ bhi →
  ∃ m, find_longest_match sm alo ahi blo bhi = Some m
       ∧ match_in alo ahi blo bhi m.
Proof.
  intros Ha Hb. unfold find_longest_match.
  destruct (scan_rows_ok (Z.to_nat (ahi - alo)) alo ∅ (alo, blo, 0))
    as (m1 & Hm1 & Hin1); [lia|lia|by intros ???; simplify_map_eq|simpl; lia|].
  rewrite Z2Nat.id in Hm1 by lia. rewrite Hm1, bind_Some_eq.
  destruct (extend_back_ok false (back_fuel alo m1) m1)
    as (m2 & -> & Hin2); [done|unfold back_fuel; lia|].
  rewrite bind_Some_eq.
  destruct (extend_forth_ok false (forth_fuel ahi m2) m2)
    as (m3 & -> & Hin3); [done|unfold forth_fuel; lia|].
  rewrite bind_Some_eq.
  destruct (extend_back_ok true (back_fuel alo m3) m3)
    as (m4 & -> & Hin4); [done|unfold back_fuel; lia|].
  rewrite bind_Some_eq.
  destruct (extend_forth_ok true (forth_fuel ahi m4) m4)
    as (m5 & -> & Hin5); [done|unfold forth_fuel; lia|]. eauto.
Qed.
End FindLongestMatchBounds.

(** ** The matching blocks *)

Lemma pairwise_submseteq {A} (R : relation A) `{!Symmetric R} (l1 l2 : list A) :
  l1 ⊆+ l2 → pairwise R l2 → pairwise R l1.
Proof.
  induction 1 as [|x l1 l2 Hsub IH|x y l|x l1 l2 Hsub IH|l1 l2 l3 _ IH1 _ IH2];
    simpl; try tauto.
  - intros [Hx Hl2]. split; [|by apply IH].
    rewrite Forall_forall in *. intros y Hy. apply Hx.
    by eapply elem_of_submseteq.
  - rewrite !Forall_cons. intros [[Hxy Hx] [Hy Hl]]. by repeat split.
Qed.

Global Instance apart_symmetric : Symmetric apart.
Proof. intros [[[??]?]?] [[[??]?]?]. unfold apart. tauto. Qed.

Lemma apart_inside r1 r2 r : inside r1 r2 → apart r2 r → apart r1 r.
Proof.
  destruct r1 as [[[??]?]?], r2 as [[[??]?]?], r as [[[??]?]?].
  unfold inside, apart. lia.
Qed.

Lemma Forall_apart_inside r1 r2 (l : list region) :
  inside r1 r2 → Forall (apart r2) l → Forall (apart r1) l.
Proof.
  intros Hin Hl. eapply Forall_impl; [exact Hl|].
  intros r. by apply apart_inside.
Qed.

Global Instance match_le_total : Total match_le.
Proof. intros [[??]?] [[??]?]. unfold match_le. lia. Qed.

Global Instance match_le_transitive : Transitive match_le.
Proof. intros [[??]?] [[??]?] [[??]?]. unfold match_le. lia. Qed.

Lemma weight_cons (r : region) (q : list region) :
  weight (r :: q) = (S (2 * Z.to_nat (r.1.1.2 - r.1.1.1)) + weight q)%nat.
Proof. done. Qed.

Section MatchingBlocks.
Context `{Countable A}.
Variable sm : SequenceMatcher (A := A).
Local Abbreviation la := (Z.of_nat (length (sm_a sm))).
Local Abbreviation lb := (Z.of_nat (length (sm_b sm))).
Local Abbreviation good := (λ m : Match, match_in 0 la 0 lb m ∧ 0 < m.2).

Lemma blocks_loop_ok fuel : ∀ queue blocks,
  Forall (region_ok la lb) queue →
  Forall good blocks →
  pairwise apart (queue ++ (region_of <$> blocks)) →
  (weight queue < fuel)%nat →
  ∃ blocks', blocks_loop sm fuel queue blocks = Some blocks' ∧
    Forall good blocks' ∧ pairwise apart (region_of <$> blocks').
Proof.
  induction fuel as [|f IH]; intros queue blocks Hq Hb Hpw Hfuel; [lia|].
  destruct queue as [|[[[alo ahi] blo] bhi] q]; simpl; [eauto|].
  apply Forall_cons in Hq as [Hr Hq]. simpl in Hr.
  destruct (find_longest_match_ok sm alo ahi blo bhi)
    as ([[i j] k] & -> & Hm); [lia..|].
  rewrite bind_Some_eq. simpl in Hm, Hpw. destruct Hpw as [Hrest Hpw].
  rewrite weight_cons in Hfuel. cbn [fst snd] in Hfuel.
  destruct (Z.eqb_spec k 0) as [->|Hk].
  { apply IH; [done..|lia]. }
  assert (pairwise apart (region_of (i, j, k) :: (i + k, ahi, j + k, bhi)
            :: (alo, i, blo, j) :: q ++ (region_of <$> blocks))) as Hall.
  { simpl. repeat split; try done; repeat apply Forall_cons_2;
      try (unfold apart; lia);
      (eapply Forall_apart_inside; [|exact Hrest]); unfold inside; lia. }
  set (L := (alo, i, blo, j)) in *.
  set (Rr := (i + k, ahi, j + k, bhi)) in *.
  set (X := region_of (i, j, k)) in *.
  apply IH.
  - repeat case_match; repeat apply Forall_cons_2; try done;
      unfold L, Rr, region_ok; lia.
  - apply Forall_app. split; [done|]. apply Forall_singleton.
    simpl. unfold match_in. lia.
  - rewrite fmap_app. simpl. fold X.
    eapply pairwise_submseteq; [apply _| |exact Hall].
    repeat case_match; solve_submseteq.
  - repeat case_match; rewrite ?weight_cons; unfold L, Rr; cbn [fst snd]; lia.
Qed.

Lemma sorted_before (l : list Match) :
  StronglySorted match_le l → pairwise apart (region_of <$> l) →
  Forall (λ m, 0 < m.2) l → StronglySorted before l.
Proof.
  induction 1 as [|x l Hss IH Hx]; simpl; [constructor|].
  intros [Hap Hpw] Hpos.
  apply Forall_cons in Hpos as [Hxpos Hpos].
  constructor; [by apply IH|].
  rewrite Forall_fmap in Hap.
  rewrite Forall_forall in *. intros y Hy.
  specialize (Hx y Hy). specialize (Hap y Hy). specialize (Hpos y Hy).
  destruct x as [[??]?], y as [[??]?]. simpl in *.
  unfold match_le, before in *. lia.
Qed.

Lemma blocks_ok_sublist (l1 l2 : list Match) :
  l1 `sublist_of` l2 → blocks_ok la lb l2 → blocks_ok la lb l1.
Proof.
  intros Hsub [Hss Hin]. split.
  - clear Hin. induction Hsub as [|x l1 l2 Hsub IH|x l1 l2 Hsub IH].
    + done.
    + apply StronglySorted_cons in Hss as [Hx Hss].
      apply StronglySorted_cons. split; [|by apply IH].
      rewrite Forall_forall in *. intros y Hy. apply Hx.
      by eapply elem_of_sublist.
    + apply StronglySorted_cons in Hss as [_ Hss]. by apply IH.
  - rewrite Forall_forall in *. intros x Hx. apply Hin.
    by eapply elem_of_sublist.
Qed.

Lemma collapse_ok blocks : ∀ cur non_adjacent,
  blocks_ok la lb (non_adjacent ++ cur :: blocks) →
  blocks_ok la lb ((collapse blocks cur non_adjacent).2
                   ++ [(collapse blocks cur non_adjacent).1]).
Proof.
  induction blocks as [|[[i2 j2] k2] blocks IH];
    intros [[i1 j1] k1] na Hok; simpl; [done|].
  destruct (Z.eqb_spec (i1 + k1) i2) as [Hi|Hi]; simpl;
    [destruct (Z.eqb_spec (j1 + k1) j2) as [Hj|Hj]; simpl|].
  - apply IH. destruct Hok as [Hss Hin]. split.
    + apply StronglySorted_app in Hss as (Hcross & Hna & Hss).
      apply StronglySorted_cons in Hss as [Hcur Hss].
      apply StronglySorted_cons in Hss as [Hb2 Hss].
      apply StronglySorted_app. repeat split; [|done|].
      * intros x1 x2 Hx1 [->|Hx2]%elem_of_cons.
        -- specialize (Hcross x1 (i1, j1, k1) Hx1 ltac:(left)).
           destruct x1 as [[??]?]. unfold before in *. lia.
        -- apply Hcross; [done|]. by do 2 right.
      * apply StronglySorted_cons. split; [|done].
        eapply Forall_impl; [exact Hb2|]. intros [[??]?]. unfold before. lia.
    + rewrite Forall_app, !Forall_cons in *.
      destruct Hin as (? & ? & ? & ?). unfold match_in in *.
      repeat split; try done; lia.
  - apply IH. destruct (k1 =? 0).
    + eapply blocks_ok_sublist; [|exact Hok].
      apply sublist_app; [done|]. by apply sublist_cons.
    + by rewrite <- app_assoc.
  - apply IH. destruct (k1 =? 0).
    + eapply blocks_ok_sublist; [|exact Hok].
      apply sublist_app; [done|]. by apply sublist_cons.
    + by rewrite <- app_assoc.
Qed.

(** [get_matching_blocks] returns; its blocks are in order and end with
    the sentinel. *)
Lemma get_matching_blocks_ok :
  ∃ blocks, get_matching_blocks sm = Some (blocks ++ [(la, lb, 0)]) ∧
    blocks_ok la lb (blocks ++ [(la, lb, 0)]).
Proof.
  unfold get_matching_blocks.
  destruct (blocks_loop_ok (S (S (2 * length (sm_a sm)))) [(0, la, 0, lb)] [])
    as (bs & -> & Hgood & Hpw).
  { apply Forall_singleton. unfold region_ok. lia. }
  { done. }
  { simpl. auto. }
  { unfold weight. simpl. lia. }
  rewrite bind_Some_eq.
  assert (blocks_ok la lb ((0, 0, 0) :: merge_sort match_le bs)) as Hok.
  { assert (Forall good (merge_sort match_le bs)) as Hgood'.
    { by rewrite merge_sort_Permutation. }
    split.
    - apply StronglySorted_cons. split.
      + eapply Forall_impl; [exact Hgood'|].
        intros [[??]?] [? _]. unfold match_in, before in *. lia.
      + apply sorted_before.
        * apply StronglySorted_merge_sort; apply _.
        * eapply pairwise_submseteq; [apply _| |exact Hpw].
          apply Permutation_submseteq, fmap_Permutation, merge_sort_Permutation.
        * eapply Forall_impl; [exact Hgood'|]. by intros ? [_ ?].
    - apply Forall_cons. split; [unfold match_in; lia|].
      eapply Forall_impl; [exact Hgood'|]. by intros ? [? _]. }
  apply (collapse_ok _ _ []) in Hok.
  destruct (collapse _ _ _) as [cur na]. simpl in Hok.
  eexists. split; [done|].
  assert (blocks_ok la lb (if cur.2 =? 0 then na else na ++ [cur])) as Hok'.
  { destruct (cur.2 =? 0); [|done].
    eapply blocks_ok_sublist; [|exact Hok]. by apply sublist_inserts_r. }
  destruct Hok' as [Hss Hin]. split.
  - apply StronglySorted_app. repeat split; [|done|repeat constructor].
    intros x1 x2 Hx1 ->%list_elem_of_singleton.
    rewrite Forall_forall in Hin. specialize (Hin x1 Hx1).
    destruct x1 as [[??]?]. unfold match_in, before in *. lia.
  - apply Forall_app. split; [done|]. apply Forall_singleton.
    unfold match_in. lia.
Qed.
End MatchingBlocks.

(** ** The opcodes *)

Section Opcodes.
Context `{Countable A}.

Lemma opcodes_loop_app (blocks : list Match) : ∀ i j answer,
  opcodes_loop blocks i j answer = answer ++ opcodes_loop blocks i j [].
Proof.
  induction blocks as [|[[ai bj] size] blocks IH]; intros i j answer; simpl.
  { by rewrite app_nil_r. }
  rewrite IH. symmetry. rewrite IH. symmetry.
  repeat case_match; simpl; rewrite <- ?app_assoc; simpl; by rewrite ?app_nil_r.
Qed.

Lemma opcodes_loop_tiles la lb (blocks : list Match) : ∀ i j,
  StronglySorted before (blocks ++ [(la, lb, 0)]) →
  Forall (λ m : Match, i ≤ m.1.1 ∧ j ≤ m.1.2 ∧ 0 ≤ m.2) (blocks ++ [(la, lb, 0)]) →
  tiles i j la lb (opcodes_loop (blocks ++ [(la, lb, 0)]) i j []).
Proof.
  induction blocks as [|[[ai bj] size] blocks IH]; intros i j Hss Hfa.
  - simpl in *. rewrite Forall_singleton in Hfa. simpl in Hfa.
    destruct (Z.ltb_spec i la), (Z.ltb_spec j lb); simpl; lia.
  - rewrite <- app_comm_cons in *.
    apply Forall_cons in Hfa as [Hhd Hfa]. simpl in Hhd.
    apply StronglySorted_cons in Hss as [Hbef Hss].
    assert (tiles (ai + size) (bj + size) la lb
              (opcodes_loop (blocks ++ [(la, lb, 0)]) (ai + size) (bj + size) []))
      as Hrest.
    { apply IH; [done|].
      rewrite Forall_forall in *. intros [[i' j'] k'] Hm.
      specialize (Hbef _ Hm). specialize (Hfa _ Hm).
      simpl in *. unfold before in Hbef. lia. }
    simpl. rewrite opcodes_loop_app.
    destruct (Z.eqb_spec size 0) as [->|Hsize];
      rewrite ?Z.add_0_r in *;
      destruct (Z.ltb_spec i ai), (Z.ltb_spec j bj);
      simpl; repeat split; try lia; try done;
      try (replace i with ai by lia); try (replace j with bj by lia);
      try done; simpl; repeat split; try lia; done.
Qed.

(** The aligner returns, and its opcodes cover both sequences. *)
Lemma get_opcodes_tiles (a b : list A) :
  ∃ ops, get_opcodes (new_matcher a b) = Some ops ∧
    tiles 0 0 (Z.of_nat (length a)) (Z.of_nat (length b)) ops.
Proof.
  unfold get_opcodes.
  destruct (get_matching_blocks_ok (new_matcher a b)) as (blocks & -> & Hss & Hin).
  rewrite bind_Some_eq. eexists. split; [done|].
  simpl in *. apply opcodes_loop_tiles; [done|].
  eapply Forall_impl; [exact Hin|].
  intros [[??]?]. unfold match_in. simpl. lia.
Qed.
End Opcodes.

(** ** The edit extractor *)

Section Extractor.
Variable ucd : UnicodeDB.
Variable mm : ModelManager.

Lemma changes_loop_take o_tokens c_tokens ops : ∀ changes,
  (length changes < 50)%nat →
  Pipeline.changes_loop ucd mm o_tokens c_tokens ops changes =
    changes ++ take (50 - length changes)
                 (edits_of ucd mm o_tokens c_tokens (filter non_equal ops)).
Proof.
  induction ops as [|op ops IH]; intros changes Hlen; simpl.
  { by rewrite take_nil, app_nil_r. }
  case_bool_decide as Htag.
  - rewrite filter_cons_False by (by intros ?). by apply IH.
  - rewrite filter_cons_True by done. unfold edits_of. rewrite fmap_cons.
    fold (edits_of ucd mm o_tokens c_tokens (filter non_equal ops)).
    rewrite length_app. simpl.
    destruct (50 - length changes)%nat as [|n] eqn:Hn; [lia|]. simpl.
    destruct (Z.leb_spec 50 (Z.of_nat (length changes + 1))).
    + assert (n = 0)%nat as -> by lia. by rewrite take_0.
    + rewrite IH by (rewrite length_app; simpl; lia).
      rewrite <- app_assoc, length_app. simpl.
      by replace (50 - (length changes + 1))%nat with n by lia.
Qed.

(** [identify_changes] returns: the edits of the first 50 opcodes that are
    not [equal], in their order. *)
Lemma identify_changes_spec original corrected :
  ∃ ops, opcodes_of ucd original corrected = Some ops ∧
    tiles 0 0 (Z.of_nat (length (Server._wp_tokenize ucd original)))
              (Z.of_nat (length (Server._wp_tokenize ucd corrected))) ops ∧
    Pipeline.identify_changes ucd mm original corrected =
      Some (edits_of ucd mm (Server._wp_tokenize ucd original)
              (Server._wp_tokenize ucd corrected)
              (take 50 (filter non_equal ops))).
Proof.
  unfold opcodes_of, Pipeline.identify_changes.
  destruct (get_opcodes_tiles (Server._wp_tokenize ucd original)
              (Server._wp_tokenize ucd corrected)) as (ops & -> & Htiles).
  exists ops. split; [done|]. split; [done|].
  rewrite bind_Some_eq, changes_loop_take by (simpl; lia).
  simpl. unfold edits_of. by rewrite fmap_take.
Qed.

Lemma change_of_clean original corrected op :
  let c := Pipeline.change_of (Server._wp_tokenize ucd original)
             (Server._wp_tokenize ucd corrected) op in
  opt_clean (ch_from c) ∧ opt_clean (ch_to c).
Proof.
  assert (∀ text lo hi,
    clean (Pipeline.segment (slice (Server._wp_tokenize ucd text) lo hi))) as Hseg.
  { intros. apply segment_clean, slice_Forall, server_tokens_no_space. }
  unfold Pipeline.change_of. destruct (op_tag op); simpl; auto.
Qed.
End Extractor.

(** ** Statements about the online pipeline *)

(** C1. For every pair of input strings, the opcodes that the aligner
    produces inside [identify_changes] partition the token positions of the
    original and of the corrected text: they are ordered, each starts where
    the previous one ended on both sides, none is empty on both sides, the
    first starts at [(0, 0)] and the last ends at the two lengths. *)
Theorem opcodes_partition_tokens (ucd : UnicodeDB) (original corrected : pystr) :
  ∃ ops, opcodes_of ucd original corrected = Some ops ∧
    tiles 0 0 (Z.of_nat (length (Server._wp_tokenize ucd original)))
              (Z.of_nat (length (Server._wp_tokenize ucd corrected))) ops.
Proof.
  destruct (identify_changes_spec ucd (manager_without_classifier id)
              original corrected) as (ops & Hops & Htiles & _).
  eauto.
Qed.

(** C4. For every pair of input strings [identify_changes] returns at most
    50 edits: they are the edits of the first 50 opcodes that are not
    [equal], in order, so exactly 50 when the alignment has more than 50
    such opcodes. *)
Theorem identify_changes_cap (ucd : UnicodeDB) (mm : ModelManager)
    (original corrected : pystr) :
  ∃ ops edits,
    opcodes_of ucd original corrected = Some ops ∧
    Pipeline.identify_changes ucd mm original corrected = Some edits ∧
    edits = edits_of ucd mm (Server._wp_tokenize ucd original)
              (Server._wp_tokenize ucd corrected)
              (take 50 (filter non_equal ops)) ∧
    (length edits ≤ 50)%nat ∧
    ((50 < length (filter non_equal ops))%nat → length edits = 50%nat).
Proof.
  destruct (identify_changes_spec ucd mm original corrected)
    as (ops & Hops & _ & Hid).
  eexists ops, _. repeat split; [done|done|..];
    unfold edits_of; rewrite length_fmap, length_take; lia.
Qed.

Lemma identify_changes_cap_witness :
  ∃ ops edits,
    opcodes_of ascii_db (numbered_text 120 51) (numbered_text 121 51) = Some ops ∧
    length (filter non_equal ops) = 51%nat ∧
    Pipeline.identify_changes ascii_db (manager_without_classifier id)
      (numbered_text 120 51) (numbered_text 121 51) = Some edits ∧
    length edits = 50%nat.
Proof.
  destruct (identify_changes_cap ascii_db (manager_without_classifier id)
              (numbered_text 120 51) (numbered_text 121 51))
    as (ops & edits & Hops & Hid & _ & _ & Hcap).
  exists ops, edits.
  assert (length (filter non_equal ops) = 51%nat) as Hcount.
  { vm_compute in Hops. injection Hops as <-. vm_compute. reflexivity. }
  repeat split; [done..|]. apply Hcap. rewrite Hcount. lia.
Defined.

(** C8. For every pair of input strings and every edit that
    [identify_changes] produces, neither text of the edit has a space
    immediately before a comma or a period. *)
Theorem edits_have_clean_punctuation (ucd : UnicodeDB) (mm : ModelManager)
    (original corrected : pystr) :
  ∃ edits, Pipeline.identify_changes ucd mm original corrected = Some edits ∧
    Forall edit_clean edits.
Proof.
  destruct (identify_changes_spec ucd mm original corrected)
    as (ops & _ & _ & Hid).
  eexists. split; [done|].
  unfold edits_of. apply Forall_fmap, Forall_forall. intros op _.
  apply change_of_clean.
Qed.

(** C3. For every correction result, [score = max(0, 10 - edit_count)] and
    [has_errors = (edit_count > 0)], hence [0 <= score <= 10] and
    [score = 10 - min(edit_count, 10)], where [edit_count] is the length of
    the list of changes. *)
Theorem score_of_edit_count (ucd : UnicodeDB) (mm : ModelManager)
    (student_input prompt : pystr) (max_length : Z) (r : CorrectionResult) :
  Pipeline.correct_text ucd mm student_input prompt max_length = Some r →
  score_contract r.
Proof.
  unfold Pipeline.correct_text. intros Hr.
  destruct (loaded mm); [|done]. simpl in Hr.
  destruct (seq2seq mm _ _) as [decoded|]; [|done]. simpl in Hr.
  destruct (Pipeline.identify_changes _ _ _ _) as [changes|]; [|done].
  simpl in Hr. injection Hr as <-. unfold score_contract. simpl.
  repeat split; try lia.
  destruct (Z.ltb_spec 0 (Z.of_nat (length changes)));
    [by rewrite bool_decide_eq_true_2|by rewrite bool_decide_eq_false_2; [|lia]].
Qed.

Lemma score_of_edit_count_witness :
  ∃ r, Pipeline.correct_text ascii_db
         (manager_without_classifier (λ _, str "I saw a dog"))
         (str "I saw dog") (str "") 256 = Some r ∧
       r_score r = 9 ∧ score_contract r.
Proof.
  eexists. split; [vm_compute; reflexivity|]. split; [reflexivity|].
  apply (score_of_edit_count ascii_db
           (manager_without_classifier (λ _, str "I saw a dog"))
           (str "I saw dog") (str "") 256).
  vm_compute. reflexivity.
Defined.

(** C7. When no classifier is loaded, or the loaded classifier's [predict]
    raises, [_predict_error_type] returns the category of the fallback
    heuristic; it always returns a category. *)
Theorem classifier_failure_falls_back (ucd : UnicodeDB) (mm : ModelManager)
    (c : change) :
  classifier_unavailable ucd mm c →
  _predict_error_type ucd mm c = _predict_error_type_heuristic ucd c.
Proof.
  unfold _predict_error_type, classifier_unavailable, try_classifier.
  intros Hun.
  destruct (error_clf_loaded mm); [|done].
  destruct (error_clf mm) as [clf|]; [|done].
  destruct Hun as [? | [? | (clf' & [= <-] & Hraise)]]; [done..|].
  by rewrite Hraise.
Qed.

Lemma classifier_failure_falls_back_witness :
  classifier_unavailable ascii_db manager_with_failing_classifier
    (Change added None (Some (str "the"))) ∧
  _predict_error_type ascii_db manager_with_failing_classifier
    (Change added None (Some (str "the"))) = articles_determiners.
Proof.
  assert (classifier_unavailable ascii_db manager_with_failing_classifier
            (Change added None (Some (str "the")))) as Hun.
  { right. right. exists failing_classifier. split; reflexivity. }
  split; [exact Hun|].
  rewrite (classifier_failure_falls_back ascii_db
             manager_with_failing_classifier _ Hun).
  vm_compute. reflexivity.
Defined.

(** ** The fallback heuristic *)

Lemma heuristic_side_eq ucd raw :
  heuristic_side ucd raw = lower ucd (strip ucd (or_else raw [])).
Proof. unfold heuristic_side. by destruct raw as [[|c s]|]. Qed.

Lemma slice_drop_last {A} (stem : list A) (c : A) :
  slice (stem ++ [c]) 0 (-1) = stem.
Proof.
  unfold slice, slice_bound. rewrite length_app. simpl.
  replace (Z.to_nat (0 `min` _)) with 0%nat by lia.
  replace (Z.to_nat _) with (length stem) by lia.
  by rewrite drop_0, take_app_length.
Qed.

Lemma plural_test_iff frm to :
  plural_test frm to = true ↔
  to = frm ++ str "s" ∨ to = frm ++ str "es" ∨
  ∃ stem, frm = stem ++ str "y" ∧ to = stem ++ str "ies".
Proof.
  unfold plural_test.
  rewrite !orb_true_iff, andb_true_iff, !bool_decide_eq_true.
  change (str "y") with [121%N].
  split.
  - intros [[<- | <-] | [[stem ->] <-]]; auto.
    right. right. exists stem. by rewrite slice_drop_last.
  - intros [-> | [-> | (stem & -> & ->)]]; auto.
    right. split; [by exists stem|]. by rewrite slice_drop_last.
Qed.

Lemma truthy_iff s : truthy s = true ↔ s ≠ [].
Proof. by destruct s. Qed.

(** C5, as the code has it.  Both sides of an edit are trimmed and
    lower-cased before either rule looks at them.  Rule 1: an edit is
    classified articles/determiners exactly when it is an addition whose
    trimmed, lower-cased corrected side is "a", "an" or "the".  Rule 2: an
    edit is classified agreement/plural exactly when it is a replacement
    whose trimmed, lower-cased sides are not empty and the corrected side is
    the original side followed by "s" or "es", or the original side with its
    final "y" turned into "ies". *)
Theorem heuristic_rules_on_normalised_sides (ucd : UnicodeDB) (c : change) :
  (_predict_error_type_heuristic ucd c = articles_determiners ↔
   ch_type c = added ∧ article_normalised ucd c) ∧
  (_predict_error_type_heuristic ucd c = agreement_plural ↔
   ch_type c = replaced ∧ plural_normalised ucd c).
Proof.
  unfold _predict_error_type_heuristic, article_normalised, plural_normalised.
  rewrite !heuristic_side_eq.
  set (frm := lower ucd (strip ucd (or_else (ch_from c) []))).
  set (to := lower ucd (strip ucd (or_else (ch_to c) []))).
  destruct (ch_type c); simpl.
  - split.
    { split; [|by intros [? _]].
      by destruct (truthy frm && truthy to && plural_test frm to). }
    destruct (truthy frm && truthy to && plural_test frm to) eqn:Htest.
    + apply andb_true_iff in Htest as [[Hf Ht]%andb_true_iff Hp].
      apply truthy_iff in Hf, Ht. apply plural_test_iff in Hp. tauto.
    + split; [done|]. intros (_ & Hf & Ht & Hp).
      apply truthy_iff in Hf, Ht. apply plural_test_iff in Hp.
      rewrite Hf, Ht, Hp in Htest. done.
  - split; (split; [done|]); by intros [? _].
  - split.
    + case_bool_decide as Hart; simpl; [tauto|].
      split; [done|]. by intros [_ ?].
    + split; [|by intros [? _]].
      destruct (bool_decide (to ∈ ARTICLES)); done.
Qed.

(** C5, as stated, fails: the edit "Cat" -> "CATS" is classified
    agreement/plural although "CATS" is none of "Cats", "Cates". *)
Lemma plural_rule_is_not_exact :
  _predict_error_type_heuristic ascii_db
    (Change replaced (Some (str "Cat")) (Some (str "CATS"))) = agreement_plural
  ∧ ¬ plural_exact_spec (str "Cat") (str "CATS").
Proof.
  split; [by vm_compute|].
  intros [Heq | [Heq | (stem & Heq & _)]]; [by vm_compute in Heq..|].
  apply (f_equal last) in Heq. change (str "y") with [121%N] in Heq.
  rewrite last_snoc in Heq. by vm_compute in Heq.
Qed.

(** ** The server's tokenizer *)

Lemma span_app p s : (span p s).1 ++ (span p s).2 = s.
Proof.
  induction s as [|c s IH]; simpl; [done|].
  destruct (p c); [|done]. destruct (span p s) as [run rest]. simpl in *.
  by rewrite IH.
Qed.

Lemma span_cons_true p c s :
  p c = true → span p (c :: s) = (c :: (span p s).1, (span p s).2).
Proof. intros Hc. simpl. rewrite Hc. by destruct (span p s). Qed.

Lemma iter_greedy_class_nil (p : N → bool) fuel s :
  starts_with p s = false → iter_greedy (ends (Class p)) fuel s = [].
Proof. destruct fuel, s as [|c s]; simpl; try done; by intros ->. Qed.

Lemma iter_greedy_class_cons (p : N → bool) fuel c s :
  p c = true →
  iter_greedy (ends (Class p)) (S fuel) (c :: s) =
    iter_greedy (ends (Class p)) fuel s ++ [s].
Proof.
  intros Hc. cbn [iter_greedy].
  change (ends (Class p) (c :: s)) with (if p c then [s] else []).
  rewrite Hc, bind_singleton.
  by rewrite (proj2 (Nat.ltb_lt (length s) (length (c :: s)))) by (simpl; lia).
Qed.

(** A greedy repetition of a class first offers the end of the maximal
    run. *)
Lemma iter_greedy_class_head (p : N → bool) fuel : ∀ c s,
  p c = true → (length s ≤ fuel)%nat →
  ∃ others, iter_greedy (ends (Class p)) fuel (c :: s) = (span p s).2 :: others.
Proof.
  induction fuel as [|f IH]; intros c s Hc Hlen.
  { destruct s; [|simpl in Hlen; lia]. simpl. rewrite Hc. by exists []. }
  rewrite iter_greedy_class_cons by done.
  destruct (starts_with p s) eqn:Hs.
  - destruct s as [|d s]; [done|]. simpl in Hs, Hlen.
    destruct (IH d s Hs ltac:(lia)) as [others ->].
    rewrite (span_cons_true p d s Hs). simpl. eauto.
  - rewrite iter_greedy_class_nil by done.
    destruct s as [|d s]; simpl in *; [by exists []|].
    rewrite Hs. by exists [].
Qed.

Lemma ends_alt r1 r2 s : ends (Alt r1 r2) s = ends r1 s ++ ends r2 s.
Proof. done. Qed.

Lemma ends_cat r1 r2 s : ends (Cat r1 r2) s = ends r1 s ≫= ends r2.
Proof. done. Qed.

Lemma ends_opt r s : ends (Opt r) s = ends r s ++ [s].
Proof. done. Qed.

Lemma ends_class p s :
  ends (Class p) s =
    match s with c :: s' => if p c then [s'] else [] | [] => [] end.
Proof. done. Qed.

Lemma ends_plus_head (p : N → bool) s :
  starts_with p s = true →
  ∃ others, ends (Plus (Class p)) s = (span p s).2 :: others.
Proof.
  destruct s as [|c s]; [done|]. simpl starts_with. intros Hc.
  rewrite (span_cons_true p c s Hc).
  change (ends (Plus (Class p)) (c :: s))
    with (iter_greedy (ends (Class p)) (length (c :: s)) (c :: s)).
  apply iter_greedy_class_head; [done|]. simpl. lia.
Qed.

Lemma ends_plus_nil (p : N → bool) s :
  starts_with p s = false → ends (Plus (Class p)) s = [].
Proof.
  intros Hs.
  change (ends (Plus (Class p)) s)
    with (iter_greedy (ends (Class p)) (length s) s).
  by apply iter_greedy_class_nil.
Qed.

Lemma head_app_Some {A} (l l' : list A) x : head l = Some x → head (l ++ l') = Some x.
Proof. by destruct l. Qed.

(** What the optional apostrophe group matches first. *)
Lemma head_apostrophe_group rest :
  head (ends (Opt (Cat (Class (N.eqb apostrophe)) (Plus (Class is_ascii_letter)))) rest)
  = Some match rest with
         | a :: rest' =>
           if (apostrophe =? a)%N && starts_with is_ascii_letter rest'
           then (span is_ascii_letter rest').2 else rest
         | [] => rest
         end.
Proof.
  rewrite ends_opt, ends_cat, ends_class.
  destruct rest as [|a rest']; [done|].
  destruct (apostrophe =? a)%N; cbn [andb]; [|done].
  rewrite bind_singleton.
  destruct (starts_with is_ascii_letter rest') eqn:Hs.
  - by destruct (ends_plus_head _ _ Hs) as [others ->].
  - by rewrite ends_plus_nil.
Qed.

(** The match of the server's pattern at a position is the token of the
    scanner. *)
Lemma match_at_read_token ucd s :
  match_at (Server.token_re ucd) s = snd <$> read_token ucd s.
Proof.
  unfold match_at, Server.token_re.
  destruct s as [|c s]; [done|].
  rewrite !ends_alt, ends_cat. cbn [read_token].
  destruct (is_ascii_letter c) eqn:Hl.
  - destruct (ends_plus_head is_ascii_letter (c :: s) Hl) as [others ->].
    rewrite bind_cons, <- !app_assoc.
    rewrite (head_app_Some _ _ _ (head_apostrophe_group _)).
    rewrite (span_cons_true _ c s Hl).
    destruct (span is_ascii_letter s) as [word rest]. cbn [fst snd].
    destruct rest as [|a rest']; [done|].
    destruct (_ && _); [|done].
    by destruct (span is_ascii_letter rest').
  - rewrite (ends_plus_nil is_ascii_letter (c :: s)) by done.
    change ([] ≫= ?f) with (@nil pystr). cbn [app].
    destruct (is_decimal ucd c) eqn:Hd.
    + destruct (ends_plus_head (is_decimal ucd) (c :: s) Hd) as [others ->].
      done.
    + rewrite (ends_plus_nil (is_decimal ucd) (c :: s)) by done.
      rewrite ends_class. cbn [app]. by destruct (is_punct ucd c).
Qed.

Lemma read_token_app ucd s token rest :
  read_token ucd s = Some (token, rest) → s = token ++ rest ∧ token ≠ [].
Proof.
  destruct s as [|c s]; [done|]. cbn [read_token].
  destruct (is_ascii_letter c) eqn:Hl.
  - pose proof (span_app is_ascii_letter (c :: s)) as Happ.
    pose proof (span_cons_true _ c s Hl) as Hsp.
    destruct (span is_ascii_letter (c :: s)) as [word rest1].
    destruct word as [|w0 word]; [by injection Hsp|]. clear Hsp.
    cbn [fst snd] in Happ. rewrite <- Happ.
    destruct rest1 as [|a rest']; [by intros [= <- <-]|].
    destruct ((apostrophe =? a)%N && starts_with is_ascii_letter rest').
    + pose proof (span_app is_ascii_letter rest') as Happ2.
      destruct (span is_ascii_letter rest') as [word2 rest2].
      cbn [fst snd] in Happ2. intros [= <- <-]. split; [|done].
      rewrite <- Happ2. simpl. by rewrite <- app_assoc.
    + by intros [= <- <-].
  - destruct (is_decimal ucd c) eqn:Hd.
    + pose proof (span_app (is_decimal ucd) (c :: s)) as Happ.
      pose proof (span_cons_true _ c s Hd) as Hsp.
      destruct (span (is_decimal ucd) (c :: s)) as [word rest1].
      destruct word as [|w0 word]; [by injection Hsp|].
      cbn [fst snd] in Happ. by intros [= <- <-].
    + destruct (is_punct ucd c); [|done]. by intros [= <- <-].
Qed.

(** The server's tokenizer is this scanner: runs of ASCII letters with at
    most one embedded apostrophe group, runs of decimal digits, and single
    characters that are neither word characters nor whitespace.  Every other
    character is passed over: whitespace, and also the word characters that
    are neither ASCII letters nor decimal digits. *)
Lemma server_tokenizer_scans ucd text :
  Server._wp_tokenize ucd text = scan_tokens ucd (S (length text)) text.
Proof.
  unfold Server._wp_tokenize, findall. generalize (S (length text)).
  intros fuel. revert text. induction fuel as [|f IH]; intros s; [done|].
  cbn [findall_from scan_tokens].
  destruct s as [|c s].
  { by rewrite match_at_read_token. }
  rewrite match_at_read_token.
  destruct (read_token ucd (c :: s)) as [[token rest]|] eqn:Hread; cbn [fmap option_fmap option_map snd].
  - apply read_token_app in Hread as [Happ Hne].
    rewrite Happ, length_app.
    replace (length token + length rest - length rest)%nat
      with (length token) by lia.
    destruct token as [|t0 token]; [done|]. cbn [length Nat.eqb].
    change (S (length token)) with (length (t0 :: token)).
    by rewrite take_app_length, IH.
  - apply IH.
Qed.

(** C6 at the failing inputs: an underscore is not whitespace, yet the
    server's tokenizer emits no token for it, alone or inside a word; the
    tokenizer of the offline scripts keeps it. *)
Theorem server_tokenizer_drops_underscore (ucd : UnicodeDB) :
  Server._wp_tokenize ucd (str "_") = [] ∧
  Server._wp_tokenize ucd (str "snake_case") = [str "snake"; str "case"] ∧
  Tagger._wp_tokenize ucd (str "_") = [str "_"] ∧
  Tagger._wp_tokenize ucd (str "snake_case") = [str "snake_case"].
Proof. by vm_compute. Qed.

(** ** The training-example builder *)

Section BuilderSpec.
Variable ucd : UnicodeDB.
Variables min_len max_len : Z.

Lemma both_empty_iff (inc cor : pystr) :
  negb (truthy inc) && negb (truthy cor) = true ↔ inc = [] ∧ cor = [].
Proof. destruct inc, cor; simpl; intuition congruence. Qed.

Lemma corrections_loop_cons t corrs X y :
  TaggerExamples.corrections_loop ucd min_len max_len (t :: corrs) X y =
    if decide (kept ucd min_len max_len t)
    then TaggerExamples.corrections_loop ucd min_len max_len corrs
           (X ++ [example_text ucd t]) (y ++ [example_label ucd t])
    else TaggerExamples.corrections_loop ucd min_len max_len corrs X y.
Proof.
  cbn [TaggerExamples.corrections_loop].
  fold (example_text ucd t). fold (example_label ucd t).
  destruct (negb _ && negb _) eqn:Hempty.
  { apply both_empty_iff in Hempty.
    rewrite decide_False; [done|]. unfold kept. tauto. }
  assert (¬ (TaggerExamples.inc_of ucd t = [] ∧ TaggerExamples.cor_of ucd t = []))
    as Hne.
  { rewrite <- both_empty_iff. by rewrite Hempty. }
  unfold kept.
  set (ni := Z.of_nat (length (Tagger._wp_tokenize ucd (TaggerExamples.inc_of ucd t)))).
  set (nc := Z.of_nat (length (Tagger._wp_tokenize ucd (TaggerExamples.cor_of ucd t)))).
  destruct (Z.ltb_spec ni min_len), (Z.ltb_spec nc min_len),
    (Z.ltb_spec max_len ni), (Z.ltb_spec max_len nc); cbn [andb orb].
  all: case_decide as Hd; try done; exfalso.
  all: first [ destruct Hd as (_ & ? & ? & ?); lia
             | apply Hd; repeat split; [done|lia..] ].
Qed.

Lemma corrections_loop_spec corrs : ∀ X y,
  TaggerExamples.corrections_loop ucd min_len max_len corrs X y =
    (X ++ (example_text ucd <$> filter (kept ucd min_len max_len) corrs),
     y ++ (example_label ucd <$> filter (kept ucd min_len max_len) corrs)).
Proof.
  induction corrs as [|t corrs IH]; intros X y.
  { simpl. by rewrite !app_nil_r. }
  rewrite corrections_loop_cons.
  destruct (decide (kept ucd min_len max_len t)) as [Hk | Hk].
  - rewrite filter_cons_True by done.
    by rewrite !fmap_cons, IH, <- !app_assoc.
  - rewrite filter_cons_False by done. apply IH.
Qed.

Lemma items_loop_spec data : ∀ X y,
  TaggerExamples.items_loop ucd min_len max_len data X y =
    (X ++ (example_text ucd <$> filter (kept ucd min_len max_len) (triples data)),
     y ++ (example_label ucd <$> filter (kept ucd min_len max_len) (triples data))).
Proof.
  induction data as [|item data IH]; intros X y.
  { simpl. by rewrite !app_nil_r. }
  cbn [TaggerExamples.items_loop]. rewrite corrections_loop_spec, IH.
  change (triples (item :: data))
    with (default [] (corrections item) ++ triples data).
  by rewrite filter_app, !fmap_app, !app_assoc.
Qed.
End BuilderSpec.

Lemma table_values_in_taxonomy code label :
  TaggerExamples.FCE_TO_FRIENDLY !! code = Some label → label ∈ taxonomy.
Proof.
  intros Hl. apply elem_of_list_to_map_2 in Hl.
  match type of Hl with
  | _ ∈ ?l =>
    assert (Forall (λ kv : pystr * pystr, kv.2 ∈ taxonomy) l) as Hall
  end.
  { apply (bool_decide_unpack _). by vm_compute. }
  rewrite Forall_forall in Hall. apply (Hall _ Hl).
Qed.

Lemma example_label_in_taxonomy ucd t :
  example_label ucd t ∈ taxonomy ∧ table_label (example_label ucd t).
Proof.
  unfold example_label, dict_get, table_label.
  destruct (TaggerExamples.FCE_TO_FRIENDLY !! _) as [label|] eqn:Hl; simpl.
  - split; [by eapply table_values_in_taxonomy|eauto].
  - split; [|by left]. apply (bool_decide_unpack _). by vm_compute.
Qed.

(** C9. For every corpus, the examples that [build_error_type_examples]
    produces come, in order, from annotations of the corpus; the category of
    each is a label of the taxonomy (a value of the lookup table, or "other"),
    its text is "INC: <incorrect> || COR: <correct>" over the trimmed texts,
    the two trimmed texts are not both empty, and neither has more than 40
    tokens. *)
Theorem training_examples_are_well_formed (ucd : UnicodeDB) (data : list sample) :
  ∃ ts, ts `sublist_of` triples data ∧
    TaggerExamples.build_error_type_examples ucd data =
      (example_text ucd <$> ts, example_label ucd <$> ts) ∧
    Forall (λ t,
      let inc := strip ucd (or_else (incorrect t) []) in
      let cor := strip ucd (or_else (correct t) []) in
      example_label ucd t ∈ taxonomy ∧
      table_label (example_label ucd t) ∧
      example_text ucd t = str "INC: " ++ inc ++ str " || COR: " ++ cor ∧
      ¬ (inc = [] ∧ cor = []) ∧
      (length (Tagger._wp_tokenize ucd inc) ≤ 40)%nat ∧
      (length (Tagger._wp_tokenize ucd cor) ≤ 40)%nat) ts.
Proof.
  exists (filter (kept ucd 1 40) (triples data)). split; [apply sublist_filter|].
  split.
  - unfold TaggerExamples.build_error_type_examples.
    by rewrite items_loop_spec.
  - apply Forall_forall. intros t [Hk _]%list_elem_of_filter.
    destruct Hk as (Hne & _ & Hi & Hc).
    destruct (example_label_in_taxonomy ucd t) as [Htax Htab].
    repeat split; try done; unfold TaggerExamples.inc_of, TaggerExamples.cor_of in *; lia.
Qed.

(** ** The two tokenization rules *)

Lemma offline_tokenizers_coincide ucd s :
  Tagger._wp_tokenize ucd s = Corrector._wp_tokenize ucd s ∧
  Tagger._wp_tokenize ucd s = Tester._wp_tokenize ucd s.
Proof. done. Qed.

Lemma ascii_letter_is_word ucd c : is_ascii_letter c = true → is_word ucd c = true.
Proof.
  unfold is_word, is_alnum, is_ascii, is_ascii_letter, in_range.
  intros Hl. destruct (N.ltb_spec c 128); [by rewrite Hl|].
  apply orb_true_iff in Hl as [Hl | Hl];
    apply andb_true_iff in Hl as [_ Hl%N.leb_le]; lia.
Qed.

Lemma decimal_is_word ucd c : is_decimal ucd c = true → is_word ucd c = true.
Proof.
  unfold is_word, is_alnum, is_decimal.
  destruct (is_ascii c); intros ->; by rewrite ?orb_true_r.
Qed.

Lemma ascii_letter_not_decimal ucd c :
  is_ascii_letter c = true → is_decimal ucd c = false.
Proof.
  unfold is_decimal, is_ascii, is_ascii_letter, is_ascii_digit, in_range.
  intros Hl. destruct (N.ltb_spec c 128).
  - apply orb_true_iff in Hl as [Hl | Hl];
      apply andb_true_iff in Hl as [Hl1%N.leb_le Hl2%N.leb_le];
      apply andb_false_iff; right; apply N.leb_gt; lia.
  - apply orb_true_iff in Hl as [Hl | Hl];
      apply andb_true_iff in Hl as [_ Hl%N.leb_le]; lia.
Qed.

Lemma plain_char_classes ucd c :
  plain_char ucd c = true →
  is_ascii_letter c = is_word ucd c ∧ is_decimal ucd c = false ∧
  (apostrophe =? c)%N = false.
Proof.
  unfold plain_char. intros [Hl | [Hw Ha]%andb_true_iff]%orb_true_iff.
  - rewrite Hl, (ascii_letter_is_word _ _ Hl), (ascii_letter_not_decimal _ _ Hl).
    repeat split. apply N.eqb_neq. intros <-. by vm_compute in Hl.
  - apply negb_true_iff in Hw, Ha. rewrite Hw. repeat split.
    + destruct (is_ascii_letter c) eqn:Hl; [|done].
      by rewrite (ascii_letter_is_word ucd) in Hw.
    + destruct (is_decimal ucd c) eqn:Hd; [|done].
      by rewrite (decimal_is_word ucd) in Hw.
    + by rewrite N.eqb_sym.
Qed.

Lemma iter_greedy_class_ext (p q : N → bool) fuel : ∀ s,
  Forall (λ c, p c = q c) s →
  iter_greedy (ends (Class p)) fuel s = iter_greedy (ends (Class q)) fuel s.
Proof.
  induction fuel as [|f IH]; intros [|c s] Hall; try done;
    apply Forall_cons in Hall as [Hc Hall]; simpl; rewrite Hc;
    destruct (q c); try done.
  simpl. by rewrite IH.
Qed.

Lemma bind_singleton_id {A} (l : list A) : l ≫= (λ x, [x]) = l.
Proof. induction l as [|x l IH]; [done|]. by rewrite bind_cons, IH. Qed.

Lemma ends_Forall (P : N → Prop) r s s' :
  Forall P s → s' ∈ ends r s → Forall P s'.
Proof.
  intros Hs Hin. apply (ends_prefix (λ _, True)) in Hin as (t & -> & _).
  - by apply Forall_app in Hs as [_ ?].
  - clear. induction r; simpl; auto.
Qed.

(** On plain text the two patterns have the same matches at every
    position, in the same order. *)
Lemma ends_plain ucd s :
  Forall (λ c, plain_char ucd c = true) s →
  ends (Server.token_re ucd) s = ends (Tagger.token_re ucd) s.
Proof.
  intros Hs. unfold Server.token_re, Tagger.token_re.
  cbn [ends]. f_equal.
  - rewrite (iter_greedy_class_ext is_ascii_letter (is_word ucd)).
    2:{ eapply Forall_impl; [exact Hs|]. by intros c [? _]%plain_char_classes. }
    etrans; [|apply bind_singleton_id].
    apply Forall_bind_ext, Forall_forall. intros s1 Hs1.
    assert (Forall (λ c, plain_char ucd c = true) s1) as Hp1.
    { eapply (ends_Forall _ (Plus (Class (is_word ucd)))); [exact Hs|].
      exact Hs1. }
    destruct Hp1 as [|c s1 Hc _]; [done|].
    apply plain_char_classes in Hc as (_ & _ & ->). done.
  - destruct Hs as [|c s Hc _]; simpl; [done|].
    apply plain_char_classes in Hc as (_ & -> & _). done.
Qed.

Lemma findall_from_plain ucd fuel : ∀ s,
  Forall (λ c, plain_char ucd c = true) s →
  findall_from fuel (Server.token_re ucd) s =
  findall_from fuel (Tagger.token_re ucd) s.
Proof.
  induction fuel as [|f IH]; intros s Hs; [done|]. cbn [findall_from].
  assert (match_at (Server.token_re ucd) s = match_at (Tagger.token_re ucd) s)
    as Hm by (unfold match_at; by rewrite (ends_plain ucd s Hs)).
  destruct s as [|c s]; rewrite Hm; [done|].
  destruct (match_at (Tagger.token_re ucd) (c :: s)) as [rest|] eqn:Hm'.
  - apply match_at_elem in Hm'.
    pose proof (ends_Forall _ _ _ _ Hs Hm') as Hrest.
    apply Forall_cons in Hs as [_ Hs].
    destruct (_ =? _)%nat; f_equal; by apply IH.
  - apply Forall_cons in Hs as [_ Hs]. by apply IH.
Qed.

(** C10, as the code has it.  The offline scripts share one tokenization
    rule; the server's rule is a different one, and the four tokenizers give
    the same tokens on every text without an apostrophe whose word
    characters are all ASCII letters. *)
Theorem tokenizers_agree_on_plain_text (ucd : UnicodeDB) (s : pystr) :
  forallb (plain_char ucd) s = true →
  Server._wp_tokenize ucd s = Tagger._wp_tokenize ucd s ∧
  Server._wp_tokenize ucd s = Corrector._wp_tokenize ucd s ∧
  Server._wp_tokenize ucd s = Tester._wp_tokenize ucd s.
Proof.
  intros Hs. rewrite forallb_forall in Hs.
  assert (Server._wp_tokenize ucd s = Tagger._wp_tokenize ucd s) as Heq.
  { apply findall_from_plain, Forall_forall. intros c Hc.
    by apply Hs, list_elem_of_In. }
  destruct (offline_tokenizers_coincide ucd s) as [<- <-]. auto.
Qed.

Lemma tokenizers_agree_on_plain_text_witness :
  Server._wp_tokenize ascii_db (str "Hello, world!") =
  Tagger._wp_tokenize ascii_db (str "Hello, world!").
Proof.
  apply (tokenizers_agree_on_plain_text ascii_db (str "Hello, world!")).
  vm_compute. reflexivity.
Defined.

(** C10, as stated, fails: the server keeps a contraction as one token,
    the offline scripts split it in three. *)
Lemma tokenizers_differ_on_contraction :
  Server._wp_tokenize ascii_db (str "don't") = [str "don't"] ∧
  Tagger._wp_tokenize ascii_db (str "don't") = [str "don"; str "'"; str "t"] ∧
  Server._wp_tokenize ascii_db (str "don't")
    ≠ Tagger._wp_tokenize ascii_db (str "don't").
Proof. repeat split; by vm_compute. Qed.

(** ** Aligning a sequence with itself *)

Section IndexB.
Context `{Countable A}.

Lemma index_b_snoc (b : list A) (e : A) :
  index_b (b ++ [e]) =
    <[e := default [] (index_b b !! e) ++ [Z.of_nat (length b)]]> (index_b b).
Proof.
  unfold index_b, enumerate. rewrite imap_app, foldl_app. simpl.
  by rewrite Nat.add_0_r.
Qed.

Lemma index_b_Some (b : list A) x i :
  b !! i = Some x → is_Some (index_b b !! x).
Proof.
  revert i. induction b as [|e b IH] using rev_ind; intros i Hl; [done|].
  rewrite index_b_snoc.
  destruct (decide (e = x)) as [->|Hne]; [rewrite lookup_insert_eq; eauto|].
  rewrite lookup_insert_ne by done.
  apply lookup_app_Some in Hl as [Hl | [_ Hl]]; [by eapply IH|].
  destruct (i - length b)%nat; simpl in Hl; [congruence|done].
Qed.

(** [b2j[x]] lists the positions of [x] in [b], in increasing order. *)
Lemma index_b_spec (b : list A) x js :
  index_b b !! x = Some js →
  StronglySorted Z.lt js ∧
  ∀ j, j ∈ js ↔ 0 ≤ j < Z.of_nat (length b) ∧ b !! Z.to_nat j = Some x.
Proof.
  revert js. induction b as [|e b IH] using rev_ind; intros js.
  { unfold index_b. simpl. by rewrite lookup_empty. }
  rewrite index_b_snoc, length_app. simpl.
  destruct (decide (e = x)) as [->|Hne].
  - rewrite lookup_insert_eq. intros [= <-].
    destruct (index_b b !! x) as [old|] eqn:Hold; simpl.
    + destruct (IH old eq_refl) as [Hss Hmem]. split.
      * apply StronglySorted_app. repeat split; [|done|repeat constructor].
        intros j1 j2 Hj1%Hmem ->%list_elem_of_singleton. lia.
      * intros j. rewrite elem_of_app, list_elem_of_singleton, Hmem.
        destruct (decide (j = Z.of_nat (length b))) as [->|Hj].
        -- rewrite Nat2Z.id, list_lookup_middle by done.
           split; [intros _; split; [lia|done]|auto].
        -- split.
           ++ intros [[Hr Hl] | ?]; [|done]. split; [lia|].
              by rewrite lookup_app_l by lia.
           ++ intros [Hr Hl]. left. split; [lia|].
              by rewrite lookup_app_l in Hl by lia.
    + split; [repeat constructor|].
      intros j. rewrite list_elem_of_singleton.
      destruct (decide (j = Z.of_nat (length b))) as [->|Hj].
      * rewrite Nat2Z.id, list_lookup_middle by done.
        split; [intros _; split; [lia|done]|auto].
      * split; [done|]. intros [Hr Hl]. exfalso.
        rewrite lookup_app_l in Hl by lia.
        apply index_b_Some in Hl. rewrite Hold in Hl. by destruct Hl.
  - rewrite lookup_insert_ne by done. intros Hjs.
    destruct (IH js Hjs) as [Hss Hmem]. split; [done|].
    intros j. rewrite Hmem. split.
    + intros [Hr Hl]. split; [lia|]. by rewrite lookup_app_l by lia.
    + intros [Hr Hl].
      destruct (decide (j = Z.of_nat (length b))) as [->|Hj].
      * rewrite Nat2Z.id, list_lookup_middle in Hl by done. congruence.
      * split; [lia|]. by rewrite lookup_app_l in Hl by lia.
Qed.

Lemma new_matcher_b2j (a b : list A) x js :
  sm_b2j (new_matcher a b) !! x = Some js →
  StronglySorted Z.lt js ∧
  ∀ j, j ∈ js ↔ 0 ≤ j < Z.of_nat (length b) ∧ b !! Z.to_nat j = Some x.
Proof.
  simpl. unfold purge.
  intros [[Hjs _]%map_lookup_filter_Some _]%map_lookup_filter_Some.
  by apply index_b_spec.
Qed.
End IndexB.

Lemma getitem_lookup {A} (l : list A) (i : Z) :
  0 ≤ i → getitem l i = l !! Z.to_nat i.
Proof. intros Hi. unfold getitem. by rewrite (proj2 (Z.leb_le 0 i)). Qed.

Lemma runlen_bounds np lo m : 0 ≤ runlen np lo m ≤ Z.of_nat m.
Proof. induction m as [|m IH]; simpl; [lia|]. destruct (np _); lia. Qed.

Section Diagonal.
Context `{Countable A}.
Variable t : list A.
Local Abbreviation sm := (new_matcher t t).
Local Abbreviation n := (Z.of_nat (length t)).
Variables lo hi : Z.
Hypothesis Hlo : 0 ≤ lo.
Hypothesis Hhi : hi ≤ n.

Lemma run_before i : i < lo → run sm lo i = 0.
Proof. intros Hi. unfold run. by replace (Z.to_nat _) with 0%nat by lia. Qed.

Lemma run_step i :
  lo ≤ i → run sm lo i = if indexed sm i then run sm lo (i - 1) + 1 else 0.
Proof.
  intros Hi. unfold run.
  replace (Z.to_nat (i + 1 - lo)) with (S (Z.to_nat (i - lo))) by lia.
  cbn [runlen].
  replace (lo + Z.of_nat (Z.to_nat (i - lo))) with i by lia.
  by replace (i - 1 + 1 - lo) with (i - lo) by lia.
Qed.

Lemma run_bounds i : 0 ≤ run sm lo i ∧ (lo ≤ i → run sm lo i ≤ i + 1 - lo).
Proof.
  unfold run.
  pose proof (runlen_bounds (indexed sm) lo (Z.to_nat (i + 1 - lo))). lia.
Qed.

Lemma scan_row_diag js i j2len :
  lo ≤ i < hi → diag_row sm lo hi (i - 1) j2len → indexed sm i = true →
  StronglySorted Z.lt js →
  (∀ j, j ∈ js → indexed sm j = true) →
  ∀ new best,
    (∀ j k, new !! j = Some k →
       lo ≤ j < hi ∧ 1 ≤ k ∧ k ≤ run sm lo j ∧ k ≤ run sm lo i) →
    diag_best sm lo hi i best →
    (i ∈ js ∨ (run sm lo i ≤ best.2 ∧ new !! i = Some (run sm lo i))) →
    diag_row sm lo hi i (scan_row js i lo hi j2len new best).1 ∧
    diag_best sm lo hi (i + 1) (scan_row js i lo hi j2len new best).2.
Proof.
  intros Hi [Hprev Hdiag] Hidx.
  assert (∀ new best,
    (∀ j k, new !! j = Some k →
       lo ≤ j < hi ∧ 1 ≤ k ∧ k ≤ run sm lo j ∧ k ≤ run sm lo i) →
    diag_best sm lo hi i best →
    run sm lo i ≤ best.2 ∧ new !! i = Some (run sm lo i) →
    diag_row sm lo hi i new ∧ diag_best sm lo hi (i + 1) best) as Hret.
  { intros new best Hnew (Hd & Hin & Hruns) [Hrun Hnewi]. split.
    - split; [done|]. by rewrite Hnewi.
    - split; [done|]. split; [done|]. intros c Hc.
      destruct (decide (c = i)) as [->|]; [done|]. apply Hruns. lia. }
  pose proof (run_step i ltac:(lia)) as Hrun_i. rewrite Hidx in Hrun_i.
  induction js as [|j js IH]; intros Hss Hjs new best Hnew Hbest Hahead.
  { simpl. apply Hret; [done..|]. destruct Hahead as [Hin|?]; [|done].
    by apply elem_of_nil in Hin. }
  apply StronglySorted_cons in Hss as [Hlt Hss].
  rewrite Forall_forall in Hlt.
  assert (∀ j', j' ∈ js → indexed sm j' = true) as Hjs'.
  { intros j' Hj'. apply Hjs. by right. }
  simpl. destruct (Z.ltb_spec j lo) as [Hjlo|Hjlo].
  { apply IH; try done.
    destruct Hahead as [[->|Hin]%elem_of_cons|?]; [lia|by left|by right]. }
  destruct (Z.leb_spec hi j) as [Hjhi|Hjhi].
  { simpl. apply Hret; [done..|].
    destruct Hahead as [[->|Hin]%elem_of_cons|?]; [lia| |done].
    specialize (Hlt _ Hin). lia. }
  set (k := default 0 (j2len !! (j - 1)) + 1).
  pose proof (run_step j ltac:(lia)) as Hrun_j.
  rewrite (Hjs j ltac:(left)) in Hrun_j.
  pose proof (run_bounds (j - 1)) as [Hj0 _].
  pose proof (run_bounds (i - 1)) as [Hi0 _].
  pose proof (run_bounds i) as [_ Hile].
  assert (1 ≤ k ∧ k ≤ run sm lo j ∧ k ≤ run sm lo i) as (Hk1 & Hkj & Hki).
  { unfold k. destruct (j2len !! (j - 1)) as [k'|] eqn:Hk'; simpl; [|lia].
    apply Hprev in Hk'. lia. }
  assert (∀ j' k', <[j:=k]> new !! j' = Some k' →
            lo ≤ j' < hi ∧ 1 ≤ k' ∧ k' ≤ run sm lo j' ∧ k' ≤ run sm lo i)
    as Hnew'.
  { intros j' k' Hl. destruct (decide (j = j')) as [<-|Hne].
    - rewrite lookup_insert_eq in Hl. injection Hl as <-. lia.
    - rewrite lookup_insert_ne in Hl by done. by apply Hnew. }
  destruct Hbest as (Hd & Hin & Hruns).
  destruct best as [[bi bj] bk]. simpl in Hd, Hruns. subst bj.
  destruct (Z.lt_trichotomy j i) as [Hji | [-> | Hji]].
  - (* before the diagonal *)
    pose proof (Hruns j ltac:(lia)) as Hrj.
    cbn [snd]. rewrite (proj2 (Z.ltb_ge bk k)) by lia.
    apply IH; [done|done|done|by unfold diag_best; simpl; auto|].
    destruct Hahead as [[->|Hin']%elem_of_cons|[? Hl]]; [lia|by left|].
    right. split; [done|]. by rewrite lookup_insert_ne by lia.
  - (* on the diagonal *)
    assert (k = run sm lo i) as Hk.
    { unfold k. rewrite Hdiag. lia. }
    apply IH; [done|done|done| |].
    + cbn [snd]. destruct (Z.ltb_spec bk k); [|by unfold diag_best; simpl; auto].
      split; [done|]. split; [unfold match_in; lia|].
      intros c Hc. specialize (Hruns c Hc). simpl. lia.
    + right. rewrite lookup_insert_eq, Hk. split; [|done].
      cbn [snd]. destruct (Z.ltb_spec bk (run sm lo i)); simpl; lia.
  - (* past the diagonal *)
    destruct Hahead as [[->|Hin']%elem_of_cons|[Hrun Hl]]; [lia| |].
    { specialize (Hlt _ Hin'). lia. }
    simpl in Hrun. cbn [snd]. rewrite (proj2 (Z.ltb_ge bk k)) by lia.
    apply IH; [done|done|done|by unfold diag_best; simpl; auto|].
    right. split; [done|]. by rewrite lookup_insert_ne by lia.
Qed.

Lemma scan_rows_diag m : ∀ i j2len best,
  lo ≤ i → i + Z.of_nat m ≤ hi →
  diag_row sm lo hi (i - 1) j2len → diag_best sm lo hi i best →
  ∃ best', scan_rows sm (seqZ i (Z.of_nat m)) lo hi j2len best = Some best'
           ∧ diag_best sm lo hi (i + Z.of_nat m) best'.
Proof.
  induction m as [|m IH]; intros i j2len best Hi Hm Hrow Hbest.
  { rewrite seqZ_nil by lia. simpl. rewrite Z.add_0_r. eauto. }
  rewrite seqZ_cons by lia. cbn [scan_rows].
  change (sm_a sm) with t.
  destruct (lookup_lt_is_Some_2 t (Z.to_nat i)) as [x Hx]; [lia|].
  rewrite getitem_lookup, Hx, bind_Some_eq by lia.
  replace (Z.pred (Z.of_nat (S m))) with (Z.of_nat m) by lia.
  replace (i + Z.of_nat (S m)) with (Z.succ i + Z.of_nat m) by lia.
  assert (indexed sm i = bool_decide (is_Some (sm_b2j sm !! x))) as Hidx.
  { unfold indexed. change (sm_b sm) with t. by rewrite Hx. }
  destruct (sm_b2j sm !! x) as [js|] eqn:Hjs.
  - destruct (new_matcher_b2j t t x js Hjs) as [Hss Hmem].
    assert (indexed sm i = true) as Hi_idx.
    { rewrite Hidx. by apply bool_decide_eq_true_2. }
    assert (∀ j, j ∈ js → indexed sm j = true) as Hjs_idx.
    { intros j [Hj Hl]%Hmem. unfold indexed. change (sm_b sm) with t.
      rewrite Hl, Hjs. by apply bool_decide_eq_true_2. }
    assert (i ∈ js) as Hi_in.
    { apply Hmem. split; [lia|done]. }
    destruct (scan_row_diag js i j2len ltac:(lia) Hrow Hi_idx Hss Hjs_idx
                ∅ best) as [Hrow' Hbest']; [by intros ???; simplify_map_eq|done|by left|].
    cbn [default]. destruct (scan_row _ _ _ _ _ _ _) as [new best1].
    apply IH; [lia|lia| |done].
    by replace (Z.succ i - 1) with i by lia.
  - cbn [default scan_row].
    assert (run sm lo i = 0) as Hrun.
    { rewrite run_step, Hidx by lia. rewrite bool_decide_eq_false_2; [done|].
      by intros [??]. }
    apply IH; [lia|lia| |].
    + replace (Z.succ i - 1) with i by lia. split; [done|].
      by rewrite lookup_empty, Hrun.
    + destruct Hbest as (Hd & Hin & Hruns). split; [done|]. split; [done|].
      intros c Hc. destruct (decide (c = i)) as [->|]; [|apply Hruns; lia].
      rewrite Hrun. destruct best as [[??]?]. unfold match_in in Hin.
      simpl. lia.
Qed.

Lemma isbjunk_same (y : A) : isbjunk sm y = false.
Proof. done. Qed.

Lemma extend_back_diag fuel : ∀ d k,
  lo ≤ d → d ≤ n → (Z.to_nat (d - lo) < fuel)%nat →
  extend_back sm fuel false lo lo (d, d, k) = Some (lo, lo, k + (d - lo)).
Proof.
  induction fuel as [|f IH]; intros d k Hd Hn Hfuel; [lia|].
  cbn [extend_back]. destruct (Z.ltb_spec lo d); cbn [andb].
  - change (sm_a sm) with t. change (sm_b sm) with t.
    destruct (lookup_lt_is_Some_2 t (Z.to_nat (d - 1))) as [y Hy]; [lia|].
    rewrite getitem_lookup, Hy by lia. rewrite !bind_Some_eq, isbjunk_same.
    cbn [eqb]. rewrite bool_decide_eq_true_2 by done.
    rewrite IH by lia. do 2 f_equal. lia.
  - assert (d = lo) as -> by lia. by rewrite Z.sub_diag, Z.add_0_r.
Qed.

Lemma extend_forth_diag fuel : ∀ k,
  0 ≤ k → lo + k ≤ hi → (Z.to_nat (hi - (lo + k)) < fuel)%nat →
  extend_forth sm fuel false hi hi (lo, lo, k) = Some (lo, lo, hi - lo).
Proof.
  induction fuel as [|f IH]; intros k Hk Hle Hfuel; [lia|].
  cbn [extend_forth]. destruct (Z.ltb_spec (lo + k) hi); cbn [andb].
  - change (sm_a sm) with t. change (sm_b sm) with t.
    destruct (lookup_lt_is_Some_2 t (Z.to_nat (lo + k))) as [y Hy]; [lia|].
    rewrite getitem_lookup, Hy by lia. rewrite !bind_Some_eq, isbjunk_same.
    cbn [eqb]. rewrite bool_decide_eq_true_2 by done.
    by rewrite IH by lia.
  - assert (k = hi - lo) as -> by lia. done.
Qed.

(** Between a sequence and itself the longest match of a window on the
    diagonal is the whole window. *)
Lemma find_longest_match_same :
  lo ≤ hi → find_longest_match sm lo hi lo hi = Some (lo, lo, hi - lo).
Proof.
  intros Hle. unfold find_longest_match.
  destruct (scan_rows_diag (Z.to_nat (hi - lo)) lo ∅ (lo, lo, 0))
    as ([[d d'] k] & Hscan & Hd & Hin & _); [lia|lia| | |].
  { split; [by intros ???; simplify_map_eq|].
    by rewrite lookup_empty, run_before by lia. }
  { split; [done|]. split; [unfold match_in; lia|]. intros c Hc. lia. }
  rewrite Z2Nat.id in Hscan by lia. simpl in Hd. subst d'.
  unfold match_in in Hin.
  rewrite Hscan, bind_Some_eq.
  rewrite extend_back_diag, bind_Some_eq by (unfold back_fuel; simpl; lia).
  rewrite extend_forth_diag, bind_Some_eq by (unfold forth_fuel; simpl; lia).
  unfold back_fuel, forth_fuel. cbn [extend_back extend_forth fst snd].
  rewrite Z.ltb_irrefl. cbn [andb]. rewrite bind_Some_eq.
  replace (lo + (hi - lo)) with hi by lia. by rewrite Z.ltb_irrefl.
Qed.
End Diagonal.

Section SameSequence.
Context `{Countable A}.
Variable t : list A.
Local Abbreviation sm := (new_matcher t t).
Local Abbreviation n := (Z.of_nat (length t)).

Lemma blocks_loop_same fuel :
  blocks_loop sm (S (S fuel)) [(0, n, 0, n)] [] =
    Some (if n =? 0 then [] else [(0, 0, n)]).
Proof.
  cbn [blocks_loop].
  rewrite (find_longest_match_same t 0 n) by lia.
  rewrite bind_Some_eq, Z.sub_0_r.
  destruct (n =? 0); [done|].
  by rewrite Z.ltb_irrefl, Z.add_0_l, Z.ltb_irrefl.
Qed.

(** The opcodes of a sequence against itself: one [equal] opcode, or none
    when the sequence is empty. *)
Lemma get_opcodes_same :
  get_opcodes sm = Some (if n =? 0 then [] else [Op tag_equal 0 n 0 n]).
Proof.
  unfold get_opcodes, get_matching_blocks.
  change (sm_a sm) with t. change (sm_b sm) with t.
  rewrite blocks_loop_same, !bind_Some_eq.
  destruct (Z.eqb_spec n 0) as [Hn|Hn].
  - rewrite Hn. done.
  - change (merge_sort match_le [(0, 0, n)]) with [(0, 0, n)].
    cbn [collapse]. rewrite !Z.add_0_l. cbn [Z.eqb andb snd].
    rewrite (proj2 (Z.eqb_neq n 0)) by done.
    rewrite bind_Some_eq. cbn [app opcodes_loop].
    rewrite !Z.add_0_l, !Z.add_0_r, !Z.ltb_irrefl. cbn [andb].
    rewrite (proj2 (Z.eqb_neq n 0)) by done. done.
Qed.
End SameSequence.

Lemma identify_changes_same ucd mm text :
  Pipeline.identify_changes ucd mm text text = Some [].
Proof.
  unfold Pipeline.identify_changes.
  rewrite get_opcodes_same, bind_Some_eq.
  by destruct (_ =? 0).
Qed.

(** C2. For every string [T], the empty one included, the pipeline run with
    original = corrected = [T] yields no edit: [identify_changes] returns the
    empty list, and a result of [correct_text] whose corrected text is the
    input has an edit count of zero, score 10 and [has_errors] false. *)
Theorem unchanged_text_has_no_edits (ucd : UnicodeDB) (mm : ModelManager)
    (T : pystr) :
  Pipeline.identify_changes ucd mm T T = Some [] ∧
  ∀ prompt max_length r,
    Pipeline.correct_text ucd mm T prompt max_length = Some r →
    r_corrected r = T →
    r_changes r = [] ∧ r_num_errors r = 0 ∧ r_score r = 10 ∧
    r_has_errors r = false.
Proof.
  split; [apply identify_changes_same|].
  unfold Pipeline.correct_text. intros prompt max_length r Hr Hsame.
  destruct (loaded mm); [|done]. simpl in Hr.
  destruct (seq2seq mm _ _) as [decoded|]; [|done]. simpl in Hr.
  destruct (Pipeline.identify_changes _ _ _ _) as [changes|] eqn:Hid; [|done].
  simpl in Hr. injection Hr as <-. simpl in Hsame. rewrite Hsame in Hid.
  rewrite identify_changes_same in Hid. injection Hid as <-. done.
Qed.

Lemma unchanged_text_has_no_edits_witness :
  ∃ r, Pipeline.correct_text ascii_db (manager_without_classifier (λ _, str "I saw a dog ."))
         (str "I saw a dog .") (str "") 256 = Some r ∧
       r_changes r = [] ∧ r_num_errors r = 0 ∧ r_score r = 10 ∧
       r_has_errors r = false.
Proof.
  eexists. split; [vm_compute; reflexivity|].
  apply (proj2 (unchanged_text_has_no_edits ascii_db
           (manager_without_classifier (λ _, str "I saw a dog ."))
           (str "I saw a dog .")) (str "") 256);
    vm_compute; reflexivity.
Defined.

(** ** The pipeline on small inputs *)

Example article_insertion :
  summaries (Pipeline.identify_changes ascii_db
    (manager_without_classifier id) (str "I saw dog") (str "I saw a dog"))
  = Some [(added, None, Some (str "a"), articles_determiners)].
Proof. by vm_compute. Qed.

Example repeated_word_deleted :
  summaries (Pipeline.identify_changes ascii_db
    (manager_without_classifier id) (str "very very happy") (str "very happy"))
  = Some [(deleted, Some (str "very"), None, unnecessary_word)].
Proof. by vm_compute. Qed.

Example article_replaced :
  summaries (Pipeline.identify_changes ascii_db
    (manager_without_classifier id) (str "a letter") (str "the letter"))
  = Some [(replaced, Some (str "a"), Some (str "the"), other)].
Proof. by vm_compute. Qed.

(** Without a common token the whole text is one replacement. *)
Example no_common_token :
  summaries (Pipeline.identify_changes ascii_db
    (manager_without_classifier id) (str "one cat") (str "two cats"))
  = Some [(replaced, Some (str "one cat"), Some (str "two cats"), other)].
Proof. by vm_compute. Qed.

Example plural_of_one_word :
  summaries (Pipeline.identify_changes ascii_db
    (manager_without_classifier id) (str "two cat here") (str "two cats here"))
  = Some [(replaced, Some (str "cat"), Some (str "cats"), agreement_plural)].
Proof. by vm_compute. Qed.

Example punctuation_is_reattached :
  summaries (Pipeline.identify_changes ascii_db
    (manager_without_classifier id) (str "Hello , world . Yes") (str "bye"))
  = Some [(replaced, Some (str "Hello, world. Yes"), Some (str "bye"), other)].
Proof. by vm_compute. Qed.

(** A letter outside ASCII is dropped by the server's tokenizer and kept
    by the offline one. *)
Example accented_letter :
  Server._wp_tokenize latin_db (str "caf" ++ [e_acute]) = [str "caf"] ∧
  Tagger._wp_tokenize latin_db (str "caf" ++ [e_acute]) = [str "caf" ++ [e_acute]].
Proof. by vm_compute. Qed.

(** * Further properties *)

(** ** [str.strip] *)

Section Strip.
Variable ucd : UnicodeDB.

Lemma lstrip_nil_iff s :
  lstrip ucd s = [] ↔ Forall (λ c, is_space ucd c = true) s.
Proof.
  induction s as [|c s IH]; simpl; [done|].
  destruct (is_space ucd c) eqn:Hc.
  - rewrite IH, Forall_cons. tauto.
  - split; [done|]. intros [? _]%Forall_cons. congruence.
Qed.

Lemma lstrip_head s c : head (lstrip ucd s) = Some c → is_space ucd c = false.
Proof.
  induction s as [|d s IH]; simpl; [done|].
  destruct (is_space ucd d) eqn:Hd; [done|]. simpl. by intros [= <-].
Qed.

Lemma lstrip_suffix s : lstrip ucd s `suffix_of` s.
Proof.
  induction s as [|d s IH]; simpl; [done|].
  destruct (is_space ucd d); [by apply suffix_cons_r|done].
Qed.

Lemma lstrip_id s :
  (∀ c, head s = Some c → is_space ucd c = false) → lstrip ucd s = s.
Proof.
  destruct s as [|c s]; [done|]. intros Hc. simpl. by rewrite (Hc c).
Qed.

(** A text strips to nothing exactly when it is all whitespace. *)
Lemma strip_nil_iff s :
  strip ucd s = [] ↔ Forall (λ c, is_space ucd c = true) s.
Proof.
  unfold strip, rstrip. rewrite <- lstrip_nil_iff.
  split.
  - intros Hr. apply (f_equal reverse) in Hr.
    rewrite reverse_involutive in Hr. change (reverse []) with (@nil N) in Hr.
    apply lstrip_nil_iff in Hr. rewrite Forall_reverse in Hr.
    destruct (lstrip ucd s) as [|c t] eqn:Ht; [done|].
    apply Forall_cons in Hr as [Hc _].
    assert (is_space ucd c = false) as Hc'; [|congruence].
    apply (lstrip_head s). by rewrite Ht.
  - by intros ->.
Qed.

Lemma strip_head s c : head (strip ucd s) = Some c → is_space ucd c = false.
Proof.
  unfold strip, rstrip. set (t := lstrip ucd s).
  pose proof (lstrip_suffix (reverse t)) as [k Hk].
  destruct (lstrip ucd (reverse t)) as [|d u] eqn:Hu; [done|].
  rewrite head_reverse. intros Hlast.
  assert (last (reverse t) = Some c) as Hc.
  { rewrite Hk. rewrite last_app. by rewrite Hlast. }
  rewrite last_reverse in Hc. by apply (lstrip_head s).
Qed.

Lemma strip_last s c : last (strip ucd s) = Some c → is_space ucd c = false.
Proof.
  unfold strip, rstrip. rewrite last_reverse. apply lstrip_head.
Qed.
End Strip.

(** ** What the tokenizers keep *)

Lemma filter_all {A} (P : A → Prop) `{∀ x, Decision (P x)} (l : list A) :
  Forall P l → filter P l = l.
Proof.
  induction 1 as [|x l Hx _ IH]; [done|].
  by rewrite filter_cons_True, IH.
Qed.

(** For a pattern that cannot match the empty string, whose classes accept
    only characters of [keep] and that matches wherever a character of
    [keep] stands: the tokens, put together, are the characters of [keep]
    of the text, in order. *)
Lemma findall_from_concat (keep : N → bool) r :
  classes_in (λ c, keep c = true) r → consuming r →
  (∀ c s, keep c = true → match_at r (c :: s) ≠ None) →
  ∀ fuel s, (length s < fuel)%nat →
  concat (findall_from fuel r s) = filter (λ c, keep c = true) s.
Proof.
  intros Hcl Hco Hhit fuel.
  induction fuel as [|f IH]; intros s Hlen; [lia|].
  cbn [findall_from]. destruct s as [|c s].
  { destruct (match_at r []) as [rest|] eqn:Hm; [|done].
    apply match_at_elem, (ends_shorter _ Hco) in Hm. simpl in Hm. lia. }
  simpl in Hlen.
  destruct (match_at r (c :: s)) as [rest|] eqn:Hm.
  - apply match_at_elem in Hm.
    pose proof (ends_shorter _ Hco _ _ Hm) as Hlt.
    apply (ends_prefix _ _ Hcl) in Hm as (t & Ht & Hkeep).
    pose proof (f_equal length Ht) as Hl. simpl in Hl.
    rewrite Ht in *. rewrite length_app in *.
    replace (length t + length rest - length rest)%nat with (length t) by lia.
    destruct (Nat.eqb_spec (length t) 0); [lia|].
    rewrite take_app_length. cbn [concat].
    rewrite IH by lia. by rewrite filter_app, (filter_all _ t).
  - rewrite IH by lia.
    rewrite filter_cons_False; [done|].
    intros Hc. by apply (Hhit c s) in Hc.
Qed.

Lemma apostrophe_is_punct ucd : is_punct ucd apostrophe = true.
Proof. done. Qed.

Lemma server_match_where_kept ucd c s :
  server_kept ucd c = true → match_at (Server.token_re ucd) (c :: s) ≠ None.
Proof.
  rewrite match_at_read_token. unfold server_kept. cbn [read_token].
  destruct (is_ascii_letter c) eqn:Hl.
  - intros _. destruct (span is_ascii_letter (c :: s)) as [word [|a rest']];
      [done|].
    destruct (_ && _); [|done]. by destruct (span is_ascii_letter rest').
  - destruct (is_decimal ucd c); [done|]. by destruct (is_punct ucd c).
Qed.

Lemma offline_match_where_kept ucd c s :
  offline_kept ucd c = true → match_at (Tagger.token_re ucd) (c :: s) ≠ None.
Proof.
  unfold match_at, Tagger.token_re, offline_kept. rewrite ends_alt.
  destruct (is_word ucd c) eqn:Hw.
  - intros _. by destruct (ends_plus_head (is_word ucd) (c :: s) Hw) as [others ->].
  - rewrite (ends_plus_nil (is_word ucd) (c :: s)) by done.
    rewrite ends_class. cbn [orb app]. by intros ->.
Qed.

(** X1. The tokens of the server, put together, are exactly the ASCII
    letters, decimal digits and punctuation characters of the text, in their
    order: nothing is reordered, doubled or invented. *)
Theorem server_tokens_concat (ucd : UnicodeDB) (text : pystr) :
  concat (Server._wp_tokenize ucd text) =
  filter (λ c, server_kept ucd c = true) text.
Proof.
  apply findall_from_concat; [| |apply server_match_where_kept|lia].
  - unfold server_kept, Server.token_re. cbn [classes_in].
    repeat split; intros c Hc; rewrite ?Hc; try by rewrite ?orb_true_r.
    apply N.eqb_eq in Hc as <-. by rewrite apostrophe_is_punct, !orb_true_r.
  - simpl. auto.
Qed.

Lemma offline_kept_or_space ucd c :
  offline_kept ucd c = false → is_space ucd c = true.
Proof.
  unfold offline_kept, is_punct.
  destruct (is_word ucd c), (is_space ucd c); done.
Qed.

Lemma offline_concat ucd s :
  concat (Tagger._wp_tokenize ucd s) =
  filter (λ c, offline_kept ucd c = true) s.
Proof.
  apply findall_from_concat; [| |apply offline_match_where_kept|lia].
  - unfold offline_kept. simpl. split; intros c ->; by rewrite ?orb_true_r.
  - simpl. auto.
Qed.

(** X2. The tokenizer of the offline scripts loses nothing but whitespace:
    its tokens, put together, are the text without the characters that are
    whitespace and not word characters. *)
Theorem offline_tokens_concat (ucd : UnicodeDB) (s : pystr) :
  concat (Tagger._wp_tokenize ucd s) =
  filter (λ c, offline_kept ucd c = true) s ∧
  ∀ c, offline_kept ucd c = false → is_space ucd c = true.
Proof. split; [apply offline_concat|apply offline_kept_or_space]. Qed.

Lemma span_Forall p s : Forall (λ c, p c = true) (span p s).1.
Proof.
  induction s as [|c s IH]; simpl; [done|].
  destruct (p c) eqn:Hc; [|done]. destruct (span p s). simpl in *. by constructor.
Qed.

Lemma read_token_shape ucd s token rest :
  read_token ucd s = Some (token, rest) → token_shape ucd token.
Proof.
  destruct s as [|c s]; [done|]. cbn [read_token].
  destruct (is_ascii_letter c) eqn:Hl.
  - pose proof (span_Forall is_ascii_letter (c :: s)) as Hw.
    pose proof (span_cons_true _ c s Hl) as Hsp.
    destruct (span is_ascii_letter (c :: s)) as [word rest1].
    destruct word as [|w0 word]; [by injection Hsp|]. clear Hsp.
    cbn [fst] in Hw.
    destruct rest1 as [|a rest']; [intros [= <- <-]; by left|].
    destruct (N.eqb_spec apostrophe a) as [<-|]; cbn [andb];
      [|intros [= <- <-]; by left].
    destruct (starts_with is_ascii_letter rest') eqn:Hs;
      [|intros [= <- <-]; by left].
    destruct rest' as [|d rest'']; [done|]. simpl in Hs.
    pose proof (span_Forall is_ascii_letter (d :: rest'')) as Hw2.
    pose proof (span_cons_true _ d rest'' Hs) as Hsp2.
    destruct (span is_ascii_letter (d :: rest'')) as [word2 rest2].
    destruct word2 as [|w2 word2]; [by injection Hsp2|].
    intros [= <- <-]. right. left. by exists (w0 :: word), (w2 :: word2).
  - destruct (is_decimal ucd c) eqn:Hd.
    + pose proof (span_Forall (is_decimal ucd) (c :: s)) as Hw.
      pose proof (span_cons_true _ c s Hd) as Hsp.
      destruct (span (is_decimal ucd) (c :: s)) as [word rest1].
      destruct word as [|w0 word]; [by injection Hsp|].
      intros [= <- <-]. right. right. by left.
    + destruct (is_punct ucd c) eqn:Hp; [|done].
      intros [= <- <-]. right. right. right. by exists c.
Qed.

(** X3. Every token of the server is a run of ASCII letters, two such runs
    joined by one apostrophe, a run of decimal digits, or one punctuation
    character; no token is empty. *)
Theorem server_tokens_shape (ucd : UnicodeDB) (text : pystr) :
  Forall (token_shape ucd) (Server._wp_tokenize ucd text).
Proof.
  rewrite server_tokenizer_scans. generalize (S (length text)). intros fuel.
  revert text. induction fuel as [|f IH]; intros s; [done|].
  cbn [scan_tokens]. destruct s as [|c s]; [done|].
  destruct (read_token ucd (c :: s)) as [[token rest]|] eqn:Hread; [|done].
  constructor; [by eapply read_token_shape|done].
Qed.

Lemma offline_tokens_nonempty ucd s c :
  head s = Some c → is_space ucd c = false → Tagger._wp_tokenize ucd s ≠ [].
Proof.
  intros Hhd Hc Hnil.
  pose proof (offline_concat ucd s) as Hcat.
  rewrite Hnil in Hcat. destruct s as [|d s]; [done|]. injection Hhd as ->.
  destruct (offline_kept ucd c) eqn:Hk.
  - by rewrite filter_cons_True in Hcat.
  - apply offline_kept_or_space in Hk. congruence.
Qed.

Lemma kept_minimum_is_idle ucd t :
  kept ucd 1 40 t ↔ kept_without_minimum ucd t.
Proof.
  unfold kept, kept_without_minimum. cbn zeta.
  set (inc := TaggerExamples.inc_of ucd t).
  set (cor := TaggerExamples.cor_of ucd t).
  split; [intros (? & _ & ? & ?); repeat split; [done|lia..]|].
  intros (Hne & ? & ?). repeat split; [done| |lia..].
  intros [Hi Hc]. apply Hne.
  assert (∀ raw, (Z.of_nat (length (Tagger._wp_tokenize ucd (strip ucd raw))) < 1)
                 → strip ucd raw = []) as Hidle.
  { intros raw Hlen. destruct (strip ucd raw) as [|c s] eqn:Hs; [done|].
    exfalso. assert (Tagger._wp_tokenize ucd (c :: s) ≠ []) as Hno.
    { apply (offline_tokens_nonempty ucd _ c); [done|].
      apply (strip_head ucd raw). by rewrite Hs. }
    destruct (Tagger._wp_tokenize ucd (c :: s)); [done|]. simpl in Hlen. lia. }
  split; by apply Hidle.
Qed.

(** X4. With its default minimum of one token, the minimum-length test of
    [build_error_type_examples] never rejects an annotation: a trimmed text
    that is not empty has at least one token.  An annotation is kept exactly
    when its two trimmed texts are not both empty and neither has more than
    40 tokens. *)
Theorem builder_minimum_is_idle (ucd : UnicodeDB) (data : list sample) :
  TaggerExamples.build_error_type_examples ucd data =
    (example_text ucd <$> filter (kept_without_minimum ucd) (triples data),
     example_label ucd <$> filter (kept_without_minimum ucd) (triples data)).
Proof.
  unfold TaggerExamples.build_error_type_examples. rewrite items_loop_spec.
  by rewrite (list_filter_iff _ _ _ (kept_minimum_is_idle ucd)).
Qed.

(** ** The aligner pairs equal tokens *)

Lemma getitem_Some_lookup {A} (l : list A) (i : Z) x :
  0 ≤ i → getitem l i = Some x → l !! Z.to_nat i = Some x.
Proof. intros Hi. by rewrite getitem_lookup. Qed.

Section RealMatches.
Context `{Countable A}.
Variables a b : list A.
Local Abbreviation sm := (new_matcher a b).
Local Abbreviation real := (real_match a b).

Lemma scan_row_real js i blo bhi j2len :
  (∀ j k, j2len !! j = Some k → real (i - k, j - k + 1, k)) →
  (∀ j, j ∈ js → a !! Z.to_nat i = b !! Z.to_nat j) →
  ∀ new best,
    (∀ j k, new !! j = Some k → real (i - k + 1, j - k + 1, k)) →
    real best →
    (∀ j k, (scan_row js i blo bhi j2len new best).1 !! j = Some k →
       real (i - k + 1, j - k + 1, k)) ∧
    real (scan_row js i blo bhi j2len new best).2.
Proof.
  intros Hprev. induction js as [|j js IH]; intros Hjs new best Hnew Hbest;
    simpl; [done|].
  assert (∀ j', j' ∈ js → a !! Z.to_nat i = b !! Z.to_nat j') as Hjs'.
  { intros j' Hj'. apply Hjs. by right. }
  destruct (j <? blo); [by apply IH|].
  destruct (bhi <=? j); [done|].
  set (k := default 0 (j2len !! (j - 1)) + 1).
  assert (real (i - k + 1, j - k + 1, k)) as Hk.
  { intros d Hd. unfold k in *.
    destruct (j2len !! (j - 1)) as [k'|] eqn:Hk'; simpl in *.
    - destruct (decide (d = k')) as [->|Hne].
      + replace (i - (k' + 1) + 1 + k') with i by lia.
        replace (j - (k' + 1) + 1 + k') with j by lia.
        apply Hjs. by left.
      + specialize (Hprev _ _ Hk' d ltac:(lia)).
        replace (i - (k' + 1) + 1 + d) with (i - k' + d) by lia.
        by replace (j - (k' + 1) + 1 + d) with (j - 1 - k' + 1 + d) by lia.
    - assert (d = 0) as -> by lia.
      replace (i - (0 + 1) + 1 + 0) with i by lia.
      replace (j - (0 + 1) + 1 + 0) with j by lia.
      apply Hjs. by left. }
  apply IH; [done| |].
  - intros j' k' Hl. destruct (decide (j = j')) as [<-|Hne].
    + rewrite lookup_insert_eq in Hl. by injection Hl as <-.
    + rewrite lookup_insert_ne in Hl by done. by apply Hnew.
  - by destruct (best.2 <? k).
Qed.

Lemma scan_rows_real n blo bhi : ∀ i j2len best,
  0 ≤ i →
  (∀ j k, j2len !! j = Some k → real (i - k, j - k + 1, k)) →
  real best →
  ∀ best', scan_rows sm (seqZ i (Z.of_nat n)) blo bhi j2len best = Some best' →
  real best'.
Proof.
  induction n as [|n IH]; intros i j2len best Hi Hprev Hbest best'.
  { rewrite seqZ_nil by lia. simpl. by intros [= <-]. }
  rewrite seqZ_cons by lia. cbn [scan_rows]. change (sm_a sm) with a.
  destruct (getitem a i) as [x|] eqn:Hx; [|done].
  apply getitem_Some_lookup in Hx; [|done]. rewrite bind_Some_eq.
  replace (Z.pred (Z.of_nat (S n))) with (Z.of_nat n) by lia.
  destruct (scan_row_real (default [] (sm_b2j sm !! x)) i blo bhi j2len Hprev)
    with (new := (∅ : gmap Z Z)) (best := best) as [Hnew Hbest1].
  { intros j Hj. destruct (sm_b2j sm !! x) as [js|] eqn:Hjs;
      [|by apply elem_of_nil in Hj].
    destruct (new_matcher_b2j a b x js Hjs) as [_ Hmem].
    apply Hmem in Hj as [_ Hj]. by rewrite Hx, Hj. }
  { by intros ???; simplify_map_eq. }
  { done. }
  destruct (scan_row _ _ _ _ _ _ _) as [new best1]. simpl in Hnew, Hbest1.
  apply IH; [lia| |done].
  intros j k Hl. specialize (Hnew _ _ Hl).
  by replace (Z.succ i - k) with (i - k + 1) by lia.
Qed.

Lemma extend_back_real fuel junk alo blo : ∀ best,
  0 ≤ alo → 0 ≤ blo → real best →
  ∀ best', extend_back sm fuel junk alo blo best = Some best' → real best'.
Proof.
  induction fuel as [|f IH]; intros [[bi bj] bk] Ha Hb Hbest best'; [done|].
  cbn [extend_back].
  destruct (Z.ltb_spec alo bi); cbn [andb]; [|by intros [= <-]].
  destruct (Z.ltb_spec blo bj); [|by intros [= <-]].
  change (sm_a sm) with a. change (sm_b sm) with b.
  destruct (getitem b (bj - 1)) as [y|] eqn:Hy; [|done].
  apply getitem_Some_lookup in Hy; [|lia]. rewrite bind_Some_eq.
  destruct (eqb _ _); [|by intros [= <-]].
  destruct (getitem a (bi - 1)) as [x|] eqn:Hx; [|done].
  apply getitem_Some_lookup in Hx; [|lia]. rewrite bind_Some_eq.
  case_bool_decide as Hxy; [|by intros [= <-]].
  apply IH; [done..|]. intros d Hd.
  destruct (decide (d = 0)) as [->|Hne].
  - rewrite !Z.add_0_r. congruence.
  - specialize (Hbest (d - 1) ltac:(lia)).
    replace (bi - 1 + d) with (bi + (d - 1)) by lia.
    by replace (bj - 1 + d) with (bj + (d - 1)) by lia.
Qed.

Lemma extend_forth_real fuel junk ahi bhi : ∀ best,
  0 ≤ best.1.1 → 0 ≤ best.1.2 → 0 ≤ best.2 → real best →
  ∀ best', extend_forth sm fuel junk ahi bhi best = Some best' → real best'.
Proof.
  induction fuel as [|f IH]; intros [[bi bj] bk] Hi Hj Hk Hbest best'; [done|].
  simpl in Hi, Hj, Hk. cbn [extend_forth].
  destruct (_ && _); [|by intros [= <-]].
  change (sm_a sm) with a. change (sm_b sm) with b.
  destruct (getitem b (bj + bk)) as [y|] eqn:Hy; [|done].
  apply getitem_Some_lookup in Hy; [|lia]. rewrite bind_Some_eq.
  destruct (eqb _ _); [|by intros [= <-]].
  destruct (getitem a (bi + bk)) as [x|] eqn:Hx; [|done].
  apply getitem_Some_lookup in Hx; [|lia]. rewrite bind_Some_eq.
  case_bool_decide as Hxy; [|by intros [= <-]].
  apply IH; simpl; [lia..|]. intros d Hd.
  destruct (decide (d = bk)) as [->|Hne]; [congruence|].
  apply Hbest. lia.
Qed.

(** [find_longest_match] returns a block inside its window that pairs
    equal elements. *)
Lemma find_longest_match_real alo ahi blo bhi :
  0 ≤ alo → alo ≤ ahi → ahi ≤ Z.of_nat (length a) →
  0 ≤ blo → blo ≤ bhi → bhi ≤ Z.of_nat (length b) →
  ∃ m, find_longest_match sm alo ahi blo bhi = Some m ∧
       match_in alo ahi blo bhi m ∧ real m.
Proof.
  intros Ha1 Ha2 Ha3 Hb1 Hb2 Hb3. unfold find_longest_match.
  destruct (scan_rows_ok sm alo ahi blo bhi Ha1 Ha3
              (Z.to_nat (ahi - alo)) alo ∅ (alo, blo, 0))
    as (m1 & Hm1 & Hin1); [lia|lia|by intros ???; simplify_map_eq|simpl; lia|].
  assert (real m1) as Hr1.
  { eapply (scan_rows_real _ blo bhi alo ∅ (alo, blo, 0)); [done| | |exact Hm1].
    - by intros ???; simplify_map_eq.
    - intros d Hd. lia. }
  rewrite Z2Nat.id in Hm1 by lia. rewrite Hm1, bind_Some_eq.
  destruct (extend_back_ok sm alo ahi blo bhi Ha1 Hb1 Ha3 Hb3 false
              (back_fuel alo m1) m1)
    as (m2 & Hm2 & Hin2); [done|unfold back_fuel; lia|].
  pose proof (extend_back_real _ _ _ _ _ Ha1 Hb1 Hr1 _ Hm2) as Hr2.
  rewrite Hm2, bind_Some_eq.
  destruct (extend_forth_ok sm alo ahi blo bhi Ha1 Hb1 Ha3 Hb3 false
              (forth_fuel ahi m2) m2)
    as (m3 & Hm3 & Hin3); [done|unfold forth_fuel; lia|].
  assert (real m3) as Hr3.
  { eapply (extend_forth_real _ _ _ _ m2); [..|exact Hm3]; try done;
      destruct m2 as [[??]?]; unfold match_in in Hin2; simpl; lia. }
  rewrite Hm3, bind_Some_eq.
  destruct (extend_back_ok sm alo ahi blo bhi Ha1 Hb1 Ha3 Hb3 true
              (back_fuel alo m3) m3)
    as (m4 & Hm4 & Hin4); [done|unfold back_fuel; lia|].
  pose proof (extend_back_real _ _ _ _ _ Ha1 Hb1 Hr3 _ Hm4) as Hr4.
  rewrite Hm4, bind_Some_eq.
  destruct (extend_forth_ok sm alo ahi blo bhi Ha1 Hb1 Ha3 Hb3 true
              (forth_fuel ahi m4) m4)
    as (m5 & Hm5 & Hin5); [done|unfold forth_fuel; lia|].
  assert (real m5) as Hr5.
  { eapply (extend_forth_real _ _ _ _ m4); [..|exact Hm5]; try done;
      destruct m4 as [[??]?]; unfold match_in in Hin4; simpl; lia. }
  eauto.
Qed.
End RealMatches.

Section RealBlocks.
Context `{Countable A}.
Variables a b : list A.
Local Abbreviation sm := (new_matcher a b).
Local Abbreviation real := (real_match a b).
Local Abbreviation la := (Z.of_nat (length a)).
Local Abbreviation lb := (Z.of_nat (length b)).

Lemma blocks_loop_real fuel : ∀ queue blocks blocks',
  Forall (region_ok la lb) queue →
  Forall real blocks →
  blocks_loop sm fuel queue blocks = Some blocks' →
  Forall real blocks'.
Proof.
  induction fuel as [|f IH]; intros queue blocks blocks' Hq Hb; [done|].
  destruct queue as [|[[[alo ahi] blo] bhi] q]; cbn [blocks_loop].
  { by intros [= <-]. }
  apply Forall_cons in Hq as [Hr Hq]. simpl in Hr.
  destruct (find_longest_match_real a b alo ahi blo bhi)
    as ([[i j] k] & -> & Hm & Hreal); [lia..|].
  rewrite bind_Some_eq. simpl in Hm.
  destruct (Z.eqb_spec k 0) as [->|Hk]; [by apply IH|].
  apply IH.
  - repeat case_match; repeat apply Forall_cons_2; try done;
      unfold region_ok; lia.
  - apply Forall_app. split; [done|]. by apply Forall_singleton.
Qed.

Lemma collapse_real blocks : ∀ cur non_adjacent,
  Forall real (non_adjacent ++ cur :: blocks) →
  Forall real ((collapse blocks cur non_adjacent).2
               ++ [(collapse blocks cur non_adjacent).1]).
Proof.
  induction blocks as [|[[i2 j2] k2] blocks IH];
    intros [[i1 j1] k1] na Hall; simpl; [done|].
  rewrite Forall_app, !Forall_cons in Hall.
  destruct Hall as (Hna & Hcur & Hb2 & Hrest).
  destruct (Z.eqb_spec (i1 + k1) i2) as [Hi|Hi]; simpl;
    [destruct (Z.eqb_spec (j1 + k1) j2) as [Hj|Hj]; simpl|].
  - apply IH. rewrite Forall_app, Forall_cons. repeat split; [done| |done].
    intros d Hd. destruct (decide (d < k1)) as [Hlt|Hge].
    + apply Hcur. lia.
    + specialize (Hb2 (d - k1) ltac:(lia)).
      replace (i1 + d) with (i2 + (d - k1)) by lia.
      by replace (j1 + d) with (j2 + (d - k1)) by lia.
  - apply IH. destruct (k1 =? 0);
      rewrite ?Forall_app, ?Forall_cons, ?Forall_app, ?Forall_singleton; auto.
  - apply IH. destruct (k1 =? 0);
      rewrite ?Forall_app, ?Forall_cons, ?Forall_app, ?Forall_singleton; auto.
Qed.

Lemma get_matching_blocks_real blocks :
  get_matching_blocks sm = Some blocks → Forall real blocks.
Proof.
  unfold get_matching_blocks. change (sm_a sm) with a. change (sm_b sm) with b.
  destruct (blocks_loop sm _ _ _) as [bs|] eqn:Hbs; [|done].
  rewrite bind_Some_eq.
  apply blocks_loop_real in Hbs; [| |done].
  2:{ apply Forall_singleton. unfold region_ok. lia. }
  assert (Forall real ([] ++ (0, 0, 0) :: merge_sort match_le bs)) as Hall.
  { simpl. apply Forall_cons. split; [intros d Hd; lia|].
    by rewrite merge_sort_Permutation. }
  apply collapse_real in Hall.
  destruct (collapse _ _ _) as [cur na]. simpl in Hall.
  intros [= <-]. apply Forall_app in Hall as [Hna Hcur].
  apply Forall_app. split.
  - destruct (cur.2 =? 0); [done|]. by apply Forall_app.
  - apply Forall_singleton. intros d Hd. lia.
Qed.

Lemma opcodes_loop_sound (blocks : list Match) : ∀ i j,
  StronglySorted before blocks →
  Forall (λ m : Match, i ≤ m.1.1 ∧ j ≤ m.1.2 ∧ 0 ≤ m.2) blocks →
  Forall real blocks →
  Forall (λ op, op_shape op ∧ op_real a b op) (opcodes_loop blocks i j []).
Proof.
  induction blocks as [|[[ai bj] size] blocks IH]; intros i j Hss Hfa Hreal;
    [done|].
  apply Forall_cons in Hfa as [Hhd Hfa]. simpl in Hhd.
  apply Forall_cons in Hreal as [Hm Hreal].
  apply StronglySorted_cons in Hss as [Hbef Hss].
  assert (Forall (λ op, op_shape op ∧ op_real a b op)
            (opcodes_loop blocks (ai + size) (bj + size) [])) as Hrest.
  { apply IH; [done| |done].
    rewrite Forall_forall in *. intros [[i' j'] k'] Hin.
    specialize (Hbef _ Hin). specialize (Hfa _ Hin).
    simpl in *. unfold before in Hbef. lia. }
  cbn [opcodes_loop]. rewrite opcodes_loop_app.
  assert (∀ t, t ≠ tag_equal → op_real a b (Op t i ai j bj)) as Hne.
  { by intros t Ht ?. }
  assert (size ≠ 0 →
          op_shape (Op tag_equal ai (ai + size) bj (bj + size)) ∧
          op_real a b (Op tag_equal ai (ai + size) bj (bj + size))) as Heq.
  { intros Hsize. split; [unfold op_shape; simpl; lia|].
    intros _. simpl. by replace (ai + size - ai) with size by lia. }
  destruct (Z.eqb_spec size 0) as [Hsize|Hsize];
    destruct (Z.ltb_spec i ai), (Z.ltb_spec j bj); cbn [andb app];
    rewrite ?Forall_app, ?Forall_cons; repeat split;
    try done; try (by apply Hne); try (by apply Heq);
    unfold op_shape; simpl; lia.
Qed.

(** The aligner returns; its opcodes cover both sequences, their ranges
    fit their tags, and an [equal] opcode stands on equal elements. *)
Lemma get_opcodes_sound :
  ∃ ops, get_opcodes sm = Some ops ∧ tiles 0 0 la lb ops ∧
    Forall (λ op, op_shape op ∧ op_real a b op) ops.
Proof.
  destruct (get_opcodes_tiles a b) as (ops & Hops & Htiles).
  exists ops. split; [done|]. split; [done|].
  unfold get_opcodes in Hops.
  destruct (get_matching_blocks_ok sm) as (blocks & Hbl & Hss & Hin).
  pose proof (get_matching_blocks_real _ Hbl) as Hreal.
  rewrite Hbl, bind_Some_eq in Hops. injection Hops as <-.
  apply opcodes_loop_sound; [done| |done].
  eapply Forall_impl; [exact Hin|].
  intros [[??]?]. unfold match_in. simpl. lia.
Qed.

End RealBlocks.

Lemma tiles_end la lb (ops : list Opcode) : ∀ i j,
  tiles i j la lb ops → i ≤ la ∧ j ≤ lb.
Proof.
  induction ops as [|op ops IH]; intros i' j'; simpl; [lia|].
  intros (? & ? & ? & ? & _ & Hrest). apply IH in Hrest. lia.
Qed.

Lemma tiles_in la lb (ops : list Opcode) : ∀ i j,
  0 ≤ i → 0 ≤ j → tiles i j la lb ops → Forall (op_in la lb) ops.
Proof.
  induction ops as [|op ops IH]; intros i j Hi Hj; simpl; [done|].
  intros (? & ? & ? & ? & _ & Hrest).
  pose proof (tiles_end _ _ _ _ _ Hrest).
  apply Forall_cons. split; [unfold op_in; lia|].
  apply (IH (op_i2 op) (op_j2 op)); [lia..|done].
Qed.

Lemma slice_in_range {A} (l : list A) (lo hi : Z) :
  0 ≤ lo → lo ≤ hi → hi ≤ Z.of_nat (length l) →
  slice l lo hi = take (Z.to_nat (hi - lo)) (drop (Z.to_nat lo) l).
Proof.
  intros Hlo Hlh Hhi. unfold slice, slice_bound.
  destruct (Z.ltb_spec lo 0), (Z.ltb_spec hi 0); try lia.
  by rewrite !Z.min_l by lia.
Qed.

Lemma slice_length {A} (l : list A) (lo hi : Z) :
  0 ≤ lo → lo ≤ hi → hi ≤ Z.of_nat (length l) →
  Z.of_nat (length (slice l lo hi)) = hi - lo.
Proof.
  intros Hlo Hlh Hhi. rewrite slice_in_range by done.
  rewrite length_take, length_drop. lia.
Qed.

Lemma slice_app_drop {A} (l : list A) (lo hi : Z) :
  0 ≤ lo → lo ≤ hi → hi ≤ Z.of_nat (length l) →
  slice l lo hi ++ drop (Z.to_nat hi) l = drop (Z.to_nat lo) l.
Proof.
  intros Hlo Hlh Hhi. rewrite slice_in_range by done.
  rewrite <- (take_drop (Z.to_nat (hi - lo)) (drop (Z.to_nat lo) l)) at 2.
  f_equal. rewrite drop_drop. f_equal. lia.
Qed.

(** An [equal] opcode spans the same elements on both sides. *)
Lemma op_real_slices {A} (a b : list A) (op : Opcode) :
  op_in (Z.of_nat (length a)) (Z.of_nat (length b)) op →
  op_shape op → op_real a b op → op_tag op = tag_equal →
  slice a (op_i1 op) (op_i2 op) = slice b (op_j1 op) (op_j2 op).
Proof.
  intros Hin Hshape Hreal Htag. specialize (Hreal Htag).
  unfold op_shape in Hshape. rewrite Htag in Hshape.
  unfold op_in in Hin. rewrite !slice_in_range by lia.
  replace (op_j2 op - op_j1 op) with (op_i2 op - op_i1 op) by lia.
  apply list_eq. intros n.
  destruct (decide (n < Z.to_nat (op_i2 op - op_i1 op))%nat) as [Hn|Hn].
  - rewrite !lookup_take_lt, !lookup_drop by done.
    specialize (Hreal (Z.of_nat n) ltac:(lia)). simpl in Hreal.
    replace (Z.to_nat (op_i1 op) + n)%nat
      with (Z.to_nat (op_i1 op + Z.of_nat n)) by lia.
    by replace (Z.to_nat (op_j1 op) + n)%nat
      with (Z.to_nat (op_j1 op + Z.of_nat n)) by lia.
  - by rewrite !lookup_take_ge by lia.
Qed.

Lemma tiles_concat_a {A} (a : list A) lb (ops : list Opcode) : ∀ i j,
  0 ≤ i → tiles i j (Z.of_nat (length a)) lb ops →
  concat ((λ op, slice a (op_i1 op) (op_i2 op)) <$> ops) = drop (Z.to_nat i) a.
Proof.
  induction ops as [|op ops IH]; intros i j Hi.
  { intros [-> _]. simpl. by rewrite Nat2Z.id, drop_all. }
  intros (Hi1 & Hj1 & Hle & _ & _ & Hrest). rewrite fmap_cons. cbn [concat].
  pose proof (tiles_end _ _ _ _ _ Hrest) as [Hend _].
  rewrite (IH (op_i2 op) (op_j2 op)), Hi1 by (lia || done).
  apply slice_app_drop; lia.
Qed.

Lemma tiles_concat_b {A} (b : list A) la (ops : list Opcode) : ∀ i j,
  0 ≤ j → tiles i j la (Z.of_nat (length b)) ops →
  concat ((λ op, slice b (op_j1 op) (op_j2 op)) <$> ops) = drop (Z.to_nat j) b.
Proof.
  induction ops as [|op ops IH]; intros i j Hj.
  { intros [_ ->]. simpl. by rewrite Nat2Z.id, drop_all. }
  intros (Hi1 & Hj1 & _ & Hle & _ & Hrest). rewrite fmap_cons. cbn [concat].
  pose proof (tiles_end _ _ _ _ _ Hrest) as [_ Hend].
  rewrite (IH (op_i2 op) (op_j2 op)), Hj1 by (lia || done).
  apply slice_app_drop; lia.
Qed.

Lemma get_opcodes_op_sound `{Countable A} (a b : list A) :
  ∃ ops, get_opcodes (new_matcher a b) = Some ops ∧
    tiles 0 0 (Z.of_nat (length a)) (Z.of_nat (length b)) ops ∧
    Forall (op_sound a b) ops.
Proof.
  destruct (get_opcodes_sound a b) as (ops & Hops & Htiles & Hall).
  exists ops. split; [done|]. split; [done|].
  pose proof (tiles_in _ _ _ 0 0 ltac:(done) ltac:(done) Htiles) as Hin.
  rewrite Forall_forall in *. intros op Hop.
  destruct (Hall op Hop) as [Hshape Hreal].
  split; [by apply Hin|]. split; [done|].
  intros Htag. apply op_real_slices; auto.
Qed.

Lemma replay_concat {A} (a b : list A) (ops : list Opcode) :
  Forall (op_sound a b) ops →
  concat (replay a b <$> ops) =
    concat ((λ op, slice b (op_j1 op) (op_j2 op)) <$> ops).
Proof.
  induction 1 as [|op ops (_ & _ & Heq) _ IH]; [done|].
  rewrite !fmap_cons. cbn [concat]. rewrite IH. f_equal.
  unfold replay. case_bool_decide; auto.
Qed.

(** X5. The aligner of [identify_changes] is sound: it returns opcodes
    whose ranges lie inside the two token sequences and fit their tags (a
    [replace] spans tokens on both sides, a [delete] only original tokens, an
    [insert] only corrected tokens, an [equal] as many on one side as on the
    other, at least one), and every [equal] opcode spans the same tokens in
    the original and in the corrected text. *)
Theorem aligner_pairs_equal_tokens (ucd : UnicodeDB) (original corrected : pystr) :
  ∃ ops, opcodes_of ucd original corrected = Some ops ∧
    Forall (op_sound (Server._wp_tokenize ucd original)
                     (Server._wp_tokenize ucd corrected)) ops.
Proof.
  destruct (get_opcodes_op_sound (Server._wp_tokenize ucd original)
              (Server._wp_tokenize ucd corrected)) as (ops & ? & _ & ?).
  by exists ops.
Qed.

(** X6. The opcodes are an edit script: copying the original tokens of the
    [equal] opcodes and taking the corrected tokens of the others, in order,
    rebuilds the corrected token sequence. *)
Theorem opcodes_replay (ucd : UnicodeDB) (original corrected : pystr) :
  ∃ ops, opcodes_of ucd original corrected = Some ops ∧
    concat (replay (Server._wp_tokenize ucd original)
                   (Server._wp_tokenize ucd corrected) <$> ops) =
      Server._wp_tokenize ucd corrected.
Proof.
  destruct (get_opcodes_op_sound (Server._wp_tokenize ucd original)
              (Server._wp_tokenize ucd corrected)) as (ops & ? & Htiles & Hall).
  exists ops. split; [done|].
  rewrite (replay_concat _ _ _ Hall).
  rewrite (tiles_concat_b _ _ _ 0 0 ltac:(done) Htiles). apply drop_0.
Qed.

Lemma all_equal_same_tokens {A} (a b : list A) (ops : list Opcode) :
  tiles 0 0 (Z.of_nat (length a)) (Z.of_nat (length b)) ops →
  Forall (op_sound a b) ops →
  filter non_equal ops = [] → a = b.
Proof.
  intros Htiles Hall Hnone.
  pose proof (tiles_concat_a a _ ops 0 0 ltac:(done) Htiles) as Ha.
  pose proof (tiles_concat_b b _ ops 0 0 ltac:(done) Htiles) as Hb.
  change (Z.to_nat 0) with 0%nat in Ha, Hb. rewrite drop_0 in Ha, Hb.
  rewrite <- Ha, <- Hb. f_equal. apply Forall_fmap_ext_1.
  rewrite Forall_forall in *. intros op Hop.
  destruct (Hall op Hop) as (_ & _ & Heq). apply Heq.
  destruct (decide (op_tag op = tag_equal)) as [|Hne]; [done|].
  by destruct (filter_nil_not_elem_of _ _ op Hnone Hne).
Qed.

Lemma identify_changes_same_tokens ucd mm original corrected :
  Server._wp_tokenize ucd original = Server._wp_tokenize ucd corrected →
  Pipeline.identify_changes ucd mm original corrected = Some [].
Proof.
  intros Heq. unfold Pipeline.identify_changes. rewrite Heq.
  apply (identify_changes_same ucd mm corrected).
Qed.

Lemma identify_changes_nil ucd mm original corrected :
  Pipeline.identify_changes ucd mm original corrected = Some [] →
  Server._wp_tokenize ucd original = Server._wp_tokenize ucd corrected.
Proof.
  unfold Pipeline.identify_changes.
  destruct (get_opcodes_op_sound (Server._wp_tokenize ucd original)
              (Server._wp_tokenize ucd corrected)) as (ops & -> & Htiles & Hall).
  rewrite bind_Some_eq, changes_loop_take by (simpl; lia).
  cbn [app length]. intros [= Hnil].
  apply (all_equal_same_tokens _ _ ops); [done..|].
  unfold edits_of in Hnil. rewrite <- fmap_take in Hnil.
  apply fmap_nil_inv in Hnil.
  destruct (filter non_equal ops) as [|op l]; [done|]. done.
Qed.

(** X7. [identify_changes] reports no edit exactly when the two texts have
    the same tokens: differing tokens are never passed over in silence, and
    texts that differ only in spacing (or in characters the tokenizer drops)
    are never reported. *)
Theorem no_edits_iff_same_tokens (ucd : UnicodeDB) (mm : ModelManager)
    (original corrected : pystr) :
  Pipeline.identify_changes ucd mm original corrected = Some [] ↔
  Server._wp_tokenize ucd original = Server._wp_tokenize ucd corrected.
Proof.
  split; [apply identify_changes_nil|apply identify_changes_same_tokens].
Qed.

(** X8. A result of [correct_text] has full marks exactly when the
    corrected text has the tokens of the input: [has_errors] is false, and
    the score is 10, if and only if the two token sequences are equal.  The
    result carries the input and the prompt unchanged. *)
Theorem full_marks_iff_same_tokens (ucd : UnicodeDB) (mm : ModelManager)
    (student_input prompt : pystr) (max_length : Z) (r : CorrectionResult) :
  Pipeline.correct_text ucd mm student_input prompt max_length = Some r →
  r_original r = student_input ∧ r_prompt r = prompt ∧
  (r_has_errors r = false ↔
   Server._wp_tokenize ucd student_input =
     Server._wp_tokenize ucd (r_corrected r)) ∧
  (r_score r = 10 ↔
   Server._wp_tokenize ucd student_input =
     Server._wp_tokenize ucd (r_corrected r)).
Proof.
  unfold Pipeline.correct_text. intros Hr.
  destruct (loaded mm); [|done]. simpl in Hr.
  destruct (seq2seq mm _ _) as [decoded|]; [|done]. simpl in Hr.
  destruct (Pipeline.identify_changes _ _ _ _) as [changes|] eqn:Hid; [|done].
  simpl in Hr. injection Hr as <-. simpl.
  assert (changes = [] ↔ Server._wp_tokenize ucd student_input =
            Server._wp_tokenize ucd (strip ucd decoded)) as <-.
  { split.
    - intros ->. by apply (identify_changes_nil ucd mm).
    - intros Heq.
      rewrite (identify_changes_same_tokens ucd mm _ _ Heq) in Hid.
      by injection Hid as <-. }
  repeat split; try (by intros ->).
  - intros Hb. apply Z.ltb_ge in Hb.
    destruct changes; [done|]. simpl in Hb. lia.
  - intros Hs. destruct changes; [done|]. simpl in Hs. lia.
Qed.

Lemma full_marks_iff_same_tokens_witness :
  ∃ r, Pipeline.correct_text ascii_db
         (manager_without_classifier (λ _, str " I  saw a dog. "))
         (str "I saw a dog .") (str "Describe your day") 256 = Some r ∧
       r_original r = str "I saw a dog ." ∧
       r_prompt r = str "Describe your day" ∧
       (r_has_errors r = false ↔
        Server._wp_tokenize ascii_db (str "I saw a dog .") =
          Server._wp_tokenize ascii_db (r_corrected r)) ∧
       (r_score r = 10 ↔
        Server._wp_tokenize ascii_db (str "I saw a dog .") =
          Server._wp_tokenize ascii_db (r_corrected r)).
Proof.
  eexists. split; [vm_compute; reflexivity|].
  apply (full_marks_iff_same_tokens ascii_db
           (manager_without_classifier (λ _, str " I  saw a dog. "))
           (str "I saw a dog .") (str "Describe your day") 256).
  vm_compute; reflexivity.
Defined.

(** ** The texts of an edit *)

Lemma filter_replace_pair (x : N) (s : pystr) :
  x ≠ space →
  filter (λ c, c ≠ space) (replace [space; x] [x] s) =
    filter (λ c, c ≠ space) s.
Proof.
  intros Hx. revert s. apply (replace_pair_ind space x).
  - done.
  - intros rest IH. rewrite replace_pair_hit.
    rewrite (filter_cons_False _ space) by (by intros ?).
    by rewrite !(filter_cons_True _ x), IH.
  - intros c s Hmiss IH. rewrite replace_pair_miss by done.
    by rewrite !filter_cons, IH.
Qed.

Lemma filter_join (tokens : list pystr) :
  Forall (λ t, Forall (λ c, c ≠ space) t) tokens →
  filter (λ c, c ≠ space) (join (str " ") tokens) = concat tokens.
Proof.
  induction 1 as [|t tokens Ht Htoks IH]; [done|].
  destruct tokens as [|u tokens].
  { simpl. rewrite app_nil_r. by apply filter_all. }
  change (join (str " ") (t :: u :: tokens))
    with (t ++ [space] ++ join (str " ") (u :: tokens)).
  rewrite !filter_app, IH, (filter_all _ t Ht).
  by rewrite (filter_cons_False _ space) by (by intros ?).
Qed.

Lemma segment_characters (tokens : list pystr) :
  Forall (λ t, t ≠ [] ∧ Forall (λ c, c ≠ space) t) tokens →
  filter (λ c, c ≠ space) (Pipeline.segment tokens) = concat tokens.
Proof.
  intros Htoks. unfold Pipeline.segment.
  change (str " .") with [space; period]. change (str ".") with [period].
  change (str " ,") with [space; comma]. change (str ",") with [comma].
  rewrite !filter_replace_pair by done.
  apply filter_join. eapply Forall_impl; [exact Htoks|]. by intros ? [_ ?].
Qed.

Lemma segment_nonempty (tokens : list pystr) :
  Forall (λ t, t ≠ [] ∧ Forall (λ c, c ≠ space) t) tokens →
  tokens ≠ [] → Pipeline.segment tokens ≠ [].
Proof.
  intros Htoks Hne Hseg.
  pose proof (segment_characters tokens Htoks) as Hchars.
  rewrite Hseg in Hchars. destruct tokens as [|t tokens]; [done|].
  apply Forall_cons in Htoks as [[Ht _] _].
  destruct t; [done|]. discriminate Hchars.
Qed.

Lemma slice_nonempty {A} (l : list A) (lo hi : Z) :
  0 ≤ lo → lo < hi → hi ≤ Z.of_nat (length l) → slice l lo hi ≠ [].
Proof.
  intros Hlo Hlh Hhi Hnil.
  pose proof (slice_length l lo hi Hlo ltac:(lia) Hhi) as Hlen.
  rewrite Hnil in Hlen. simpl in Hlen. lia.
Qed.

Lemma change_of_shape ucd (original corrected : pystr) (op : Opcode) :
  op_sound (Server._wp_tokenize ucd original)
           (Server._wp_tokenize ucd corrected) op →
  non_equal op →
  change_shape (Pipeline.change_of (Server._wp_tokenize ucd original)
                  (Server._wp_tokenize ucd corrected) op).
Proof.
  intros (Hin & Hshape & _) Hne. unfold op_in in Hin.
  unfold op_shape in Hshape. unfold non_equal in Hne.
  assert (∀ text lo hi, 0 ≤ lo → lo < hi →
            hi ≤ Z.of_nat (length (Server._wp_tokenize ucd text)) →
            Pipeline.segment (slice (Server._wp_tokenize ucd text) lo hi) ≠ [])
    as Hseg.
  { intros text lo hi ???. apply segment_nonempty.
    - apply slice_Forall, server_tokens_no_space.
    - by apply slice_nonempty. }
  unfold change_shape, Pipeline.change_of.
  destruct (op_tag op); simpl; [| | |done].
  - eexists _, _. repeat split; apply Hseg; lia.
  - eexists. repeat split; apply Hseg; lia.
  - eexists. repeat split; apply Hseg; lia.
Qed.

(** X9. Every edit [identify_changes] reports carries the texts that fit
    its type, and no text is empty: a replaced edit has a non-empty "from"
    and a non-empty "to", a deleted edit a non-empty "from" and no "to", an
    added edit no "from" and a non-empty "to". *)
Theorem edits_carry_their_texts (ucd : UnicodeDB) (mm : ModelManager)
    (original corrected : pystr) :
  ∃ edits, Pipeline.identify_changes ucd mm original corrected = Some edits ∧
    Forall (λ e, change_shape (e_change e)) edits.
Proof.
  destruct (identify_changes_spec ucd mm original corrected)
    as (ops & Hops & _ & ->).
  eexists. split; [done|].
  unfold opcodes_of in Hops.
  destruct (get_opcodes_op_sound (Server._wp_tokenize ucd original)
              (Server._wp_tokenize ucd corrected)) as (ops' & Hops' & _ & Hall).
  rewrite Hops in Hops'. injection Hops' as <-.
  unfold edits_of. rewrite Forall_fmap.
  apply Forall_take, Forall_forall. intros op [Hne Hop]%list_elem_of_filter.
  simpl. apply change_of_shape; [|done].
  rewrite Forall_forall in Hall. by apply Hall.
Qed.

(** X10. The text of an edit is made of the tokens it spans and of single
    spaces between them: with the spaces removed, the "from" text of the
    opcode [(tag, i1, i2, j1, j2)] is the concatenation of the original
    tokens [i1..i2), and the "to" text that of the corrected tokens
    [j1..j2). *)
Theorem edit_texts_spell_their_tokens (ucd : UnicodeDB)
    (original corrected : pystr) (op : Opcode) :
  let o_tokens := Server._wp_tokenize ucd original in
  let c_tokens := Server._wp_tokenize ucd corrected in
  let c := Pipeline.change_of o_tokens c_tokens op in
  (∀ f, ch_from c = Some f →
     filter (λ x, x ≠ space) f = concat (slice o_tokens (op_i1 op) (op_i2 op))) ∧
  (∀ t, ch_to c = Some t →
     filter (λ x, x ≠ space) t = concat (slice c_tokens (op_j1 op) (op_j2 op))).
Proof.
  intros o_tokens c_tokens c.
  assert (∀ text lo hi,
            filter (λ x, x ≠ space)
              (Pipeline.segment (slice (Server._wp_tokenize ucd text) lo hi)) =
            concat (slice (Server._wp_tokenize ucd text) lo hi)) as Hseg.
  { intros text lo hi. apply segment_characters.
    apply slice_Forall, server_tokens_no_space. }
  unfold c, Pipeline.change_of.
  destruct (op_tag op); simpl; split; intros ? [= <-]; apply Hseg.
Qed.

(** ** Feedback and fallback labels *)

Lemma micro_feedback_cases (error_type : pystr) :
  ServerFeedback._micro_feedback_for error_type ≠ [] ∧
  (error_type ∈ taxonomy ∨
   ServerFeedback._micro_feedback_for error_type =
     str "Review this part for grammar/usage.").
Proof.
  unfold ServerFeedback._micro_feedback_for, dict_get.
  destruct (ServerFeedback.MICRO_FEEDBACK !! error_type) as [tip|] eqn:Hl.
  - apply elem_of_list_to_map_2 in Hl.
    match type of Hl with
    | _ ∈ ?l =>
      assert (Forall (λ kv : pystr * pystr, kv.2 ≠ [] ∧ kv.1 ∈ taxonomy) l)
        as Hall
    end.
    { apply (bool_decide_unpack _). by vm_compute. }
    rewrite Forall_forall in Hall. destruct (Hall _ Hl) as [Htip Hkey].
    simpl in *. auto.
  - simpl. split; [by vm_compute|]. right. by vm_compute.
Qed.

(** X11. Every edit of [identify_changes] comes with a tip, whatever the
    classifier answers: the micro-feedback is never empty, and an edit whose
    category is outside the eleven of the taxonomy gets the tip of "other". *)
Theorem every_edit_has_a_tip (ucd : UnicodeDB) (mm : ModelManager)
    (original corrected : pystr) :
  ∃ edits, Pipeline.identify_changes ucd mm original corrected = Some edits ∧
    Forall (λ e, e_micro_feedback e ≠ [] ∧
                 (e_error_type e ∈ taxonomy ∨
                  e_micro_feedback e =
                    str "Review this part for grammar/usage.")) edits.
Proof.
  destruct (identify_changes_spec ucd mm original corrected)
    as (ops & _ & _ & ->).
  eexists. split; [done|].
  unfold edits_of. rewrite Forall_fmap. apply Forall_forall. intros op _.
  apply micro_feedback_cases.
Qed.

Lemma heuristic_fits_type ucd (c : change) :
  _predict_error_type_heuristic ucd c ∈ fallback_labels (ch_type c).
Proof.
  unfold _predict_error_type_heuristic, fallback_labels.
  destruct (ch_type c); simpl;
    repeat (case_bool_decide; simpl; try done);
    repeat (destruct (truthy _); simpl);
    repeat (destruct (plural_test _ _); simpl);
    apply (bool_decide_unpack _); by vm_compute.
Qed.

(** X12. Without a loaded classifier the category of an edit is decided by
    its type: a deleted edit is always "unnecessary word", an added edit is
    "articles/determiners" or "missing word", a replaced edit is
    "agreement/plural" or "other".  The six other categories of the taxonomy
    are never reported. *)
Theorem fallback_label_fits_type (ucd : UnicodeDB) (mm : ModelManager)
    (original corrected : pystr) :
  error_clf_loaded mm = false ∨ error_clf mm = None →
  ∃ edits, Pipeline.identify_changes ucd mm original corrected = Some edits ∧
    Forall (λ e, e_error_type e ∈ fallback_labels (ch_type (e_change e))) edits.
Proof.
  intros Hno.
  destruct (identify_changes_spec ucd mm original corrected)
    as (ops & _ & _ & ->).
  eexists. split; [done|].
  unfold edits_of. rewrite Forall_fmap. apply Forall_forall. intros op _.
  simpl. unfold _predict_error_type.
  destruct (error_clf_loaded mm), (error_clf mm), Hno;
    try done; apply heuristic_fits_type.
Qed.

Lemma fallback_label_fits_type_witness :
  ∃ edits, Pipeline.identify_changes ascii_db (manager_without_classifier id)
             (str "I saw dog") (str "I saw a dog") = Some edits ∧
    Forall (λ e, e_error_type e ∈ fallback_labels (ch_type (e_change e))) edits.
Proof.
  apply (fallback_label_fits_type ascii_db (manager_without_classifier id)).
  left. reflexivity.
Defined.

(** ** The offline change detectors *)

Lemma take_cap_step {A} (x : A) (l : list A) (max_items len : Z) :
  take (Z.to_nat (Z.max 1 (max_items - len))) (x :: l) =
    if max_items <=? len + 1 then [x]
    else x :: take (Z.to_nat (Z.max 1 (max_items - (len + 1)))) l.
Proof.
  destruct (Z.leb_spec max_items (len + 1)).
  - replace (Z.to_nat (Z.max 1 (max_items - len))) with 1%nat by lia.
    simpl. by rewrite take_0.
  - replace (Z.to_nat (Z.max 1 (max_items - len)))
      with (S (Z.to_nat (Z.max 1 (max_items - (len + 1))))) by lia.
    done.
Qed.

Lemma corrector_loop_take max_items o_tokens c_tokens ops : ∀ changes,
  CorrectorChanges.changes_loop max_items o_tokens c_tokens ops changes =
    changes ++ take (Z.to_nat (Z.max 1 (max_items - Z.of_nat (length changes))))
                 (changes_of o_tokens c_tokens ops).
Proof.
  unfold changes_of.
  induction ops as [|op ops IH]; intros changes; cbn [CorrectorChanges.changes_loop].
  { by rewrite filter_nil, fmap_nil, take_nil, app_nil_r. }
  case_bool_decide as Htag.
  - rewrite filter_cons_False by (by intros ?). apply IH.
  - rewrite filter_cons_True, fmap_cons, take_cap_step by done.
    rewrite length_app. cbn [length]. rewrite Nat2Z.inj_add.
    change (Z.of_nat 1) with 1.
    destruct (max_items <=? _); [done|].
    rewrite IH, <- app_assoc, length_app. cbn [length app].
    by rewrite Nat2Z.inj_add.
Qed.

Lemma tester_loop_take o_tokens c_tokens ops : ∀ changes,
  TesterCorrector.changes_loop o_tokens c_tokens ops changes =
    CorrectorChanges.changes_loop 50 o_tokens c_tokens ops changes.
Proof.
  induction ops as [|op ops IH]; intros changes; simpl; [done|].
  repeat case_match; auto.
Qed.

Lemma tagger_loop_take ucd max_items clf o_tokens c_tokens ops : ∀ changes,
  e_change <$> TaggerChanges.changes_loop ucd max_items clf o_tokens c_tokens
                 ops changes =
    CorrectorChanges.changes_loop max_items o_tokens c_tokens ops
      (e_change <$> changes).
Proof.
  induction ops as [|op ops IH]; intros changes; simpl; [done|].
  case_bool_decide; [apply IH|].
  rewrite !length_app, length_fmap. simpl.
  destruct (max_items <=? _).
  - by rewrite fmap_app.
  - by rewrite IH, fmap_app.
Qed.

Lemma tagger_loop_edits ucd max_items clf o_tokens c_tokens ops : ∀ changes,
  TaggerChanges.changes_loop ucd max_items clf o_tokens c_tokens ops changes =
    changes ++ take (Z.to_nat (Z.max 1 (max_items - Z.of_nat (length changes))))
                 (TaggerChanges.edit_of ucd clf <$> changes_of o_tokens c_tokens ops).
Proof.
  unfold changes_of.
  induction ops as [|op ops IH]; intros changes; cbn [TaggerChanges.changes_loop].
  { by rewrite filter_nil, !fmap_nil, take_nil, app_nil_r. }
  case_bool_decide as Htag.
  - rewrite filter_cons_False by (by intros ?). apply IH.
  - rewrite filter_cons_True, !fmap_cons, take_cap_step by done.
    rewrite length_app. cbn [length]. rewrite Nat2Z.inj_add.
    change (Z.of_nat 1) with 1.
    destruct (max_items <=? _); [done|].
    rewrite IH, <- app_assoc, length_app. cbn [length app].
    by rewrite Nat2Z.inj_add.
Qed.

(** X13. The tagger script's [identify_changes] returns the edits of the
    first [max(1, max_items)] opcodes that are not [equal]: the bound is
    tested after an edit is appended, so a call with [max_items] zero or
    negative still returns the first edit. *)
Theorem tagger_changes_cap (ucd : UnicodeDB) (original corrected : pystr)
    (max_items : Z) (clf : option Classifier) :
  let o_tokens := Tagger._wp_tokenize ucd original in
  let c_tokens := Tagger._wp_tokenize ucd corrected in
  ∃ ops, get_opcodes (new_matcher o_tokens c_tokens) = Some ops ∧
    TaggerChanges.identify_changes ucd original corrected max_items clf =
      Some (take (cap max_items)
              (TaggerChanges.edit_of ucd clf <$> changes_of o_tokens c_tokens ops)).
Proof.
  intros o_tokens c_tokens. unfold TaggerChanges.identify_changes.
  destruct (get_opcodes_tiles o_tokens c_tokens) as (ops & Hops & _).
  exists ops. split; [done|]. fold o_tokens c_tokens.
  rewrite Hops, bind_Some_eq, tagger_loop_edits. cbn [app length].
  by rewrite Z.sub_0_r.
Qed.

(** X14. The three offline scripts detect the same changes: the test
    script's [_identify_changes] is the corrector script's
    [identify_changes] with [max_items = 50], and the tagger script's
    [identify_changes] returns the changes of the corrector script's, in the
    same order, each with a category and a tip added. *)
Theorem offline_detectors_agree (ucd : UnicodeDB)
    (original corrected : pystr) (max_items : Z) (clf : option Classifier) :
  TesterCorrector._identify_changes ucd original corrected =
    CorrectorChanges.identify_changes ucd original corrected 50 ∧
  (λ edits : list edit, e_change <$> edits) <$>
      TaggerChanges.identify_changes ucd original corrected max_items clf =
    CorrectorChanges.identify_changes ucd original corrected max_items.
Proof.
  unfold TesterCorrector._identify_changes, TaggerChanges.identify_changes,
    CorrectorChanges.identify_changes.
  destruct (offline_tokenizers_coincide ucd original) as [<- <-].
  destruct (offline_tokenizers_coincide ucd corrected) as [<- <-].
  destruct (get_opcodes _) as [ops|]; [|done].
  rewrite !bind_Some_eq. split.
  - by rewrite tester_loop_take.
  - simpl. by rewrite tagger_loop_take.
Qed.

Lemma server_loop_changes ucd mm o_tokens c_tokens ops : ∀ changes,
  e_change <$> Pipeline.changes_loop ucd mm o_tokens c_tokens ops changes =
    CorrectorChanges.changes_loop 50 o_tokens c_tokens ops (e_change <$> changes).
Proof.
  induction ops as [|op ops IH]; intros changes; simpl; [done|].
  case_bool_decide; [apply IH|].
  rewrite !length_app, length_fmap. simpl.
  destruct (50 <=? _).
  - by rewrite fmap_app.
  - by rewrite IH, fmap_app.
Qed.

(** X15. On texts without an apostrophe whose word characters are all
    ASCII letters, the server detects the changes the offline scripts
    detect: the same types and the same "from" and "to" texts, in the same
    order. *)
Theorem server_and_offline_changes_agree (ucd : UnicodeDB) (mm : ModelManager)
    (original corrected : pystr) :
  forallb (plain_char ucd) original = true →
  forallb (plain_char ucd) corrected = true →
  (λ edits : list edit, e_change <$> edits) <$>
      Pipeline.identify_changes ucd mm original corrected =
    TesterCorrector._identify_changes ucd original corrected.
Proof.
  intros Ho Hc. rewrite forallb_forall in Ho, Hc.
  unfold Pipeline.identify_changes, TesterCorrector._identify_changes.
  assert (∀ s, (∀ c, In c s → plain_char ucd c = true) →
            Server._wp_tokenize ucd s = Tester._wp_tokenize ucd s) as Heq.
  { intros s Hs. destruct (offline_tokenizers_coincide ucd s) as [_ <-].
    apply findall_from_plain, Forall_forall. intros c Hin.
    by apply Hs, list_elem_of_In. }
  rewrite (Heq _ Ho), (Heq _ Hc).
  destruct (get_opcodes _) as [ops|]; [|done].
  rewrite !bind_Some_eq. simpl.
  by rewrite server_loop_changes, tester_loop_take.
Qed.

Lemma server_and_offline_changes_agree_witness :
  (λ edits : list edit, e_change <$> edits) <$>
      Pipeline.identify_changes ascii_db (manager_without_classifier id)
        (str "She have two cat .") (str "She has two cats.") =
    TesterCorrector._identify_changes ascii_db
      (str "She have two cat .") (str "She has two cats.").
Proof.
  apply (server_and_offline_changes_agree ascii_db
           (manager_without_classifier id));
    vm_compute; reflexivity.
Defined.

(** X16. The tagger script and the server put the same question to the
    classifier.  For a change with the texts of its type (no "from" on an
    added change, no "to" on a deleted one), the tagger script's
    [predict_error_type_for_change] returns the label the classifier gives
    to the text the server sends it; when the classifier raises it returns
    "other", where the server uses its heuristic. *)
Theorem tagger_queries_like_server (ucd : UnicodeDB) (clf : Classifier)
    (mm : ModelManager) (c : change) :
  change_shape c →
  error_clf_loaded mm = true → error_clf mm = Some clf →
  match try_classifier ucd clf c with
  | Some label =>
    TaggerChanges.predict_error_type_for_change ucd (Some clf) c = label ∧
    _predict_error_type ucd mm c = label
  | None =>
    TaggerChanges.predict_error_type_for_change ucd (Some clf) c = other ∧
    _predict_error_type ucd mm c = _predict_error_type_heuristic ucd c
  end.
Proof.
  intros Hshape Hloaded Hclf.
  unfold TaggerChanges.predict_error_type_for_change, _predict_error_type.
  rewrite Hloaded, Hclf.
  assert ((if bool_decide (ch_type c = added)
           then _normalize_pair_for_clf ucd (Some []) (ch_to c)
           else if bool_decide (ch_type c = deleted)
           then _normalize_pair_for_clf ucd (ch_from c) (Some [])
           else _normalize_pair_for_clf ucd (ch_from c) (ch_to c)) =
          _normalize_pair_for_clf ucd (ch_from c) (ch_to c)) as ->.
  { unfold change_shape in Hshape.
    destruct (ch_type c); simpl.
    - done.
    - destruct Hshape as (f & -> & -> & _). done.
    - destruct Hshape as (t & -> & -> & _). done. }
  unfold try_classifier. by destruct (predict clf _ ≫= _).
Qed.

Lemma tagger_queries_like_server_witness :
  TaggerChanges.predict_error_type_for_change ascii_db (Some failing_classifier)
    (Change added None (Some (str "the"))) = other ∧
  _predict_error_type ascii_db manager_with_failing_classifier
    (Change added None (Some (str "the"))) = articles_determiners.
Proof.
  pose proof (tagger_queries_like_server ascii_db failing_classifier
                manager_with_failing_classifier
                (Change added None (Some (str "the")))) as Hq.
  destruct Hq as [Ht Hs].
  - exists (str "the"). repeat split. discriminate.
  - reflexivity.
  - reflexivity.
  - split; [exact Ht|]. rewrite Hs. vm_compute. reflexivity.
Defined.

(** ** The routes *)

Lemma correct_text_outcomes ucd mm student_input prompt max_length :
  match Pipeline.correct_text ucd mm student_input prompt max_length with
  | Some r =>
    loaded mm = true ∧
    ∃ decoded, seq2seq mm (model_input student_input) max_length = Some decoded ∧
      r_corrected r = strip ucd decoded ∧ r_original r = student_input ∧
      r_prompt r = prompt ∧ score_contract r
  | None =>
    loaded mm = false ∨
    seq2seq mm (model_input student_input) max_length = None
  end.
Proof.
  unfold Pipeline.correct_text, model_input.
  destruct (loaded mm); simpl; [|by left].
  destruct (seq2seq mm _ _) as [decoded|]; [|by right].
  rewrite bind_Some_eq.
  destruct (identify_changes_spec ucd mm student_input (strip ucd decoded))
    as (ops & _ & _ & ->).
  rewrite bind_Some_eq. split; [done|]. exists decoded.
  repeat split; simpl; try done; try lia.
  destruct (Z.ltb_spec 0 (Z.of_nat (length (edits_of ucd mm
     (Server._wp_tokenize ucd student_input)
     (Server._wp_tokenize ucd (strip ucd decoded))
     (take 50 (filter non_equal ops))))));
    by rewrite ?bool_decide_eq_true_2, ?bool_decide_eq_false_2 by lia.
Qed.

(** X17. The outcomes of [POST /correct].  The request is answered with
    status 400 exactly when the student's text is blank; a text that is not
    blank gets status 500 exactly when the model is not loaded or the
    generation raises, and otherwise a result for that text and that prompt,
    whose corrected text is the trimmed output of the model and whose counts
    obey the scorer's contract. *)
Theorem correct_route_outcomes (ucd : UnicodeDB) (mm : ModelManager)
    (request : CorrectionRequest) :
  let input := req_student_input request in
  match Routes.correct ucd mm request with
  | HTTPException code =>
    (code = 400 ∧ blank ucd input) ∨
    (code = 500 ∧ ¬ blank ucd input ∧
     (loaded mm = false ∨
      seq2seq mm (model_input input) (req_max_length request) = None))
  | Ok r =>
    ¬ blank ucd input ∧ loaded mm = true ∧
    ∃ decoded,
      seq2seq mm (model_input input) (req_max_length request) = Some decoded ∧
      r_corrected r = strip ucd decoded ∧ r_original r = input ∧
      r_prompt r = req_prompt request ∧ score_contract r
  end.
Proof.
  intros input. unfold Routes.correct. fold input.
  destruct (truthy (strip ucd input)) eqn:Hstrip; simpl.
  - assert (¬ blank ucd input) as Hnb.
    { intros Hb. apply strip_nil_iff in Hb. by rewrite Hb in Hstrip. }
    pose proof (correct_text_outcomes ucd mm input (req_prompt request)
                  (req_max_length request)) as Hout.
    destruct (Pipeline.correct_text _ _ _ _ _) as [r|]; [|by right].
    destruct Hout as (Hl & decoded & Hrest). split; [done|]. split; [done|].
    by exists decoded.
  - left. split; [done|]. apply strip_nil_iff.
    by destruct (strip ucd input).
Qed.

(** ** The test script *)



Section TesterSpec.
Variable ucd : UnicodeDB.
Variable generate : pystr → Z → Z → option pystr.

Lemma tester_correct_text_fields student_input prompt num_beams max_length r :
  TesterCorrector.correct_text ucd generate student_input prompt num_beams
    max_length = Some r →
  t_original r = student_input ∧ t_prompt r = prompt ∧
  t_num_errors r = Z.of_nat (length (t_changes r)) ∧
  t_score r = Z.max 0 (10 - Z.of_nat (length (t_changes r))).
Proof.
  unfold TesterCorrector.correct_text. intros Hr.
  destruct (generate _ _ _) as [corrected|]; [|done].
  rewrite bind_Some_eq in Hr.
  destruct (TesterCorrector._identify_changes _ _ _) as [changes|]; [|done].
  rewrite bind_Some_eq in Hr. by injection Hr as <-.
Qed.

Lemma fst_zip_take {A B} (l : list A) (k : list B) :
  (zip l k).*1 = take (length k) l.
Proof.
  revert k. induction l as [|x l IH]; intros [|y k]; simpl; try done.
  by rewrite IH.
Qed.

Lemma snd_zip_take {A B} (l : list A) (k : list B) :
  (zip l k).*2 = take (length l) k.
Proof.
  revert k. induction l as [|x l IH]; intros [|y k]; simpl; try done.
  by rewrite IH.
Qed.

Lemma batch_fields (pairs : list (pystr * pystr)) : ∀ results,
  mapM (λ tp : pystr * pystr,
          TesterCorrector.correct_text ucd generate tp.1 tp.2 4 256) pairs =
    Some results →
  t_original <$> results = pairs.*1 ∧ t_prompt <$> results = pairs.*2.
Proof.
  intros results Hm. apply mapM_Some_1 in Hm.
  induction Hm as [|[t p] r pairs results Hr _ IH]; [done|].
  apply tester_correct_text_fields in Hr as (Ho & Hp & _).
  destruct IH as [IH1 IH2]. rewrite !fmap_cons. simpl in *.
  by rewrite Ho, Hp, IH1, IH2.
Qed.
End TesterSpec.



(** X19. [batch_correct] answers the texts in order, one result per text
    and prompt pair: without [prompts] every text is corrected, with the
    empty prompt; with a list of prompts shorter than the list of texts the
    texts beyond it are dropped without an error. *)
Theorem batch_results_follow_inputs (ucd : UnicodeDB)
    (generate : pystr → Z → Z → option pystr)
    (texts : list pystr) (prompts : option (list pystr))
    (results : list TesterResult) :
  TesterCorrector.batch_correct ucd generate texts prompts = Some results →
  match prompts with
  | None =>
    t_original <$> results = texts ∧
    t_prompt <$> results = replicate (length texts) []
  | Some prompts =>
    length results = (length texts `min` length prompts)%nat ∧
    t_original <$> results = take (length prompts) texts ∧
    t_prompt <$> results = take (length texts) prompts
  end.
Proof.
  unfold TesterCorrector.batch_correct. intros Hm.
  apply batch_fields in Hm as [Ho Hp].
  rewrite fst_zip_take in Ho. rewrite snd_zip_take in Hp.
  destruct prompts as [prompts|].
  - split; [|done].
    rewrite <- (length_fmap t_original), Ho, length_take. lia.
  - rewrite length_replicate in Ho.
    rewrite Ho, Hp, firstn_all.
    split; [done|].
    rewrite take_ge; [done|]. by rewrite length_replicate.
Qed.

Lemma batch_results_follow_inputs_witness :
  ∃ results,
    TesterCorrector.batch_correct ascii_db (λ _ _ _, Some (str "A dog ."))
      [str "A dog"; str "A cat"] (Some [str "Describe a pet"]) = Some results ∧
    length results = 1%nat ∧
    t_original <$> results = [str "A dog"] ∧
    t_prompt <$> results = [str "Describe a pet"].
Proof.
  eexists. split; [vm_compute; reflexivity|].
  apply (batch_results_follow_inputs ascii_db (λ _ _ _, Some (str "A dog ."))
           [str "A dog"; str "A cat"] (Some [str "Describe a pet"])).
  vm_compute; reflexivity.
Defined.

(** ** Training texts and model inputs *)

(** X20. The texts the classifier is trained on have the form of the
    texts the server asks it about: the text of a training example is
    [_normalize_pair_for_clf] of the annotation's incorrect and correct
    texts. *)
Theorem training_texts_are_server_queries (ucd : UnicodeDB) (data : list sample) :
  (TaggerExamples.build_error_type_examples ucd data).1 =
    (λ t, _normalize_pair_for_clf ucd (incorrect t) (correct t)) <$>
      filter (kept ucd 1 40) (triples data).
Proof.
  unfold TaggerExamples.build_error_type_examples.
  by rewrite items_loop_spec.
Qed.

Lemma slice_from_last {A} (l : list A) (n : Z) :
  0 < n → n ≤ Z.of_nat (length l) →
  slice_from l (- n) = drop (length l - Z.to_nat n) l.
Proof.
  intros Hn Hle. unfold slice_from, slice, slice_bound.
  destruct (Z.ltb_spec (- n) 0); [|lia].
  destruct (Z.ltb_spec (Z.of_nat (length l)) 0); [lia|].
  rewrite Z.min_id, Z.max_r by lia.
  replace (Z.to_nat (Z.of_nat (length l) + - n))
    with (length l - Z.to_nat n)%nat by lia.
  apply take_ge. rewrite length_drop. lia.
Qed.

Lemma slice_from_0 {A} (l : list A) : slice_from l (- 0) = l.
Proof.
  unfold slice_from, slice, slice_bound. change (- 0) with 0.
  destruct (Z.ltb_spec (Z.of_nat (length l)) 0); [lia|].
  change (0 <? 0) with false. cbv iota.
  rewrite Z.min_id, Z.min_l by lia. rewrite Z.sub_0_r, Nat2Z.id.
  change (Z.to_nat 0) with 0%nat. by rewrite drop_0, firstn_all.
Qed.

(** X21. The composer of [test_model] and the composer of the training
    set build the same input whenever the prompt has at most
    [PROMPT_MAX_TOKENS] tokens.  (For a longer prompt they differ:
    training keeps its last tokens, testing its first.) *)
Theorem composers_agree_when_prompt_fits (tokenizer : Tokenizer)
    (prompt student_text : pystr) :
  token_count tokenizer prompt ≤ PROMPT_MAX_TOKENS →
  Composer.compose_for_test tokenizer prompt student_text =
    Composer._compose_and_trim tokenizer MAX_ENCODER_LEN PROMPT_MAX_TOKENS
      prompt student_text.
Proof.
  unfold token_count. intros Hfit.
  unfold Composer.compose_for_test, Composer._compose_and_trim,
    Composer.trim_to_tokens, Composer.tokenize, Composer.decode_ids.
  destruct (Z.ltb_spec PROMPT_MAX_TOKENS
              (Z.of_nat (length (encode tokenizer prompt)))); [lia|].
  destruct (Z.leb_spec (Z.of_nat (length (encode tokenizer prompt)))
              PROMPT_MAX_TOKENS); [done|lia].
Qed.

Lemma composers_agree_when_prompt_fits_witness :
  Composer.compose_for_test char_tokenizer (str "Describe your day")
    (str "I go to school yesterday") =
  Composer._compose_and_trim char_tokenizer MAX_ENCODER_LEN PROMPT_MAX_TOKENS
    (str "Describe your day") (str "I go to school yesterday").
Proof.
  apply (composers_agree_when_prompt_fits char_tokenizer
           (str "Describe your day") (str "I go to school yesterday")).
  vm_compute. discriminate.
Defined.

(** X22. What [_compose_and_trim] returns.  The input always starts with
    the instruction prefix and a space.  An answer that fits beside the bare
    prefix is copied as it is, after the question if that fits too; the
    answer is decoded from its tokens only when it does not fit, and then
    from its last tokens, as many as the budget allows.  When the prefix
    alone fills the encoder no token of the answer is dropped. *)
Theorem compose_and_trim_outcomes (tokenizer : Tokenizer)
    (max_encoder_len prompt_max_tokens : Z) (prompt original_text : pystr) :
  ∃ rest,
    Composer._compose_and_trim tokenizer max_encoder_len prompt_max_tokens
      prompt original_text = INSTRUCTION_PREFIX ++ str " " ++ rest ∧
    ((∃ question, rest = question ++ original_text) ∨
     (answer_budget tokenizer max_encoder_len <
        token_count tokenizer original_text ∧
      rest = decode tokenizer
               (kept_answer_ids tokenizer max_encoder_len original_text))) ∧
    (token_count tokenizer original_text ≤
       answer_budget tokenizer max_encoder_len →
     ∃ question, rest = question ++ original_text).
Proof.
  unfold Composer._compose_and_trim, Composer.tokenize, Composer.decode_ids,
    kept_answer_ids, answer_budget, token_count.
  set (prefix_ids := encode tokenizer (INSTRUCTION_PREFIX ++ str " ")).
  set (ans_ids := encode tokenizer original_text).
  set (base := if truthy prompt then _ else _).
  assert (∃ question, base = INSTRUCTION_PREFIX ++ str " " ++ question)
    as [question Hbase].
  { unfold base. destruct (truthy prompt).
    - eexists. change (str " Question: ") with (str " " ++ str "Question: ").
      by rewrite <- !app_assoc.
    - exists []. by rewrite app_nil_r. }
  destruct (Z.leb_spec (Z.of_nat (length (encode tokenizer base))
                        + Z.of_nat (length ans_ids)) max_encoder_len).
  { exists (question ++ original_text).
    split; [rewrite Hbase; by rewrite <- !app_assoc|].
    split; [left|intros _]; by exists question. }
  destruct (Z.leb_spec (Z.of_nat (length prefix_ids)
                        + Z.of_nat (length ans_ids)) max_encoder_len).
  { exists original_text. rewrite <- !app_assoc.
    split; [done|]. split; [left|intros _]; by exists []. }
  eexists. rewrite <- !app_assoc. split; [done|].
  split; [|lia]. right. split; [lia|]. f_equal.
  destruct (Z.ltb_spec 0 (max_encoder_len - Z.of_nat (length prefix_ids))).
  - rewrite Z.max_l by lia. rewrite slice_from_last by lia. done.
  - rewrite Z.max_r by lia. apply slice_from_0.
Qed.

(** X23. The server gives the model the input that the training composer
    builds for a sample without a prompt, whenever the text fits beside the
    prefix; so does the composer of [test_model]. *)
Theorem server_input_is_training_input (tokenizer : Tokenizer)
    (prompt_max_tokens : Z) (student_input : pystr) :
  token_count tokenizer student_input ≤
    answer_budget tokenizer MAX_ENCODER_LEN →
  Composer._compose_and_trim tokenizer MAX_ENCODER_LEN prompt_max_tokens []
    student_input = model_input student_input ∧
  Composer.compose_for_test tokenizer [] student_input =
    model_input student_input ∧
  Composer.build_input_text [] student_input = model_input student_input.
Proof.
  unfold token_count, answer_budget, token_count. intros Hfit.
  unfold Composer._compose_and_trim, Composer.compose_for_test,
    Composer.build_input_text, Composer.tokenize, model_input.
  cbn [truthy].
  destruct (Z.leb_spec
              (Z.of_nat (length (encode tokenizer (INSTRUCTION_PREFIX ++ str " ")))
               + Z.of_nat (length (encode tokenizer student_input)))
              MAX_ENCODER_LEN); [|lia].
  by rewrite <- !app_assoc.
Qed.

Lemma server_input_is_training_input_witness :
  Composer._compose_and_trim char_tokenizer MAX_ENCODER_LEN PROMPT_MAX_TOKENS []
    (str "I go to school yesterday") =
  model_input (str "I go to school yesterday").
Proof.
  apply (server_input_is_training_input char_tokenizer PROMPT_MAX_TOKENS
           (str "I go to school yesterday")).
  vm_compute. discriminate.
Defined.

(** X24. The server does not use the prompt of a request: whatever the
    prompt, [correct_text] gives the model the same input and returns the
    same correction, edits and score; the prompt is only copied into the
    result. *)
Theorem prompt_is_only_echoed (ucd : UnicodeDB) (mm : ModelManager)
    (student_input prompt1 prompt2 : pystr) (max_length : Z) :
  with_prompt prompt2 <$>
      Pipeline.correct_text ucd mm student_input prompt1 max_length =
    Pipeline.correct_text ucd mm student_input prompt2 max_length.
Proof.
  unfold Pipeline.correct_text.
  destruct (loaded mm); [|done]. simpl.
  destruct (seq2seq mm _ _) as [decoded|]; [|done]. simpl.
  by destruct (Pipeline.identify_changes _ _ _ _).
Qed.

(** ** Edits are separated by unchanged tokens *)

Lemma collapse_sizes blocks : ∀ cur non_adjacent,
  Forall (λ m : Match, m.2 ≠ 0) non_adjacent →
  Forall (λ m : Match, m.2 ≠ 0) (collapse blocks cur non_adjacent).2.
Proof.
  induction blocks as [|[[i2 j2] k2] blocks IH];
    intros [[i1 j1] k1] na Hna; simpl; [done|].
  destruct (_ && _); [by apply IH|].
  apply IH. destruct (Z.eqb_spec k1 0); [done|].
  apply Forall_app. split; [done|]. by apply Forall_singleton.
Qed.

Lemma get_matching_blocks_sizes `{Countable A} (sm : SequenceMatcher (A := A))
    (blocks : list Match) :
  get_matching_blocks sm = Some blocks →
  ∃ bs, blocks = bs ++ [(Z.of_nat (length (sm_a sm)),
                         Z.of_nat (length (sm_b sm)), 0)] ∧
        Forall (λ m : Match, m.2 ≠ 0) bs.
Proof.
  unfold get_matching_blocks.
  destruct (blocks_loop sm _ _ _) as [bs|]; [|done].
  rewrite bind_Some_eq.
  pose proof (collapse_sizes (merge_sort match_le bs) (0, 0, 0) []
                ltac:(constructor)) as Hsizes.
  destruct (collapse _ _ _) as [cur na]. simpl in Hsizes.
  intros [= <-]. eexists. split; [done|].
  destruct (Z.eqb_spec cur.2 0); [done|].
  apply Forall_app. split; [done|]. by apply Forall_singleton.
Qed.

Lemma separated_cons_equal op ops :
  op_tag op = tag_equal → separated ops → separated (op :: ops).
Proof. intros Htag Hsep. split; [|done]. destruct ops; auto. Qed.

Lemma opcodes_loop_separated la lb (blocks : list Match) : ∀ i j,
  Forall (λ m : Match, m.2 ≠ 0) blocks →
  separated (opcodes_loop (blocks ++ [(la, lb, 0)]) i j []).
Proof.
  induction blocks as [|[[ai bj] size] blocks IH]; intros i j Hsizes.
  - simpl. by repeat case_match.
  - apply Forall_cons in Hsizes as [Hsize Hsizes]. simpl in Hsize.
    rewrite <- app_comm_cons. cbn [opcodes_loop].
    rewrite opcodes_loop_app.
    destruct (Z.eqb_spec size 0) as [|_]; [done|].
    specialize (IH (ai + size) (bj + size) Hsizes).
    assert (separated (Op tag_equal ai (ai + size) bj (bj + size)
              :: opcodes_loop (blocks ++ [(la, lb, 0)]) (ai + size) (bj + size) []))
      as Heq by (by apply separated_cons_equal).
    repeat case_match; simpl; (split; [by right|]) || idtac; exact Heq.
Qed.

Lemma get_opcodes_separated `{Countable A} (a b : list A) ops :
  get_opcodes (new_matcher a b) = Some ops → separated ops.
Proof.
  unfold get_opcodes.
  destruct (get_matching_blocks _) as [blocks|] eqn:Hbl; [|done].
  rewrite bind_Some_eq. intros [= <-].
  apply get_matching_blocks_sizes in Hbl as (bs & -> & Hsizes).
  by apply opcodes_loop_separated.
Qed.

Lemma separated_count (ops : list Opcode) :
  separated ops →
  (length (filter non_equal ops) ≤ S (length (filter is_equal ops)))%nat ∧
  (match ops with
   | op :: _ => is_equal op
   | [] => True
   end → length (filter non_equal ops) ≤ length (filter is_equal ops))%nat.
Proof.
  induction ops as [|op ops IH]; [simpl; lia|].
  intros [Hhd Hsep]. destruct (IH Hsep) as [IH1 IH2].
  destruct (decide (is_equal op)) as [Heq|Hne].
  - rewrite (filter_cons_False non_equal), (filter_cons_True is_equal)
      by (done || by intros ?).
    simpl. lia.
  - rewrite (filter_cons_True non_equal), (filter_cons_False is_equal) by done.
    simpl. split; [|done].
    destruct ops as [|op2 ops]; [simpl; lia|].
    destruct Hhd as [|Heq2]; [done|]. specialize (IH2 Heq2). lia.
Qed.

Lemma tiles_equal_count la lb (ops : list Opcode) : ∀ i j,
  tiles i j la lb ops → Forall op_shape ops →
  Z.of_nat (length (filter is_equal ops)) ≤ la - i ∧
  Z.of_nat (length (filter is_equal ops)) ≤ lb - j.
Proof.
  induction ops as [|op ops IH]; intros i j Htiles Hshape.
  { simpl in *. lia. }
  destruct Htiles as (Hi & Hj & ? & ? & _ & Hrest).
  apply Forall_cons in Hshape as [Hop Hshape].
  specialize (IH _ _ Hrest Hshape).
  destruct (decide (is_equal op)) as [Heq|Hne].
  - rewrite filter_cons_True by done. unfold op_shape in Hop.
    rewrite Heq in Hop. simpl. lia.
  - rewrite filter_cons_False by done. lia.
Qed.

(** X25. The edits are apart: between two opcodes that are not [equal]
    the aligner always has an [equal] opcode, so that two edits of
    [identify_changes] are always separated by at least one unchanged token,
    and changes to neighbouring tokens are reported as one edit. *)
Theorem edits_are_separated (ucd : UnicodeDB) (original corrected : pystr) :
  ∃ ops, opcodes_of ucd original corrected = Some ops ∧ separated ops.
Proof.
  destruct (get_opcodes_tiles (Server._wp_tokenize ucd original)
              (Server._wp_tokenize ucd corrected)) as (ops & Hops & _).
  exists ops. split; [done|]. by eapply get_opcodes_separated.
Qed.

(** X26. There is at most one edit more than the shorter of the two texts
    has tokens.  In particular, a correction without any token is reported
    as at most one edit: an empty output of the model scores 9 or 10. *)
Theorem edit_count_bound (ucd : UnicodeDB) (mm : ModelManager)
    (original corrected : pystr) :
  ∃ edits, Pipeline.identify_changes ucd mm original corrected = Some edits ∧
    (length edits ≤ S (length (Server._wp_tokenize ucd original)
                       `min` length (Server._wp_tokenize ucd corrected)))%nat.
Proof.
  destruct (identify_changes_spec ucd mm original corrected)
    as (ops & Hops & Htiles & ->).
  eexists. split; [done|].
  unfold edits_of. rewrite length_fmap, length_take.
  unfold opcodes_of in Hops.
  pose proof (get_opcodes_separated _ _ _ Hops) as Hsep.
  destruct (get_opcodes_sound (Server._wp_tokenize ucd original)
              (Server._wp_tokenize ucd corrected)) as (ops' & Hops' & _ & Hall).
  rewrite Hops in Hops'. injection Hops' as <-.
  apply separated_count in Hsep as [Hcount _].
  assert (Forall op_shape ops) as Hshape.
  { eapply Forall_impl; [exact Hall|]. by intros ? [? _]. }
  pose proof (tiles_equal_count _ _ _ _ _ Htiles Hshape). lia.
Qed.

(** ** The corpus parser *)

Section ParserSpec.
Local Abbreviation NS := (str "NS").

Local Abbreviation parsed_child := (λ child : Element,
  if bool_decide (el_tag child = NS) then FCEDataParser.annotated child
  else
    ([(FCEDataParser.process_element child).1] ++ appended (el_tail child),
     (FCEDataParser.process_element child).2)).

Local Abbreviation original_child := (λ child : Element,
  if bool_decide (el_tag child = NS)
  then
    match find child (str "i") with
    | Some i_elem => [FCEDataParser.get_all_text i_elem]
    | None => []
    end ++ appended (el_tail child)
  else FCEDataParser.original_parts child ++ appended (el_tail child)).

Lemma process_element_eq tag attrib text tail children :
  FCEDataParser.process_element (Elem tag attrib text tail children) =
    (concat (appended text ++ ((parsed_child <$> children) ≫= fst)),
     (parsed_child <$> children) ≫= snd).
Proof. done. Qed.

Lemma original_parts_eq tag attrib text tail children :
  FCEDataParser.original_parts (Elem tag attrib text tail children) =
    appended text ++ (children ≫= original_child).
Proof. done. Qed.

Lemma annotated_without_correction child :
  Forall (λ a, a_correct a = []) (FCEDataParser.annotated child).2 →
  concat (match find child (str "i") with
          | Some i_elem => [FCEDataParser.get_all_text i_elem]
          | None => []
          end ++ appended (el_tail child)) =
    concat (FCEDataParser.annotated child).1.
Proof.
  unfold FCEDataParser.annotated, FCEDataParser.text_of_child. cbn [fst snd].
  set (correct := match find child (str "c") with Some e => _ | None => _ end).
  intros Hq. rewrite !concat_app. f_equal.
  destruct correct as [|c correct'] eqn:Hc.
  - clear Hq. cbn [truthy].
    destruct (find child (str "i")) as [i_elem|]; [|done].
    by destruct (FCEDataParser.get_all_text i_elem).
  - cbn [truthy] in Hq. rewrite orb_true_r in Hq.
    rewrite Forall_singleton in Hq. cbn [a_correct] in Hq. discriminate Hq.
Qed.

Lemma process_element_original (e : Element) :
  Forall (λ a, a_correct a = []) (FCEDataParser.process_element e).2 →
  concat (FCEDataParser.original_parts e) = (FCEDataParser.process_element e).1.
Proof.
  induction e as [tag attrib text tail children IH] using Element_children_ind.
  rewrite process_element_eq, original_parts_eq. cbn [fst snd].
  intros Hq. rewrite !concat_app. f_equal.
  induction IH as [|child children Hchild _ IHchildren]; [done|].
  rewrite fmap_cons, !bind_cons, !concat_app in *.
  apply Forall_app in Hq as [Hq1 Hq2].
  rewrite (IHchildren Hq2). f_equal.
  case_bool_decide.
  - by apply annotated_without_correction.
  - cbn [fst snd] in *. rewrite !concat_app. f_equal.
    rewrite (Hchild Hq1). simpl. by rewrite app_nil_r.
Qed.
End ParserSpec.

(** X27. A coded answer whose recorded annotations all have an empty
    correction is parsed into a corrected text equal to its original text;
    in particular the two texts are the same when no annotation is
    recorded. *)
Theorem texts_differ_only_by_corrections (coded_answer : Element)
    (original_text corrected_text : pystr) (corrections : list annotation) :
  FCEDataParser.parse_coded_answer coded_answer =
    (original_text, corrected_text, corrections) →
  Forall (λ a, a_correct a = []) corrections →
  corrected_text = original_text.
Proof.
  unfold FCEDataParser.parse_coded_answer, FCEDataParser.build_original_text.
  pose proof (process_element_original coded_answer) as Hsame.
  destruct (FCEDataParser.process_element coded_answer) as [text corrs].
  intros [= <- <- <-] Hq. symmetry. by apply Hsame.
Qed.

Lemma texts_differ_only_by_corrections_witness :
  ∃ text corrections,
    FCEDataParser.parse_coded_answer coded_answer_example =
      (text, text, corrections) ∧
    text = str "I very like it" ∧ length corrections = 1%nat.
Proof.
  pose proof (texts_differ_only_by_corrections coded_answer_example
                (str "I very like it") (str "I very like it")
                [{| a_error_type := str "UT"; a_incorrect := str "very";
                    a_correct := []; a_error_name := str "Unnecessary word" |}])
    as Hsame.
  eexists _, _. split; [|split; [apply Hsame|]].
  - vm_compute. reflexivity.
  - vm_compute. reflexivity.
  - repeat constructor.
  - reflexivity.
Defined.

(** ** Texts without a common token *)

Lemma disjoint_opcodes {A} (a b : list A) (ops : list Opcode) :
  (∀ x, x ∈ a → x ∉ b) → (a ≠ [] ∨ b ≠ []) →
  tiles 0 0 (Z.of_nat (length a)) (Z.of_nat (length b)) ops →
  Forall (op_sound a b) ops → separated ops →
  ops = [whole_op a b].
Proof.
  intros Hdis Hne Htiles Hall Hsep.
  assert (Forall non_equal ops) as Hnoeq.
  { rewrite Forall_forall in *. intros op Hop Htag.
    destruct (Hall op Hop) as (Hin & Hshape & Heq). specialize (Heq Htag).
    unfold op_in in Hin. unfold op_shape in Hshape. rewrite Htag in Hshape.
    rewrite !slice_in_range in Heq by lia.
    assert (is_Some (a !! Z.to_nat (op_i1 op))) as [x Hx].
    { apply lookup_lt_is_Some. lia. }
    apply (Hdis x); [by eapply list_elem_of_lookup_2|].
    assert (take (Z.to_nat (op_i2 op - op_i1 op)) (drop (Z.to_nat (op_i1 op)) a)
              !! 0%nat = Some x) as Hx0.
    { rewrite lookup_take_lt by lia. rewrite lookup_drop.
      by rewrite Nat.add_0_r. }
    rewrite Heq in Hx0. apply lookup_take_Some in Hx0 as [Hx0 _].
    rewrite lookup_drop in Hx0. by eapply list_elem_of_lookup_2. }
  destruct ops as [|op1 [|op2 ops]].
  - simpl in Htiles. destruct a, b, Hne; simpl in *; done || lia.
  - apply Forall_singleton in Hall as (_ & Hshape & _).
    rewrite Forall_singleton in Hnoeq. unfold non_equal in Hnoeq.
    destruct Htiles as (Hi1 & Hj1 & _ & _ & _ & Hi2 & Hj2).
    unfold op_shape in Hshape. unfold whole_op.
    destruct op1 as [t i1 i2 j1 j2]. simpl in *. subst.
    destruct (Z.eqb_spec (Z.of_nat (length a)) 0),
      (Z.eqb_spec (Z.of_nat (length b)) 0), t; try done; exfalso; lia.
  - destruct Hsep as [[Heq|Heq] _].
    + rewrite Forall_cons in Hnoeq. by destruct Hnoeq as [Hn _].
    + rewrite !Forall_cons in Hnoeq. by destruct Hnoeq as (_ & Hn & _).
Qed.

(** X28. Two texts without a common token, not both without tokens, are
    reported as one edit that spans both of them: a replaced edit from the
    whole original to the whole correction, a deleted edit when the
    correction has no token, an added edit when the original has none.  A
    correction that shares no token with the input therefore scores 9. *)
Theorem disjoint_texts_give_one_edit (ucd : UnicodeDB) (mm : ModelManager)
    (original corrected : pystr) :
  let o_tokens := Server._wp_tokenize ucd original in
  let c_tokens := Server._wp_tokenize ucd corrected in
  (∀ t, t ∈ o_tokens → t ∉ c_tokens) →
  o_tokens ≠ [] ∨ c_tokens ≠ [] →
  Pipeline.identify_changes ucd mm original corrected =
    Some [Pipeline.edit_of ucd mm
            (Pipeline.change_of o_tokens c_tokens (whole_op o_tokens c_tokens))].
Proof.
  intros o_tokens c_tokens Hdis Hne.
  destruct (identify_changes_spec ucd mm original corrected)
    as (ops & Hops & Htiles & ->).
  unfold opcodes_of in Hops.
  pose proof (get_opcodes_separated _ _ _ Hops) as Hsep.
  destruct (get_opcodes_op_sound (Server._wp_tokenize ucd original)
              (Server._wp_tokenize ucd corrected)) as (ops' & Hops' & _ & Hall).
  rewrite Hops in Hops'. injection Hops' as <-.
  rewrite (disjoint_opcodes _ _ ops Hdis Hne Htiles Hall Hsep).
  fold o_tokens c_tokens.
  rewrite filter_cons_True; [done|].
  unfold non_equal, whole_op. simpl. by repeat case_match.
Qed.

Lemma disjoint_texts_give_one_edit_witness :
  summaries (Pipeline.identify_changes ascii_db (manager_without_classifier id)
               (str "I saw dog .") (str "We like cats !")) =
    Some [(replaced, Some (str "I saw dog."), Some (str "We like cats !"), other)].
Proof.
  rewrite (disjoint_texts_give_one_edit ascii_db (manager_without_classifier id)
             (str "I saw dog .") (str "We like cats !")).
  - vm_compute. reflexivity.
  - apply Forall_forall. apply (bool_decide_unpack _). vm_compute. reflexivity.
  - left. vm_compute. discriminate.
Defined.

(** ** Annotations and texts *)

Lemma occurs_in_refl s : occurs_in s s.
Proof. exists [], []. by rewrite app_nil_r. Qed.

Lemma occurs_in_nil t : occurs_in [] t.
Proof. by exists [], t. Qed.

Lemma occurs_in_app_l s t u : occurs_in s t → occurs_in s (u ++ t).
Proof. intros (x & y & ->). exists (u ++ x), y. by rewrite <- app_assoc. Qed.

Lemma occurs_in_app_r s t u : occurs_in s t → occurs_in s (t ++ u).
Proof. intros (x & y & ->). exists x, (y ++ u). by rewrite <- !app_assoc. Qed.

Section ParserOccurrences.
Local Abbreviation NS := (str "NS").

Local Abbreviation parsed_child := (λ child : Element,
  if bool_decide (el_tag child = NS) then FCEDataParser.annotated child
  else
    ([(FCEDataParser.process_element child).1] ++ appended (el_tail child),
     (FCEDataParser.process_element child).2)).

Local Abbreviation original_child := (λ child : Element,
  if bool_decide (el_tag child = NS)
  then
    match find child (str "i") with
    | Some i_elem => [FCEDataParser.get_all_text i_elem]
    | None => []
    end ++ appended (el_tail child)
  else FCEDataParser.original_parts child ++ appended (el_tail child)).

Lemma annotated_shown child :
  Forall (λ a, occurs_in (shown a) (concat (FCEDataParser.annotated child).1) ∧
               (a_incorrect a ≠ [] ∨ a_correct a ≠ []))
    (FCEDataParser.annotated child).2.
Proof.
  unfold FCEDataParser.annotated. cbn [fst snd].
  set (incorrect := FCEDataParser.text_of_child child (str "i")).
  set (correct := FCEDataParser.text_of_child child (str "c")).
  destruct correct as [|c correct'] eqn:Hc;
    destruct incorrect as [|d incorrect'] eqn:Hi; cbn [truthy orb];
    try done; apply Forall_singleton; unfold shown; cbn [a_correct a_incorrect truthy];
    (split; [|by auto]); rewrite concat_app; apply occurs_in_app_r;
    cbn [concat]; rewrite app_nil_r; apply occurs_in_refl.
Qed.

Lemma annotated_incorrect child :
  Forall (λ a, occurs_in (a_incorrect a)
                 (concat (match find child (str "i") with
                          | Some i_elem => [FCEDataParser.get_all_text i_elem]
                          | None => []
                          end ++ appended (el_tail child))))
    (FCEDataParser.annotated child).2.
Proof.
  unfold FCEDataParser.annotated, FCEDataParser.text_of_child. cbn [fst snd].
  destruct (_ || _); [|done]. apply Forall_singleton. cbn [a_incorrect].
  destruct (find child (str "i")) as [i_elem|]; [|apply occurs_in_nil].
  rewrite concat_app. apply occurs_in_app_r. cbn [concat].
  rewrite app_nil_r. apply occurs_in_refl.
Qed.

Lemma process_element_shown (e : Element) :
  Forall (λ a, occurs_in (shown a) (FCEDataParser.process_element e).1 ∧
               (a_incorrect a ≠ [] ∨ a_correct a ≠ []))
    (FCEDataParser.process_element e).2.
Proof.
  induction e as [tag attrib text tail children IH] using Element_children_ind.
  rewrite process_element_eq. cbn [fst snd].
  assert (Forall (λ a, occurs_in (shown a)
                         (concat ((parsed_child <$> children) ≫= fst)) ∧
                       (a_incorrect a ≠ [] ∨ a_correct a ≠ []))
            ((parsed_child <$> children) ≫= snd)) as Hall.
  { induction IH as [|child children Hchild _ IHchildren]; [done|].
    rewrite fmap_cons, !bind_cons, concat_app. apply Forall_app. split.
    - assert (Forall (λ a, occurs_in (shown a) (concat (parsed_child child).1) ∧
                           (a_incorrect a ≠ [] ∨ a_correct a ≠ []))
                (parsed_child child).2) as Hc.
      { case_bool_decide; [apply annotated_shown|]. cbn [fst snd].
        eapply Forall_impl; [exact Hchild|]. intros a [Ha ?]. split; [|done].
        rewrite concat_app. apply occurs_in_app_r. cbn [concat].
        by rewrite app_nil_r. }
      eapply Forall_impl; [exact Hc|]. intros a [Ha ?].
      split; [by apply occurs_in_app_r|done].
    - eapply Forall_impl; [exact IHchildren|]. intros a [Ha ?].
      split; [by apply occurs_in_app_l|done]. }
  eapply Forall_impl; [exact Hall|]. intros a [Ha ?]. split; [|done].
  rewrite concat_app. by apply occurs_in_app_l.
Qed.

Lemma process_element_incorrect (e : Element) :
  Forall (λ a, occurs_in (a_incorrect a)
                 (concat (FCEDataParser.original_parts e)))
    (FCEDataParser.process_element e).2.
Proof.
  induction e as [tag attrib text tail children IH] using Element_children_ind.
  rewrite process_element_eq, original_parts_eq. cbn [fst snd].
  assert (Forall (λ a, occurs_in (a_incorrect a)
                         (concat (children ≫= original_child)))
            ((parsed_child <$> children) ≫= snd)) as Hall.
  { induction IH as [|child children Hchild _ IHchildren]; [done|].
    rewrite fmap_cons, !bind_cons, concat_app. apply Forall_app. split.
    - assert (Forall (λ a, occurs_in (a_incorrect a)
                             (concat (original_child child)))
                (parsed_child child).2) as Hc.
      { case_bool_decide; [apply annotated_incorrect|]. cbn [fst snd].
        eapply Forall_impl; [exact Hchild|]. intros a Ha.
        rewrite concat_app. by apply occurs_in_app_r. }
      eapply Forall_impl; [exact Hc|]. intros a Ha. by apply occurs_in_app_r.
    - eapply Forall_impl; [exact IHchildren|]. intros a Ha.
      by apply occurs_in_app_l. }
  eapply Forall_impl; [exact Hall|]. intros a Ha.
  rewrite concat_app. by apply occurs_in_app_l.
Qed.
End ParserOccurrences.

(** X29. Every annotation that [parse_coded_answer] records has an
    incorrect or a correct text, its incorrect text occurs in the original
    text, and its correct text (its incorrect text, when it has no correct
    one) occurs in the corrected text. *)
Theorem annotations_occur_in_texts (coded_answer : Element)
    (original_text corrected_text : pystr) (corrections : list annotation) :
  FCEDataParser.parse_coded_answer coded_answer =
    (original_text, corrected_text, corrections) →
  Forall (λ a, (a_incorrect a ≠ [] ∨ a_correct a ≠ []) ∧
               occurs_in (a_incorrect a) original_text ∧
               occurs_in (shown a) corrected_text) corrections.
Proof.
  unfold FCEDataParser.parse_coded_answer, FCEDataParser.build_original_text.
  pose proof (process_element_shown coded_answer) as Hshown.
  pose proof (process_element_incorrect coded_answer) as Hinc.
  destruct (FCEDataParser.process_element coded_answer) as [text corrs].
  intros [= <- <- <-]. cbn [fst snd] in *.
  rewrite Forall_forall in *. intros a Ha.
  destruct (Hshown a Ha). specialize (Hinc a Ha). auto.
Qed.

Lemma annotations_occur_in_texts_witness :
  ∃ original_text corrected_text corrections,
    FCEDataParser.parse_coded_answer coded_answer_example =
      (original_text, corrected_text, corrections) ∧
    corrections ≠ [] ∧
    Forall (λ a, (a_incorrect a ≠ [] ∨ a_correct a ≠ []) ∧
                 occurs_in (a_incorrect a) original_text ∧
                 occurs_in (shown a) corrected_text) corrections.
Proof.
  eexists _, _, _. split; [vm_compute; reflexivity|]. split; [discriminate|].
  apply (annotations_occur_in_texts coded_answer_example).
  vm_compute. reflexivity.
Defined.
